(** * The NATS consumer input plugin (plugins/inputs/nats_consumer)

    A shallow embedding of [nats_consumer.go]: the plugin instance, the three
    channels it owns, the broker client seen through the calls the plugin
    makes on it, the accumulator seen through the calls it receives, and the
    goroutines ([Start]/[Stop] callers, the [receiver] loop, the broker's
    delivery and error callbacks) as actions of a scheduler. *)

From stdpp Require Import base list strings.
From Stdlib Require Import ZArith Lia.

Local Open Scope string_scope.

(** ** Go values *)

(** A Go [error] is identified with the text its [Error()] method returns. *)
Definition error := string.

Definition newline : string := String (Ascii.ascii_of_nat 10) EmptyString.

(** The text of the run-time panic for a nil pointer or a nil interface. *)
Definition nil_dereference : string :=
  "runtime error: invalid memory address or nil pointer dereference".

(** [s] occurs in [t]. *)
Definition contains (t s : string) : Prop :=
  exists pre post, t = pre +:+ s +:+ post.

(** ** Channels

    A channel is a heap object; a channel-typed field holds [None] (the nil
    channel) or the index of a channel in the heap of its element type. *)

Record Chan (A : Type) := mkChan {
  ch_cap : nat;          (* capacity given to make *)
  ch_buf : list A;       (* buffered elements, oldest first *)
  ch_closed : bool
}.
Arguments mkChan {A} _ _ _.
Arguments ch_cap {A} _.
Arguments ch_buf {A} _.
Arguments ch_closed {A} _.

(** [make(chan A, cap)] *)
Definition make_chan {A : Type} (cap : nat) : Chan A := mkChan cap [] false.

(** [close(c)] on the channel value [c]: the new channel, or the text of the
    run-time panic. *)
Definition chan_close {A : Type} (c : option (Chan A)) : string + Chan A :=
  match c with
  | None => inl "close of nil channel"
  | Some c =>
      if ch_closed c then inl "close of closed channel"
      else inr (mkChan (ch_cap c) (ch_buf c) true)
  end.

(** A receive that can proceed without a sender: [Some (Some a, c')] takes the
    oldest buffered element, [Some (None, c)] is the zero value of a closed
    and drained channel, [None] means the receive is not ready. *)
Definition chan_recv {A : Type} (c : Chan A) : option (option A * Chan A) :=
  match ch_buf c with
  | a :: q => Some (Some a, mkChan (ch_cap c) q (ch_closed c))
  | [] => if ch_closed c then Some (None, c) else None
  end.

(** A send into the buffer: [None] when the buffer has no free slot. *)
Definition chan_push {A : Type} (a : A) (c : Chan A) : option (Chan A) :=
  if decide (length (ch_buf c) < ch_cap c)
  then Some (mkChan (ch_cap c) (ch_buf c ++ [a]) (ch_closed c))
  else None.

(** ** The broker client, the decoder and the sink *)

Abbreviation ConnId := nat.
Abbreviation AccId := nat.

(** [*nats.Subscription]: the fields the plugin reads. *)
Record Subscription := mkSub {
  sub_id : nat;
  sub_conn : ConnId;
  sub_Subject : string;
  sub_Queue : string
}.

(** [*nats.Msg]: the fields the plugin reads. *)
Record Msg := mkMsg {
  msg_Subject : string;
  msg_Data : list Byte.byte
}.

Inductive FieldValue :=
| FInt (z : Z)
| FStr (s : string)
| FBool (b : bool).

(** [telegraf.Metric] through its four accessors. *)
Record Metric := mkMetric {
  Name : string;
  Fields : list (string * FieldValue);
  Tags : list (string * string);
  Time : Z
}.

(** Calls received by a [telegraf.Accumulator]. *)
Inductive SinkCall :=
| AddError (err : error)
| AddFields (name : string) (fields : list (string * FieldValue))
            (tags : list (string * string)) (time : Z).

Definition Certificate := string.
Definition CertPool := list (list Byte.byte).

(** [tls.Config]: the fields [Start] sets. *)
Record tlsConfig := mkTLS {
  InsecureSkipVerify : bool;
  Certificates : list Certificate;
  RootCAs : CertPool;
  MinVersion : Z
}.

Definition VersionTLS12 : Z := 0x0303.

(** [nats.Options]: the fields [Start] overrides, and the rest of
    [nats.DefaultOptions] kept as it comes. *)
Record Options := mkOptions {
  opt_Servers : list string;
  opt_Secure : bool;
  opt_TLSConfig : option tlsConfig;
  opt_MaxReconnect : Z;
  opt_rest : string
}.

(** Calls the plugin makes on the broker client, in the client's own names. *)
Inductive Call :=
| CConnect (o : Options)
| CSetErrorHandler (c : ConnId)
| CQueueSubscribe (c : ConnId) (subj queue : string)
| CFlush (c : ConnId)
| CSetPendingLimits (s : nat) (msgs bytes : Z)
| CUnsubscribe (s : nat)
| CClose (c : ConnId).

(** [natsError]: the value sent on the fault channel. The client reports a
    fault that belongs to no subscription with a nil [*nats.Subscription]. *)
Record natsError := mkNatsError {
  ne_conn : ConnId;
  ne_sub : option Subscription;
  ne_err : error
}.

(** Everything outside the plugin: files and certificates, the broker client
    (a test double that decides each call from the calls made before it),
    and the decoder. The decoder is the one [SetParser] has stored in
    n.parser; an instance whose parser was never set is not modelled. *)
Record Env := mkEnv {
  LoadX509KeyPair : string -> string -> Certificate + error;
  ReadFile : string -> option (list Byte.byte) * option error;
  pem_ok : list Byte.byte -> bool;
  DefaultOptions : Options;
  broker_fails : list Call -> Call -> option error;
  ConnectedUrl : ConnId -> string;
  ConnectedServerId : ConnId -> string;
  Parse : list Byte.byte -> list Metric * option error
}.

(** ** The plugin instance *)

Record natsConsumer := mkConsumer {
  QueueGroup : string;
  Subjects : list string;
  Servers : list string;
  Secure : bool;
  SSLCA : string;
  SSLCert : string;
  SSLKey : string;
  VerifyHost : bool;
  PendingMessageLimit : Z;
  PendingBytesLimit : Z;
  MetricBuffer : Z;
  mu : bool;                      (* sync.Mutex: true = locked *)
  wg : nat;                       (* sync.WaitGroup counter *)
  Conn : option ConnId;
  Subs : list Subscription;
  in_ : option nat;               (* chan *nats.Msg *)
  errs : option nat;              (* chan error *)
  done_ : option nat;             (* chan struct{} *)
  acc : option AccId
}.

Definition DefaultSubPendingMsgsLimit : Z := 65536.
Definition DefaultSubPendingBytesLimit : Z := 67108864.

(** The instance built by the function registered in [init]: every field it
    does not name has Go's zero value. *)
Definition init : natsConsumer :=
  {| QueueGroup := "telegraf_consumers";
     Subjects := ["telegraf"];
     Servers := ["nats://localhost:4222"];
     Secure := true;
     SSLCA := ""; SSLCert := ""; SSLKey := "";
     VerifyHost := false;
     PendingMessageLimit := DefaultSubPendingMsgsLimit;
     PendingBytesLimit := DefaultSubPendingBytesLimit;
     MetricBuffer := 0;
     mu := false; wg := 0;
     Conn := None; Subs := [];
     in_ := None; errs := None; done_ := None;
     acc := None |}.

(** Where a [receiver] goroutine stands. *)
Inductive RecvPC :=
| RTop                                   (* at [for], select not yet entered *)
| RSelect (d e i : option nat)           (* waiting in select on these channels *)
| RGotErr (v : option natsError)         (* [case err := <-n.errs] taken *)
| RGotMsg (v : option Msg)               (* [case msg := <-n.in] taken *)
| RExited.                               (* returned; wg.Done() has run *)

(** ** The world: the instance and what it shares with its environment *)

Record World := mkWorld {
  n : natsConsumer;
  in_chans : list (Chan Msg);
  err_chans : list (Chan natsError);
  done_chans : list (Chan unit);
  receivers : list RecvPC;        (* goroutines started by [go n.receiver()] *)
  conns : list bool;              (* connections dialled; true = closed *)
  calls : list Call;              (* broker calls, oldest first *)
  sink : list (AccId * SinkCall); (* accumulator calls, oldest first *)
  crashed : option string         (* the process has died with this message *)
}.

Definition set_n (f : natsConsumer -> natsConsumer) (w : World) : World :=
  mkWorld (f (n w)) (in_chans w) (err_chans w) (done_chans w) (receivers w)
          (conns w) (calls w) (sink w) (crashed w).
Definition set_in_chans (h : list (Chan Msg)) (w : World) : World :=
  mkWorld (n w) h (err_chans w) (done_chans w) (receivers w)
          (conns w) (calls w) (sink w) (crashed w).
Definition set_err_chans (h : list (Chan natsError)) (w : World) : World :=
  mkWorld (n w) (in_chans w) h (done_chans w) (receivers w)
          (conns w) (calls w) (sink w) (crashed w).
Definition set_done_chans (h : list (Chan unit)) (w : World) : World :=
  mkWorld (n w) (in_chans w) (err_chans w) h (receivers w)
          (conns w) (calls w) (sink w) (crashed w).
Definition set_receivers (r : list RecvPC) (w : World) : World :=
  mkWorld (n w) (in_chans w) (err_chans w) (done_chans w) r
          (conns w) (calls w) (sink w) (crashed w).
Definition set_conns (c : list bool) (w : World) : World :=
  mkWorld (n w) (in_chans w) (err_chans w) (done_chans w) (receivers w)
          c (calls w) (sink w) (crashed w).
Definition set_calls (c : list Call) (w : World) : World :=
  mkWorld (n w) (in_chans w) (err_chans w) (done_chans w) (receivers w)
          (conns w) c (sink w) (crashed w).
Definition set_sink (s : list (AccId * SinkCall)) (w : World) : World :=
  mkWorld (n w) (in_chans w) (err_chans w) (done_chans w) (receivers w)
          (conns w) (calls w) s (crashed w).
Definition set_crashed (s : option string) (w : World) : World :=
  mkWorld (n w) (in_chans w) (err_chans w) (done_chans w) (receivers w)
          (conns w) (calls w) (sink w) s.

(** Field assignments on the instance. *)
Definition with_mu (b : bool) (c : natsConsumer) : natsConsumer :=
  mkConsumer (QueueGroup c) (Subjects c) (Servers c) (Secure c) (SSLCA c)
    (SSLCert c) (SSLKey c) (VerifyHost c) (PendingMessageLimit c)
    (PendingBytesLimit c) (MetricBuffer c) b (wg c) (Conn c) (Subs c)
    (in_ c) (errs c) (done_ c) (acc c).
Definition with_wg (k : nat) (c : natsConsumer) : natsConsumer :=
  mkConsumer (QueueGroup c) (Subjects c) (Servers c) (Secure c) (SSLCA c)
    (SSLCert c) (SSLKey c) (VerifyHost c) (PendingMessageLimit c)
    (PendingBytesLimit c) (MetricBuffer c) (mu c) k (Conn c) (Subs c)
    (in_ c) (errs c) (done_ c) (acc c).
Definition with_Conn (x : option ConnId) (c : natsConsumer) : natsConsumer :=
  mkConsumer (QueueGroup c) (Subjects c) (Servers c) (Secure c) (SSLCA c)
    (SSLCert c) (SSLKey c) (VerifyHost c) (PendingMessageLimit c)
    (PendingBytesLimit c) (MetricBuffer c) (mu c) (wg c) x (Subs c)
    (in_ c) (errs c) (done_ c) (acc c).
Definition with_Subs (x : list Subscription) (c : natsConsumer) : natsConsumer :=
  mkConsumer (QueueGroup c) (Subjects c) (Servers c) (Secure c) (SSLCA c)
    (SSLCert c) (SSLKey c) (VerifyHost c) (PendingMessageLimit c)
    (PendingBytesLimit c) (MetricBuffer c) (mu c) (wg c) (Conn c) x
    (in_ c) (errs c) (done_ c) (acc c).
Definition with_in (x : option nat) (c : natsConsumer) : natsConsumer :=
  mkConsumer (QueueGroup c) (Subjects c) (Servers c) (Secure c) (SSLCA c)
    (SSLCert c) (SSLKey c) (VerifyHost c) (PendingMessageLimit c)
    (PendingBytesLimit c) (MetricBuffer c) (mu c) (wg c) (Conn c) (Subs c)
    x (errs c) (done_ c) (acc c).
Definition with_errs (x : option nat) (c : natsConsumer) : natsConsumer :=
  mkConsumer (QueueGroup c) (Subjects c) (Servers c) (Secure c) (SSLCA c)
    (SSLCert c) (SSLKey c) (VerifyHost c) (PendingMessageLimit c)
    (PendingBytesLimit c) (MetricBuffer c) (mu c) (wg c) (Conn c) (Subs c)
    (in_ c) x (done_ c) (acc c).
Definition with_done (x : option nat) (c : natsConsumer) : natsConsumer :=
  mkConsumer (QueueGroup c) (Subjects c) (Servers c) (Secure c) (SSLCA c)
    (SSLCert c) (SSLKey c) (VerifyHost c) (PendingMessageLimit c)
    (PendingBytesLimit c) (MetricBuffer c) (mu c) (wg c) (Conn c) (Subs c)
    (in_ c) (errs c) x (acc c).
Definition with_acc (x : option AccId) (c : natsConsumer) : natsConsumer :=
  mkConsumer (QueueGroup c) (Subjects c) (Servers c) (Secure c) (SSLCA c)
    (SSLCert c) (SSLKey c) (VerifyHost c) (PendingMessageLimit c)
    (PendingBytesLimit c) (MetricBuffer c) (mu c) (wg c) (Conn c) (Subs c)
    (in_ c) (errs c) (done_ c) x.

(** The instance the configuration loader hands to the agent: the loader
    starts from the registered instance and assigns the keys present in the
    configuration file, so the configuration fields can hold any values; the
    other fields still have Go's zero values. *)
Definition unstarted (c : natsConsumer) : natsConsumer :=
  {| QueueGroup := QueueGroup c;
     Subjects := Subjects c;
     Servers := Servers c;
     Secure := Secure c;
     SSLCA := SSLCA c; SSLCert := SSLCert c; SSLKey := SSLKey c;
     VerifyHost := VerifyHost c;
     PendingMessageLimit := PendingMessageLimit c;
     PendingBytesLimit := PendingBytesLimit c;
     MetricBuffer := MetricBuffer c;
     mu := false; wg := 0;
     Conn := None; Subs := [];
     in_ := None; errs := None; done_ := None;
     acc := None |}.

(** A process that has just loaded the plugin with the configuration [c]:
    no channel, no goroutine, no connection. *)
Definition boot (c : natsConsumer) : World :=
  mkWorld (unstarted c) [] [] [] [] [] [] [] None.

(** The process whose configuration file sets none of the plugin's keys. *)
Definition init_world : World :=
  mkWorld init [] [] [] [] [] [] [] None.

(** ** Running the plugin's code

    A piece of code run from a world ends in one of four ways. *)
Inductive Outcome (A : Type) :=
| Returns (a : A) (w : World)        (* ran to its end *)
| Panics (msg : string) (w : World)  (* run-time panic *)
| Fatal (msg : string) (w : World)   (* log.Fatalf: the process exits *)
| Blocks.                            (* cannot proceed from this world *)
Arguments Returns {A} _ _.
Arguments Panics {A} _ _.
Arguments Fatal {A} _ _.
Arguments Blocks {A}.

Definition M (A : Type) : Type := World -> Outcome A.

Definition ret {A : Type} (a : A) : M A := fun w => Returns a w.

Definition bind {A B : Type} (m : M A) (k : A -> M B) : M B := fun w =>
  match m w with
  | Returns a w' => k a w'
  | Panics s w' => Panics s w'
  | Fatal s w' => Fatal s w'
  | Blocks => Blocks
  end.

Notation "x <- m ;; k" := (bind m (fun x => k))
  (at level 100, m at next level, right associativity).
Notation "m ;;; k" := (bind m (fun _ => k))
  (at level 100, right associativity).

Definition gets {A : Type} (f : World -> A) : M A := fun w => Returns (f w) w.
Definition modify (f : World -> World) : M unit := fun w => Returns tt (f w).
Definition panic {A : Type} (msg : string) : M A := fun w => Panics msg w.
Definition fatal {A : Type} (msg : string) : M A := fun w => Fatal msg w.
Definition block {A : Type} : M A := fun _ => Blocks.

(** [defer d] around [body]: [d] runs when [body] returns or panics, not when
    the process exits. *)
Definition deferred {A : Type} (d : M unit) (body : M A) : M A := fun w =>
  match body w with
  | Returns a w' =>
      match d w' with
      | Returns _ w'' => Returns a w''
      | Panics s x => Panics s x
      | Fatal s x => Fatal s x
      | Blocks => Blocks
      end
  | Panics s w' =>
      match d w' with
      | Returns _ w'' => Panics s w''
      | Panics s' x => Panics s' x
      | Fatal s' x => Fatal s' x
      | Blocks => Blocks
      end
  | Fatal s w' => Fatal s w'
  | Blocks => Blocks
  end.

(** [select { case c: ...; default: d }] with one communication [c]: the
    default runs exactly when the communication cannot proceed. *)
Definition select_default {A : Type} (c : M A) (d : M A) : M A := fun w =>
  match c w with
  | Blocks => d w
  | r => r
  end.

(** *** sync.Mutex and sync.WaitGroup *)

Definition Lock : M unit := fun w =>
  if mu (n w) then Blocks else Returns tt (set_n (with_mu true) w).

Definition Unlock : M unit := fun w =>
  if mu (n w) then Returns tt (set_n (with_mu false) w)
  else Panics "sync: unlock of unlocked mutex" w.

Definition wg_Add1 : M unit := modify (fun w => set_n (with_wg (S (wg (n w)))) w).

Definition wg_Done : M unit := fun w =>
  match wg (n w) with
  | O => Panics "sync: negative WaitGroup counter" w
  | S k => Returns tt (set_n (with_wg k) w)
  end.

Definition wg_Wait : M unit := fun w =>
  match wg (n w) with
  | O => Returns tt w
  | S _ => Blocks
  end.

(** *** The accumulator *)

Definition acc_call (c : SinkCall) : M unit := fun w =>
  match acc (n w) with
  | None => Panics nil_dereference w
  | Some a => Returns tt (set_sink (sink w ++ [(a, c)]) w)
  end.

Section Plugin.

Variable env : Env.

(** *** The broker client *)

(** A call on the client: recorded, and answered by the test double. *)
Definition broker_call (c : Call) : M (option error) := fun w =>
  Returns (broker_fails env (calls w) c) (set_calls (calls w ++ [c]) w).

(** [opts.Connect()]: a new open connection, or nil and the error. *)
Definition Connect (o : Options) : M (ConnId + error) :=
  e <- broker_call (CConnect o) ;;
  match e with
  | Some err => ret (inr err)
  | None =>
      c <- gets (fun w => length (conns w)) ;;
      modify (fun w => set_conns (conns w ++ [false]) w) ;;;
      ret (inl c)
  end.

Definition IsClosed (c : ConnId) : M bool :=
  gets (fun w => default true (conns w !! c)).

Definition Close (c : ConnId) : M unit :=
  broker_call (CClose c) ;;;
  modify (fun w => set_conns (<[c := true]> (conns w)) w).

Definition SetErrorHandler (c : ConnId) : M unit :=
  broker_call (CSetErrorHandler c) ;;; ret tt.

Definition QueueSubscribe (c : ConnId) (subj queue : string)
  : M (Subscription + error) :=
  sid <- gets (fun w => length (calls w)) ;;
  e <- broker_call (CQueueSubscribe c subj queue) ;;
  match e with
  | Some err => ret (inr err)
  | None => ret (inl (mkSub sid c subj queue))
  end.

Definition Flush (c : ConnId) : M (option error) := broker_call (CFlush c).

Definition SetPendingLimits (s : Subscription) (msgs bytes : Z) : M (option error) :=
  broker_call (CSetPendingLimits (sub_id s) msgs bytes).

Definition Unsubscribe (s : Subscription) : M (option error) :=
  broker_call (CUnsubscribe (sub_id s)).

(** [natsError.Error()] (lines 23-26); [None] is the nil pointer dereference
    of [e.sub.Subject] when the fault carries no subscription. *)
Definition natsError_Error (e : natsError) : option string :=
  match ne_sub e with
  | None => None
  | Some sub =>
      Some (ne_err e +:+ " url:" +:+ ConnectedUrl env (ne_conn e)
                     +:+ " id:" +:+ ConnectedServerId env (ne_conn e)
                     +:+ " sub:" +:+ sub_Subject sub
                     +:+ " queue:" +:+ sub_Queue sub)
  end.

(** *** Channel operations of the plugin *)

(** [n.errs <- f] as a communication: it proceeds when a [receiver] waits in
    its select on this channel (the value goes straight to the first such
    goroutine) or when the buffer has a free slot. *)
Fixpoint waiting_on (e : nat) (rs : list RecvPC) : option nat :=
  match rs with
  | [] => None
  | RSelect _ (Some e') _ :: rest =>
      if decide (e' = e) then Some O else S <$> waiting_on e rest
  | _ :: rest => S <$> waiting_on e rest
  end.

Definition send_errs (f : natsError) : M unit := fun w =>
  match errs (n w) with
  | None => Blocks
  | Some e =>
      match err_chans w !! e with
      | None => Blocks
      | Some c =>
          if ch_closed c then Panics "send on closed channel" w
          else match waiting_on e (receivers w) with
               | Some g => Returns tt (set_receivers (<[g := RGotErr (Some f)]> (receivers w)) w)
               | None =>
                   match chan_push f c with
                   | Some c' => Returns tt (set_err_chans (<[e := c']> (err_chans w)) w)
                   | None => Blocks
                   end
               end
      end
  end.

(** [n.in <- m]: the buffer takes the envelope when it has a free slot; a
    waiting [receiver] then dequeues it in a step of its own. *)
Definition send_in (m : Msg) : M unit := fun w =>
  match in_ (n w) with
  | None => Blocks
  | Some i =>
      match in_chans w !! i with
      | None => Blocks
      | Some c =>
          if ch_closed c then Panics "send on closed channel" w
          else match chan_push m c with
               | Some c' => Returns tt (set_in_chans (<[i := c']> (in_chans w)) w)
               | None => Blocks
               end
      end
  end.

(** *** natsErrHandler (lines 106-112) *)
Definition natsErrHandler (c : ConnId) (s : option Subscription) (e : error) : M unit :=
  select_default (send_errs (mkNatsError c s e)) (ret tt).

(** The callback given to QueueSubscribe (lines 172-174). *)
Definition on_message (m : Msg) : M unit := send_in m.

(** *** Start (lines 115-199) *)

Definition show_err (e : option error) : string :=
  match e with Some s => s | None => "<nil>" end.

(** Lines 137-157: the client certificate and the TLS configuration;
    [inl msg] is the line [log.Fatalf] prints before the process exits. *)
Definition build_tls (c : natsConsumer) : string + tlsConfig :=
  match LoadX509KeyPair env (SSLCert c) (SSLKey c) with
  | inr err => inl ("error parsing X509 certificate/key pair: " +:+ err)
  | inl cert =>
      let '(rootPEM, err) := ReadFile env (SSLCA c) in
      match err, rootPEM with
      | None, Some pem =>
          if pem_ok env pem
          then inr {| InsecureSkipVerify := negb (VerifyHost c);
                      Certificates := [cert];
                      RootCAs := [pem];
                      MinVersion := VersionTLS12 |}
          else inl "error processing CA certificate"
      | _, _ => inl ("error parsing CA certificate: " +:+ show_err err)
      end
  end.

(** Lines 124-158: the connection options. *)
Definition build_opts (c : natsConsumer) : string + Options :=
  let d := DefaultOptions env in
  let opts := mkOptions (Servers c) (Secure c) (opt_TLSConfig d) (-1) (opt_rest d) in
  if Secure c then
    match build_tls c with
    | inl msg => inl msg
    | inr cfg =>
        inr (mkOptions (opt_Servers opts) (opt_Secure opts) (Some cfg)
                       (opt_MaxReconnect opts) (opt_rest opts))
    end
  else inr opts.

Definition or_fatal {A : Type} (r : string + A) : M A :=
  match r with
  | inl msg => fatal msg
  | inr a => ret a
  end.

(** Lines 171-187: one subscription per subject; [Some err] is the early
    [return err]. *)
Fixpoint subscribe_all (c : ConnId) (subjs : list string) : M (option error) :=
  match subjs with
  | [] => ret None
  | subj :: rest =>
      q <- gets (fun w => QueueGroup (n w)) ;;
      r <- QueueSubscribe c subj q ;;
      match r with
      | inr err => ret (Some err)
      | inl sub =>
          e <- Flush c ;;
          match e with
          | Some err => ret (Some err)
          | None =>
              lim <- gets (fun w => (PendingMessageLimit (n w), PendingBytesLimit (n w))) ;;
              e <- SetPendingLimits sub (fst lim) (snd lim) ;;
              match e with
              | Some err => ret (Some err)
              | None =>
                  modify (fun w => set_n (with_Subs (Subs (n w) ++ [sub])) w) ;;;
                  subscribe_all c rest
              end
          end
      end
  end.

(** Line 160: [n.Conn == nil || n.Conn.IsClosed()]. *)
Definition conn_nil_or_closed : M bool :=
  c <- gets (fun w => Conn (n w)) ;;
  match c with
  | None => ret true
  | Some c => IsClosed c
  end.

(** Lines 161-187: dial, make the fault and message channels, subscribe. *)
Definition connect_and_subscribe (opts : Options) : M (option error) :=
  r <- Connect opts ;;
  match r with
  | inr connectErr =>
      modify (set_n (with_Conn None)) ;;;
      ret (Some connectErr)
  | inl c =>
      modify (set_n (with_Conn (Some c))) ;;;
      e <- gets (fun w => length (err_chans w)) ;;
      modify (fun w => set_err_chans (err_chans w ++ [make_chan 0]) w) ;;;
      modify (set_n (with_errs (Some e))) ;;;
      SetErrorHandler c ;;;
      i <- gets (fun w => length (in_chans w)) ;;
      modify (fun w => set_in_chans (in_chans w ++ [make_chan 1000]) w) ;;;
      modify (set_n (with_in (Some i))) ;;;
      subjs <- gets (fun w => Subjects (n w)) ;;
      subscribe_all c subjs
  end.

(** Lines 190-194: the shutdown channel and the [receiver] goroutine. *)
Definition launch : M unit :=
  d <- gets (fun w => length (done_chans w)) ;;
  modify (fun w => set_done_chans (done_chans w ++ [make_chan 0]) w) ;;;
  modify (set_n (with_done (Some d))) ;;;
  wg_Add1 ;;;
  modify (fun w => set_receivers (receivers w ++ [RTop]) w).

Definition Start (a : AccId) : M (option error) :=
  Lock ;;;
  deferred Unlock (
    modify (set_n (with_acc (Some a))) ;;;
    c <- gets n ;;
    opts <- or_fatal (build_opts c) ;;
    dial <- conn_nil_or_closed ;;
    r <- (if dial : bool then connect_and_subscribe opts else ret None) ;;
    match r with
    | Some err => ret (Some err)
    | None => launch ;;; ret None
    end).

(** *** receiver (lines 203-222)

    One iteration of the loop is cut where other goroutines can interleave:
    entering the select (the channel fields are read once, then the
    goroutine waits on those channels), taking one ready case, and running
    the body of the case taken. When several cases are ready the run time
    picks any of them, so the case is chosen by the scheduler. A goroutine
    in its select stands for one that is parked as well as for one that has
    a ready case and has not run yet; the schedules of the model therefore
    include every interleaving of the run time. *)

Definition pc_of (g : nat) : M RecvPC := fun w =>
  match receivers w !! g with
  | Some pc => Returns pc w
  | None => Blocks
  end.

Definition set_pc (g : nat) (pc : RecvPC) : M unit :=
  modify (fun w => set_receivers (<[g := pc]> (receivers w)) w).

Definition receiver_enter (g : nat) : M unit :=
  pc <- pc_of g ;;
  match pc with
  | RTop =>
      c <- gets n ;;
      set_pc g (RSelect (done_ c) (errs c) (in_ c))
  | _ => block
  end.

(** [case <-n.done: return], then the deferred [n.wg.Done()]. *)
Definition receiver_case_done (g : nat) : M unit :=
  pc <- pc_of g ;;
  match pc with
  | RSelect (Some d) _ _ =>
      h <- gets done_chans ;;
      match h !! d with
      | Some c =>
          match chan_recv c with
          | Some (_, c') =>
              modify (set_done_chans (<[d := c']> h)) ;;;
              set_pc g RExited ;;;
              wg_Done
          | None => block
          end
      | None => block
      end
  | _ => block
  end.

(** [case err := <-n.errs] from the buffer; a value handed over by a sender
    is placed by [send_errs]. *)
Definition receiver_case_errs (g : nat) : M unit :=
  pc <- pc_of g ;;
  match pc with
  | RSelect _ (Some e) _ =>
      h <- gets err_chans ;;
      match h !! e with
      | Some c =>
          match chan_recv c with
          | Some (v, c') =>
              modify (set_err_chans (<[e := c']> h)) ;;;
              set_pc g (RGotErr v)
          | None => block
          end
      | None => block
      end
  | _ => block
  end.

(** [case msg := <-n.in] *)
Definition receiver_case_in (g : nat) : M unit :=
  pc <- pc_of g ;;
  match pc with
  | RSelect _ _ (Some i) =>
      h <- gets in_chans ;;
      match h !! i with
      | Some c =>
          match chan_recv c with
          | Some (v, c') =>
              modify (set_in_chans (<[i := c']> h)) ;;;
              set_pc g (RGotMsg v)
          | None => block
          end
      | None => block
      end
  | _ => block
  end.

(** Line 210: the argument [err.Error()] is evaluated before the call of
    AddError. *)
Definition receiver_err_body (v : option natsError) : M unit :=
  match v with
  | None => panic nil_dereference
  | Some err =>
      match natsError_Error err with
      | None => panic nil_dereference
      | Some text => acc_call (AddError ("E! error reading from " +:+ text +:+ newline))
      end
  end.

(** Lines 217-219. *)
Fixpoint add_metrics (ms : list Metric) : M unit :=
  match ms with
  | [] => ret tt
  | metric :: rest =>
      acc_call (AddFields (Name metric) (Fields metric) (Tags metric) (Time metric)) ;;;
      add_metrics rest
  end.

(** Lines 212-219. *)
Definition receiver_msg_body (v : option Msg) : M unit :=
  match v with
  | None => panic nil_dereference
  | Some msg =>
      let '(metrics, err) := Parse env (msg_Data msg) in
      match err with
      | Some e =>
          acc_call (AddError ("E! subject: " +:+ msg_Subject msg +:+ ", error: " +:+ e))
      | None => ret tt
      end ;;;
      add_metrics metrics
  end.

Definition receiver_body (g : nat) : M unit :=
  pc <- pc_of g ;;
  match pc with
  | RGotErr v => receiver_err_body v ;;; set_pc g RTop
  | RGotMsg v => receiver_msg_body v ;;; set_pc g RTop
  | _ => block
  end.

(** *** clean (lines 224-235) *)

Fixpoint unsubscribe_all (subs : list Subscription) : M unit :=
  match subs with
  | [] => ret tt
  | sub :: rest =>
      e <- Unsubscribe sub ;;
      match e with
      | Some err =>
          acc_call (AddError ("E! Error unsubscribing from subject " +:+ sub_Subject sub
                              +:+ " in queue " +:+ sub_Queue sub +:+ ": " +:+ err +:+ newline))
      | None => ret tt
      end ;;;
      unsubscribe_all rest
  end.

Definition clean : M unit :=
  subs <- gets (fun w => Subs (n w)) ;;
  unsubscribe_all subs ;;;
  c <- gets (fun w => Conn (n w)) ;;
  match c with
  | None => ret tt
  | Some c =>
      closed <- IsClosed c ;;
      if closed : bool then ret tt else Close c
  end.

(** *** Stop (lines 237-243)

    [Stop] can wait at [n.wg.Wait()] while other goroutines run, so it is cut
    there: [Stop_close] is lines 238-239, [Stop_join] lines 240-242, run by
    the caller that holds the lock. *)

(** The channel a field refers to. *)
Definition deref {A : Type} (h : list (Chan A)) (r : option nat) : option (Chan A) :=
  match r with
  | Some i => h !! i
  | None => None
  end.

Definition close_done : M unit := fun w =>
  match chan_close (deref (done_chans w) (done_ (n w))) with
  | inl msg => Panics msg w
  | inr c' =>
      match done_ (n w) with
      | Some d => Returns tt (set_done_chans (<[d := c']> (done_chans w)) w)
      | None => Returns tt w
      end
  end.

Definition Stop_close : M unit :=
  Lock ;;;
  close_done.

Definition Stop_join : M unit :=
  held <- gets (fun w => mu (n w)) ;;
  if held : bool then
    wg_Wait ;;;
    clean ;;;
    Unlock
  else block.

(** ** Schedules

    The goroutines of the process interleave at the actions below. A call of
    [Start] is one action: between its Lock and its Unlock it only calls the
    broker client and assigns fields of the instance, and it holds the lock
    that [Stop] needs. The callbacks may fire at any time and with any
    argument; only the plugin's code constrains what they do. *)

(** What the scheduler can run next; [g] is the index of a receiver
    goroutine. *)
Inductive Action :=
| AStart (a : AccId)                                      (* a call of Start *)
| AStopClose                                              (* Stop up to close(n.done) *)
| AStopJoin                                               (* Stop from n.wg.Wait() on *)
| ADeliver (m : Msg)                                      (* the subscription callback *)
| AFault (c : ConnId) (s : option Subscription) (e : error) (* the error callback *)
| AEnter (g : nat)                                        (* receiver g enters its select *)
| ACaseDone (g : nat)                                     (* receiver g takes <-n.done *)
| ACaseErrs (g : nat)                                     (* receiver g takes <-n.errs *)
| ACaseIn (g : nat)                                       (* receiver g takes <-n.in *)
| ABody (g : nat).                                        (* receiver g runs the case body *)

(** The code an action runs. *)
Definition act (a : Action) : M unit :=
  match a with
  | AStart a => Start a ;;; ret tt
  | AStopClose => Stop_close
  | AStopJoin => Stop_join
  | ADeliver m => on_message m
  | AFault c s e => natsErrHandler c s e
  | AEnter g => receiver_enter g
  | ACaseDone g => receiver_case_done g
  | ACaseErrs g => receiver_case_errs g
  | ACaseIn g => receiver_case_in g
  | ABody g => receiver_body g
  end.

(** One action of a live process; a panic or a fatal log ends the process. *)
Definition step (a : Action) (w : World) : option World :=
  match crashed w with
  | Some _ => None
  | None =>
      match act a w with
      | Returns _ w' => Some w'
      | Panics s w' => Some (set_crashed (Some s) w')
      | Fatal s w' => Some (set_crashed (Some s) w')
      | Blocks => None
      end
  end.

(** A schedule runs when each of its actions can proceed in turn. *)
Fixpoint run (sched : list Action) (w : World) : option World :=
  match sched with
  | [] => Some w
  | a :: rest =>
      match step a w with
      | Some w' => run rest w'
      | None => None
      end
  end.

(** The worlds of a process, whatever its configuration. *)
Definition reachable (w : World) : Prop :=
  exists c sched, run sched (boot c) = Some w.

End Plugin.

Arguments reachable env w : clear implicits.

(** ** Test doubles *)

Module Double.

(** One record per payload, named after the payload's length. *)
Definition metric_of (data : list Byte.byte) : Metric :=
  mkMetric "cpu" [("bytes", FInt (Z.of_nat (length data)))] [("host", "a")] 0.

Definition default_options : Options :=
  mkOptions ["nats://localhost:4222"] false None 60 "nats.DefaultOptions".

(** The file system: a file with an empty name cannot be opened, any other
    file is there and well formed. *)
Definition no_such_file : error := "open : no such file or directory".

Definition load_pair (cert key : string) : Certificate + error :=
  match cert, key with
  | EmptyString, _ => inr no_such_file
  | _, EmptyString => inr no_such_file
  | _, _ => inl ("key pair of " +:+ cert)
  end.

Definition read_file (path : string) : option (list Byte.byte) * option error :=
  match path with
  | EmptyString => (None, Some no_such_file)
  | _ => (Some [Byte.x2d], None)
  end.

(** An environment with the broker [broker] and the decoder [parse]. *)
Definition env_of (broker : list Call -> Call -> option error)
           (parse : list Byte.byte -> list Metric * option error) : Env :=
  {| LoadX509KeyPair := load_pair;
     ReadFile := read_file;
     pem_ok := fun _ => true;
     DefaultOptions := default_options;
     broker_fails := broker;
     ConnectedUrl := fun _ => "nats://localhost:4222";
     ConnectedServerId := fun _ => "srv";
     Parse := parse |}.

(** Every broker call succeeds, every payload decodes. *)
Definition ok_env : Env := env_of (fun _ _ => None) (fun d => ([metric_of d], None)).

(** A line decoder in the style of the influx parser: the lines that parse
    are returned together with the error of the lines that do not. Here an
    empty payload is clean and any other payload has one good and one bad
    line. *)
Definition partial_parse (d : list Byte.byte) : list Metric * option error :=
  match d with
  | [] => ([], None)
  | _ => ([metric_of d], Some "invalid line")
  end.

Definition partial_env : Env := env_of (fun _ _ => None) partial_parse.

(** The broker refuses every Flush. *)
Definition flush_fails (h : list Call) (c : Call) : option error :=
  match c with
  | CFlush _ => Some "nats: timeout"
  | _ => None
  end.

Definition flaky_env : Env := env_of flush_fails (fun d => ([metric_of d], None)).

Definition is_flush (c : Call) : bool :=
  match c with
  | CFlush _ => true
  | _ => false
  end.

(** The broker answers the first Flush and refuses the later ones. *)
Definition later_flush_fails (h : list Call) (c : Call) : option error :=
  match c with
  | CFlush _ => if existsb is_flush h then Some "nats: timeout" else None
  | _ => None
  end.

Definition late_env : Env := env_of later_flush_fails (fun d => ([metric_of d], None)).

(** No server accepts the connection. *)
Definition no_server (h : list Call) (c : Call) : option error :=
  match c with
  | CConnect _ => Some "nats: no servers available for connection"
  | _ => None
  end.

Definition down_env : Env := env_of no_server (fun d => ([metric_of d], None)).

(** The broker refuses every Unsubscribe. *)
Definition unsubscribe_fails (h : list Call) (c : Call) : option error :=
  match c with
  | CUnsubscribe _ => Some "nats: invalid subscription"
  | _ => None
  end.

Definition sticky_env : Env := env_of unsubscribe_fails (fun d => ([metric_of d], None)).

(** The registered instance with the keys a configuration file sets. *)
Definition configure (secure : bool) (ca cert key : string) (subjects : list string)
  : natsConsumer :=
  {| QueueGroup := QueueGroup init;
     Subjects := subjects;
     Servers := Servers init;
     Secure := secure;
     SSLCA := ca; SSLCert := cert; SSLKey := key;
     VerifyHost := VerifyHost init;
     PendingMessageLimit := PendingMessageLimit init;
     PendingBytesLimit := PendingBytesLimit init;
     MetricBuffer := MetricBuffer init;
     mu := mu init; wg := wg init;
     Conn := Conn init; Subs := Subs init;
     in_ := in_ init; errs := errs init; done_ := done_ init;
     acc := acc init |}.

(** [secure = false], nothing else set. *)
Definition plain : natsConsumer := configure false "" "" "" ["telegraf"].

(** The three TLS files named, verify_host not set. *)
Definition tls : natsConsumer :=
  configure true "/etc/telegraf/ca.pem" "/etc/telegraf/cert.pem" "/etc/telegraf/key.pem"
            ["telegraf"].

(** [secure = false] and two subjects. *)
Definition two_subjects : natsConsumer := configure false "" "" "" ["telegraf"; "metrics"].

Definition m1 : Msg := mkMsg "telegraf" [Byte.x61].
Definition m2 : Msg := mkMsg "telegraf" [Byte.x61; Byte.x62].
Definition sub0 : Subscription := mkSub 2 0 "telegraf" "telegraf_consumers".
Definition slow_consumer : error := "nats: slow consumer, messages dropped".

End Double.

(** ** Vocabulary of the specifications *)

Local Open Scope list_scope.

Section Vocabulary.

Variable env : Env.

(** The three calls made for each subject of [subjs] when none of them fails;
    [base] is the number of broker calls made before the first of them. *)
Fixpoint full_calls (c : ConnId) (q : string) (pm pb : Z) (base : nat)
         (subjs : list string) : list Call :=
  match subjs with
  | [] => []
  | s :: rest =>
      CQueueSubscribe c s q :: CFlush c :: CSetPendingLimits base pm pb
        :: full_calls c q pm pb (base + 3) rest
  end.

(** The subscriptions these calls create. *)
Fixpoint subs_of (c : ConnId) (q : string) (base : nat) (subjs : list string)
  : list Subscription :=
  match subjs with
  | [] => []
  | s :: rest => mkSub base c s q :: subs_of c q (base + 3) rest
  end.

(** The calls made for subject [s] up to and including the one that fails. *)
Definition aborted_at (c : ConnId) (q : string) (pm pb : Z) (base : nat)
           (s : string) (tail : list Call) : Prop :=
  tail = [CQueueSubscribe c s q] \/
  tail = [CQueueSubscribe c s q; CFlush c] \/
  tail = [CQueueSubscribe c s q; CFlush c; CSetPendingLimits base pm pb].

(** The broker's answers to the calls [cs] made after the calls [h]. *)
Fixpoint answers (h : list Call) (cs : list Call) : list (option error) :=
  match cs with
  | [] => []
  | c :: rest => broker_fails env h c :: answers (h ++ [c]) rest
  end.

(** The world after the subscription loop went through the first [k] of
    [subjs] and then made the calls [tail]. *)
Definition subscribed (c : ConnId) (subjs : list string) (k : nat)
           (tail : list Call) (w : World) : World :=
  let q := QueueGroup (n w) in
  let base := length (calls w) in
  set_n (with_Subs (Subs (n w) ++ subs_of c q base (take k subjs)))
    (set_calls (calls w ++ full_calls c q (PendingMessageLimit (n w))
                            (PendingBytesLimit (n w)) base (take k subjs) ++ tail) w).

(** How the loop ended: with no error after all subjects, or with the first
    error, which is the answer to the call that ends [tail]. *)
Definition loop_end (c : ConnId) (q : string) (pm pb : Z) (hist : list Call)
           (subjs : list string) (r : option error) (k : nat)
           (tail : list Call) : Prop :=
  let full := full_calls c q pm pb (length hist) (take k subjs) in
  match r with
  | None =>
      k = length subjs /\ tail = [] /\
      answers hist full = replicate (3 * k) None
  | Some err =>
      (exists s, subjs !! k = Some s /\
                 aborted_at c q pm pb (length hist + 3 * k) s tail) /\
      answers hist (full ++ tail)%list
        = (replicate (3 * k + length tail - 1) None ++ [Some err])%list
  end.

(** Line 160 as a function of the world. *)
Definition needs_dial (w : World) : bool :=
  match Conn (n w) with
  | None => true
  | Some c => default true (conns w !! c)
  end.

(** The world after a successful dial with [opts], at the head of the
    subscription loop (lines 161-170). *)
Definition dialled (opts : Options) (w : World) : World :=
  let c := length (conns w) in
  set_n (with_in (Some (length (in_chans w))))
    (set_in_chans (in_chans w ++ [make_chan 1000])
      (set_calls (calls w ++ [CConnect opts; CSetErrorHandler c])
        (set_n (with_errs (Some (length (err_chans w))))
          (set_err_chans (err_chans w ++ [make_chan 0])
            (set_n (with_Conn (Some c))
              (set_conns (conns w ++ [false]) w)))))).

(** The world after lines 190-194. *)
Definition launched (w : World) : World :=
  set_receivers (receivers w ++ [RTop])
    (set_n (with_wg (S (wg (n w))))
      (set_n (with_done (Some (length (done_chans w))))
        (set_done_chans (done_chans w ++ [make_chan 0]) w))).

(** The world [Start] leaves after the loop ended with [r]: a receiver is
    launched only when no call failed. *)
Definition after_loop (r : option error) (w : World) : World :=
  match r with
  | None => launched w
  | Some _ => w
  end.

(** The AddFields call line 218 makes for [m] on accumulator [a]. *)
Definition record_call (a : AccId) (m : Metric) : AccId * SinkCall :=
  (a, AddFields (Name m) (Fields m) (Tags m) (Time m)).

(** No receiver waits in its select on the fault channel [e]. *)
Definition nobody_waits (e : nat) (w : World) : Prop :=
  forall g d i, receivers w !! g <> Some (RSelect d (Some e) i).

(** What one run of the callback does to the world: the fault goes to a
    receiver that waits on the fault channel; or, when none waits, into a
    free slot of the channel's buffer; or, when none waits and no slot is
    free (or n.errs is nil), nowhere. *)
Inductive handled (f : natsError) (w : World) : World -> Prop :=
| handled_handed (e g : nat) (d i : option nat) :
    errs (n w) = Some e ->
    receivers w !! g = Some (RSelect d (Some e) i) ->
    handled f w (set_receivers (<[g := RGotErr (Some f)]> (receivers w)) w)
| handled_buffered (e : nat) (c : Chan natsError) :
    errs (n w) = Some e ->
    err_chans w !! e = Some c ->
    nobody_waits e w ->
    length (ch_buf c) < ch_cap c ->
    handled f w (set_err_chans
                   (<[e := mkChan (ch_cap c) (ch_buf c ++ [f]) (ch_closed c)]> (err_chans w)) w)
| handled_dropped :
    match errs (n w) with
    | None => True
    | Some e =>
        nobody_waits e w /\
        forall c, err_chans w !! e = Some c -> ch_cap c <= length (ch_buf c)
    end ->
    handled f w w.

(** The channel n.errs refers to, if any, is there and is not closed. *)
Definition errs_open (w : World) : Prop :=
  forall e, errs (n w) = Some e ->
            exists c, err_chans w !! e = Some c /\ ch_closed c = false.

(** The sink call is an AddError. *)
Definition is_error_call (c : AccId * SinkCall) : Prop :=
  match snd c with
  | AddError _ => True
  | AddFields _ _ _ _ => False
  end.

(** The worlds a call of [Start] can leave when it is scheduled. *)
Inductive start_result (a : AccId) (w : World) : World -> Prop :=
| sr_fatal (msg : string) :
    build_opts env (n w) = inl msg ->
    Start env a w = Fatal msg (set_n (with_mu true) (set_n (with_acc (Some a)) w)) ->
    start_result a w
      (set_crashed (Some msg) (set_n (with_mu true) (set_n (with_acc (Some a)) w)))
| sr_reuse (opts : Options) :
    build_opts env (n w) = inr opts ->
    needs_dial w = false ->
    Start env a w = Returns None (launched (set_n (with_acc (Some a)) w)) ->
    start_result a w (launched (set_n (with_acc (Some a)) w))
| sr_refused (opts : Options) (err : error) :
    build_opts env (n w) = inr opts ->
    needs_dial w = true ->
    broker_fails env (calls w) (CConnect opts) = Some err ->
    Start env a w
      = Returns (Some err) (set_calls (calls w ++ [CConnect opts])
                              (set_n (with_Conn None) (set_n (with_acc (Some a)) w))) ->
    start_result a w
      (set_calls (calls w ++ [CConnect opts])
         (set_n (with_Conn None) (set_n (with_acc (Some a)) w)))
| sr_dialled (opts : Options) (r : option error) (k : nat) (tail : list Call) :
    build_opts env (n w) = inr opts ->
    needs_dial w = true ->
    broker_fails env (calls w) (CConnect opts) = None ->
    loop_end (length (conns w)) (QueueGroup (n w)) (PendingMessageLimit (n w))
             (PendingBytesLimit (n w))
             (calls w ++ [CConnect opts; CSetErrorHandler (length (conns w))])
             (Subjects (n w)) r k tail ->
    Start env a w
      = Returns r (after_loop r (subscribed (length (conns w)) (Subjects (n w)) k tail
                                   (dialled opts (set_n (with_acc (Some a)) w)))) ->
    start_result a w
      (after_loop r (subscribed (length (conns w)) (Subjects (n w)) k tail
                       (dialled opts (set_n (with_acc (Some a)) w)))).

(** A fault channel as [make(chan error)] leaves it. *)
Definition pristine (ch : Chan natsError) : Prop :=
  ch_cap ch = 0 /\ ch_buf ch = [] /\ ch_closed ch = false.

(** What every reachable world satisfies. *)
Record wf (w : World) : Prop := mk_wf {
  (* nothing is ever buffered in, or closes, a fault channel *)
  wf_errs : Forall pristine (err_chans w);
  (* no message channel is ever closed *)
  wf_in : Forall (fun ch => ch_closed ch = false) (in_chans w);
  (* the only connection that can be open is the one in n.Conn *)
  wf_conn : forall c, conns w !! c = Some false -> Conn (n w) = Some c;
  (* a receiver runs only after Start has recorded the accumulator *)
  wf_acc : receivers w <> [] -> is_Some (acc (n w));
  (* n.done is set only by a Start that launches a receiver *)
  wf_done : is_Some (done_ (n w)) -> receivers w <> [];
  (* in a live process the lock is held only by a Stop past close(n.done) *)
  wf_lock : crashed w = None -> mu (n w) = true -> receivers w <> []
}.

(** The world [clean] and the final Unlock leave; [es] are the errors the
    failed Unsubscribe calls added to the sink. *)
Definition joined (es : list (AccId * SinkCall)) (w : World) : World :=
  let w1 := set_sink (sink w ++ es)
              (set_calls (calls w ++ map (fun s => CUnsubscribe (sub_id s)) (Subs (n w))) w) in
  let w2 := match Conn (n w) with
            | Some c =>
                if default true (conns w !! c) then w1
                else set_conns (<[c := true]> (conns w1)) (set_calls (calls w1 ++ [CClose c]) w1)
            | None => w1
            end in
  set_n (with_mu false) w2.

(** The sink calls the body of a case makes. *)
Definition body_calls (a : AccId) (pc : RecvPC) : list (AccId * SinkCall) :=
  match pc with
  | RGotErr (Some f) =>
      match natsError_Error env f with
      | Some text => [(a, AddError ("E! error reading from " +:+ text +:+ newline))]
      | None => []
      end
  | RGotMsg (Some m) =>
      match snd (Parse env (msg_Data m)) with
      | Some e => [(a, AddError ("E! subject: " +:+ msg_Subject m +:+ ", error: " +:+ e))]
      | None => []
      end ++ map (record_call a) (fst (Parse env (msg_Data m)))
  | _ => []
  end.

(** The scheduled action is a call of [Start] that returns nil. *)
Definition start_succeeds (a : Action) (w : World) : bool :=
  match a with
  | AStart x =>
      match Start env x w with
      | Returns None _ => true
      | _ => false
      end
  | _ => false
  end.

(** Some call of [Start] in the schedule returns nil. *)
Fixpoint some_start_succeeded (sched : list Action) (w : World) : bool :=
  match sched with
  | [] => false
  | a :: rest =>
      start_succeeds a w ||
      match step env a w with
      | Some w' => some_start_succeeded rest w'
      | None => false
      end
  end.

(** n.done refers to a closed channel. *)
Definition shutdown_closed (w : World) : Prop :=
  exists c, deref (done_chans w) (done_ (n w)) = Some c /\ ch_closed c = true.

(** n.done refers to an open channel and the lock is free: no [Stop] has
    got to close(n.done) since the last [Start] that returned nil. *)
Definition armed (w : World) : Prop :=
  mu (n w) = false /\
  exists c, deref (done_chans w) (done_ (n w)) = Some c /\ ch_closed c = false.

(** n.Conn is an open connection. *)
Definition conn_open (w : World) : Prop :=
  exists c, Conn (n w) = Some c /\ conns w !! c = Some false.

(** The receiver has returned. *)
Definition exited (pc : RecvPC) : bool :=
  match pc with
  | RExited => true
  | _ => false
  end.

(** Every receiver but the one launched last has returned. *)
Definition older_exited (rs : list RecvPC) : Prop :=
  forall g pc, rs !! g = Some pc -> S g < length rs -> exited pc = true.

(** Whenever a call of [Start] in the schedule returns nil, the WaitGroup
    is at zero when it is made: no two receivers ever run at once. *)
Fixpoint serial (sched : list Action) (w : World) : bool :=
  match sched with
  | [] => true
  | a :: rest =>
      (negb (start_succeeds a w) || Nat.eqb (wg (n w)) 0) &&
      match step env a w with
      | Some w' => serial rest w'
      | None => true
      end
  end.

(** The AddFields calls of a sink, oldest first. *)
Fixpoint records (sk : list (AccId * SinkCall)) : list SinkCall :=
  match sk with
  | [] => []
  | (_, AddFields nm fs ts t) :: rest => AddFields nm fs ts t :: records rest
  | (_, AddError _) :: rest => records rest
  end.

(** The envelopes a schedule delivers, in the order of delivery. *)
Fixpoint deliveries (sched : list Action) : list Msg :=
  match sched with
  | [] => []
  | ADeliver m :: rest => m :: deliveries rest
  | _ :: rest => deliveries rest
  end.

(** The envelope the receiver launched last has dequeued and not yet gone
    through. *)
Definition inflight (w : World) : list Msg :=
  match last (receivers w) with
  | Some (RGotMsg (Some m)) => [m]
  | _ => []
  end.

(** The envelopes buffered in the channel n.in refers to. *)
Definition in_buf (w : World) : list Msg :=
  match deref (in_chans w) (in_ (n w)) with
  | Some c => ch_buf c
  | None => []
  end.

(** The AddFields calls the loop makes for one envelope. *)
Definition forwarded (m : Msg) : list SinkCall :=
  map (fun x => AddFields (Name x) (Fields x) (Tags x) (Time x))
      (fst (Parse env (msg_Data m))).

(** The envelopes gone through, then the one in flight, then those queued
    in the channel n.in refers to, are in this order among the envelopes
    delivered so far, and they are all of them while a single message
    channel has been made; the records forwarded are those of the envelopes
    gone through, envelope by envelope. *)
Definition fifo (ms : list Msg) (w : World) : Prop :=
  exists processed,
    sublist (processed ++ inflight w ++ in_buf w) ms /\
    records (sink w) = flat_map forwarded processed /\
    (length (in_chans w) <= 1 -> ms = processed ++ inflight w ++ in_buf w).

(** The envelope an action delivers, if it is a delivery. *)
Definition delivered (a : Action) : list Msg :=
  match a with
  | ADeliver m => [m]
  | _ => []
  end.

(** The actions of a receiver goroutine. *)
Definition is_loop_action (a : Action) : bool :=
  match a with
  | AEnter _ | ACaseDone _ | ACaseErrs _ | ACaseIn _ | ABody _ => true
  | _ => false
  end.

(** The sum of [f] over [l]. *)
Fixpoint total {A : Type} (f : A -> nat) (l : list A) : nat :=
  match l with
  | [] => 0
  | x :: rest => f x + total f rest
  end.

(** Elements buffered in the channels of a heap. *)
Definition buffered {A : Type} (h : list (Chan A)) : nat :=
  total (fun c => length (ch_buf c)) h.

(** Steps a receiver can still take from where it stands without receiving
    anything; a body run on a nil value ends the process. *)
Definition weight (pc : RecvPC) : nat :=
  match pc with
  | RTop => 2
  | RSelect _ _ _ => 1
  | RGotErr (Some _) | RGotMsg (Some _) => 3
  | RGotErr None | RGotMsg None => 0
  | RExited => 0
  end.

(** A bound on the steps the receivers can take when nothing is sent. *)
Definition fuel (w : World) : nat :=
  3 * (buffered (in_chans w) + buffered (err_chans w) + buffered (done_chans w))
  + total weight (receivers w).

End Vocabulary.

(** ** What the counters and the queues hold *)

(** A receiver that has not returned counts for one in the WaitGroup. *)
Definition live (pc : RecvPC) : nat := if exited pc then 0 else 1.

(** The case taken holds a value and not a nil pointer. *)
Definition holds_value (pc : RecvPC) : Prop :=
  pc <> RGotErr None /\ pc <> RGotMsg None.

(** A message channel as [make(chan *nats.Msg, 1000)] made it, not over-full. *)
Definition bounded (ch : Chan Msg) : Prop :=
  ch_cap ch = 1000 /\ length (ch_buf ch) <= 1000.

(** A shutdown channel holds nothing: it is only ever closed. *)
Definition signal_only (ch : Chan unit) : Prop :=
  ch_cap ch = 0 /\ ch_buf ch = [].

(** What every reachable world satisfies besides [wf]. *)
Record sound (w : World) : Prop := mk_sound {
  (* the WaitGroup counts the receivers that have not returned *)
  snd_wg : wg (n w) = total live (receivers w);
  (* a receiver never holds a nil fault or a nil envelope *)
  snd_recv : Forall holds_value (receivers w);
  (* every message channel has capacity 1000 and respects it *)
  snd_in : Forall bounded (in_chans w);
  (* n.in is nil or one of the channels made *)
  snd_in_ref : forall i, in_ (n w) = Some i -> i < length (in_chans w);
  (* nothing is ever sent on a shutdown channel *)
  snd_done : Forall signal_only (done_chans w);
  (* n.done is nil or the shutdown channel made last *)
  snd_done_ref : forall d, done_ (n w) = Some d -> S d = length (done_chans w);
  (* n.errs is nil or one of the channels made *)
  snd_errs_ref : forall e, errs (n w) = Some e -> e < length (err_chans w)
}.

(** What every reachable world satisfies about the receiver launched last:
    while any receiver runs the connection is open, and when the last one
    waits in its select it waits on the channels the fields refer to. *)
Record current (w : World) : Prop := mk_current {
  cur_open : wg (n w) <> 0 -> conn_open w;
  cur_last : forall d e i,
      last (receivers w) = Some (RSelect d e i) ->
      d = done_ (n w) /\ e = errs (n w) /\ i = in_ (n w)
}.

(** The action can end the process. *)
Definition may_crash (a : Action) : bool :=
  match a with
  | AStart _ | AStopClose => true
  | _ => false
  end.

(** No shutdown channel is closed and no receiver has returned. *)
Definition unsignalled (w : World) : Prop :=
  Forall (fun ch => ch_closed ch = false) (done_chans w) /\
  Forall (fun pc => exited pc = false) (receivers w).

(** The calls [clean] makes on the subscriptions of the instance. *)
Definition unsubscribes (w : World) : list Call :=
  map (fun s => CUnsubscribe (sub_id s)) (Subs (n w)).

(** The call [clean] makes on the connection: Close, when it is open. *)
Definition closes (w : World) : list Call :=
  match Conn (n w) with
  | Some c => if default true (conns w !! c) then [] else [CClose c]
  | None => []
  end.

(** What a run can only extend: the broker calls, the sink, n.Subs and the
    set of closed connections. *)
Definition grows (w w' : World) : Prop :=
  calls w `prefix_of` calls w' /\
  sink w `prefix_of` sink w' /\
  Subs (n w) `prefix_of` Subs (n w') /\
  (forall c, conns w !! c = Some true -> conns w' !! c = Some true).

(** In a live process the lock is held only by a [Stop] that has closed
    n.done and has not returned. *)
Definition lock_by_stop (w : World) : Prop :=
  crashed w = None -> mu (n w) = true -> shutdown_closed w.

(** Every subscription in n.Subs was made on a connection that was dialled. *)
Definition subs_known (w : World) : Prop :=
  Forall (fun s => sub_conn s < length (conns w)) (Subs (n w)).

(** ** Worlds used as examples

    Every example starts from a configured instance and runs against a file
    system in which a file with an empty name does not exist. *)

Module StartedExample.
Import Double.

(** The instance configured with [secure = false] after one successful
    [Start]. *)
Definition started : World :=
  Eval vm_compute in
    match Start ok_env 7 (boot plain) with
    | Returns _ w => w
    | _ => boot plain
    end.

(** The options of the dial in [started]. *)
Definition dial_opts : Options :=
  Eval vm_compute in
    match build_opts ok_env plain with
    | inr o => o
    | inl _ => default_options
    end.

End StartedExample.

Module TlsExample.
Import Double.

(** The instance configured with the three TLS files after one successful
    [Start]. *)
Definition started : World :=
  Eval vm_compute in
    match Start ok_env 7 (boot tls) with
    | Returns _ w => w
    | _ => boot tls
    end.

(** The options of the dial in [started]. *)
Definition dial_opts : Options :=
  Eval vm_compute in
    match build_opts ok_env tls with
    | inr o => o
    | inl _ => default_options
    end.

End TlsExample.

Module DecodeExample.
Import Double.

(** The loop has just dequeued [m1]; the decoder is [partial_parse]. *)
Definition dequeued : World :=
  Eval vm_compute in
    match run partial_env [AStart 7; AEnter 0; ADeliver m1; ACaseIn 0] (boot plain) with
    | Some w => w
    | None => boot plain
    end.

End DecodeExample.

Module RefusedExample.
Import Double.

(** The instance after a [Start] that failed at the first Flush. *)
Definition refused : World :=
  Eval vm_compute in
    match run flaky_env [AStart 7] (boot plain) with
    | Some w => w
    | None => boot plain
    end.

(** Two subjects; [Start] failed at the Flush for the second one. *)
Definition half_subscribed : World :=
  Eval vm_compute in
    match run late_env [AStart 7] (boot two_subjects) with
    | Some w => w
    | None => boot two_subjects
    end.

(** The options of the dial in [half_subscribed]. *)
Definition dial_opts : Options :=
  Eval vm_compute in
    match build_opts late_env two_subjects with
    | inr o => o
    | inl _ => default_options
    end.

End RefusedExample.

Module OrderExample.
Import Double.

Definition two_envelopes : list Action :=
  [AStart 7; AEnter 0; ADeliver m1; ADeliver m2; ACaseIn 0; ABody 0].

Definition after_two : World :=
  Eval vm_compute in
    match run ok_env two_envelopes (boot plain) with
    | Some w => w
    | None => boot plain
    end.

(** The loop forwards [m1]; [Stop] ends it with [m2] still queued; the
    instance is started again and the new loop dequeues [m1], delivered a
    second time. *)
Definition across_restart : list Action :=
  [AStart 7; AEnter 0; ADeliver m1; ADeliver m2; ACaseIn 0; ABody 0;
   AEnter 0; AStopClose; ACaseDone 0; AStopJoin;
   AStart 8; ADeliver m1; AEnter 1; ACaseIn 1].

Definition restarted : World :=
  Eval vm_compute in
    match run ok_env across_restart (boot plain) with
    | Some w => w
    | None => boot plain
    end.

(** Two calls of [Start] return nil and launch two loops; the second loop
    dequeues and forwards [m2] after the first has dequeued [m1] and before
    it forwards it. *)
Definition two_loops : list Action :=
  [AStart 7; AStart 8; AEnter 0; AEnter 1; ADeliver m1; ADeliver m2;
   ACaseIn 0; ACaseIn 1; ABody 1; ABody 0].

Definition overtaken : World :=
  Eval vm_compute in
    match run ok_env two_loops (boot plain) with
    | Some w => w
    | None => boot plain
    end.

End OrderExample.

Module ShutdownExample.
Import Double.

Definition signalled_sched : list Action :=
  [AStart 7; ADeliver m1; AStopClose; AEnter 0].

(** [m1] is queued and [Stop] has closed the shutdown channel; the loop then
    enters its select, where the shutdown case and the message case are both
    ready. *)
Definition signalled : World :=
  Eval vm_compute in
    match run ok_env signalled_sched (boot plain) with
    | Some w => w
    | None => boot plain
    end.

(** The loop has returned and [Stop] with it; the instance is started
    again, [m1] is queued, a second [Stop] has closed the new shutdown
    channel and the new loop enters its select. *)
Definition again_sched : list Action :=
  [AStart 7; AEnter 0; AStopClose; ACaseDone 0; AStopJoin;
   AStart 8; ADeliver m1; AStopClose; AEnter 1].

Definition signalled_again : World :=
  Eval vm_compute in
    match run ok_env again_sched (boot plain) with
    | Some w => w
    | None => boot plain
    end.

(** [Start] is called a second time while the first loop waits in its
    select; [Stop] then closes the shutdown channel the second call made,
    and the second loop returns. The first loop still waits on the shutdown
    channel of the first call, which nothing closes. *)
Definition hung_sched : list Action :=
  [AStart 7; AEnter 0; AStart 8; AEnter 1; AStopClose; ACaseDone 1].

Definition hung : World :=
  Eval vm_compute in
    match run ok_env hung_sched (boot plain) with
    | Some w => w
    | None => boot plain
    end.

End ShutdownExample.

Module LoopExample.
Import Double.

Definition fault : natsError := mkNatsError 0 (Some sub0) slow_consumer.

(** The loop waits in its select when the client reports [fault]. *)
Definition faulted : World :=
  Eval vm_compute in
    match run ok_env [AStart 7; AEnter 0; AFault 0 (Some sub0) slow_consumer]
              (boot plain) with
    | Some w => w
    | None => boot plain
    end.

(** The loop waits in its select. *)
Definition waiting : World :=
  Eval vm_compute in
    match run ok_env [AStart 7; AEnter 0] (boot plain) with
    | Some w => w
    | None => boot plain
    end.

(** The loop has just dequeued [m1]; every payload decodes. *)
Definition dequeued : World :=
  Eval vm_compute in
    match run ok_env [AStart 7; AEnter 0; ADeliver m1; ACaseIn 0] (boot plain) with
    | Some w => w
    | None => boot plain
    end.

End LoopExample.

Module StopExample.
Import Double.

(** [Stop] has panicked at close(n.done) before any [Start]. *)
Definition died : World :=
  Eval vm_compute in
    match step ok_env AStopClose (boot plain) with
    | Some w => w
    | None => boot plain
    end.

(** [Stop] has closed n.done and waits for the loop. *)
Definition stopping : World :=
  Eval vm_compute in
    match run ok_env [AStart 7; AStopClose] (boot plain) with
    | Some w => w
    | None => boot plain
    end.

(** [Stop] still waits for the loop, which has entered its select; [m1] has
    been queued meanwhile. *)
Definition waiting_sched : list Action := [AEnter 0; ADeliver m1].

Definition still_stopping : World :=
  Eval vm_compute in
    match run ok_env waiting_sched stopping with
    | Some w => w
    | None => boot plain
    end.

(** The loop has returned and [Stop] is about to get past n.wg.Wait(); the
    broker will refuse the Unsubscribe. *)
Definition drained_sched : list Action := [AStart 7; AEnter 0; AStopClose; ACaseDone 0].

Definition drained : World :=
  Eval vm_compute in
    match run sticky_env drained_sched (boot plain) with
    | Some w => w
    | None => boot plain
    end.

Definition stopped : World :=
  Eval vm_compute in
    match step sticky_env AStopJoin drained with
    | Some w => w
    | None => boot plain
    end.

End StopExample.

Module RestartExample.
Import Double.

(** The instance of [StopExample.stopped], started again. *)
Definition restarted : World :=
  Eval vm_compute in
    match Start sticky_env 8 StopExample.stopped with
    | Returns _ w => w
    | _ => boot plain
    end.

End RestartExample.

(** * Proofs *)

#[local] Set Warnings "-clear-no-such-hyp".

(** ** Symbolic execution of the plugin's code *)

Ltac exec :=
  repeat (progress (
    unfold bind, ret, gets, modify, panic, fatal, block, deferred, select_default,
           Lock, Unlock, wg_Add1, wg_Done, wg_Wait, acc_call in *;
    cbn beta iota zeta delta
        [set_n set_in_chans set_err_chans set_done_chans set_receivers
         set_conns set_calls set_sink set_crashed
         with_mu with_wg with_Conn with_Subs with_in with_errs with_done with_acc
         n in_chans err_chans done_chans receivers conns calls sink crashed
         QueueGroup Subjects Servers Secure SSLCA SSLCert SSLKey VerifyHost
         PendingMessageLimit PendingBytesLimit MetricBuffer mu wg Conn Subs
         in_ errs done_ acc fst snd sub_id] in *)).

Ltac destruct_world w :=
  let qg := fresh "qg" in let sj := fresh "sj" in let sv := fresh "sv" in
  let se := fresh "se" in let ca := fresh "ca" in let ce := fresh "ce" in
  let ky := fresh "ky" in let vh := fresh "vh" in let pm := fresh "pm" in
  let pb := fresh "pb" in let mb := fresh "mb" in let lk := fresh "lk" in
  let g := fresh "wgc" in let cn := fresh "cn" in let sb := fresh "sb" in
  let fi := fresh "fi" in let fe := fresh "fe" in let fd := fresh "fd" in
  let ac := fresh "ac" in let ic := fresh "ic" in let ec := fresh "ec" in
  let dc := fresh "dc" in let rs := fresh "rs" in let cs := fresh "cs" in
  let cl := fresh "cl" in let sk := fresh "sk" in let cr := fresh "cr" in
  destruct w as [[qg sj sv se ca ce ky vh pm pb mb lk g cn sb fi fe fd ac]
                 ic ec dc rs cs cl sk cr].

(** ** The subscription loop, call by call *)

Section Proofs.

Variable env : Env.

Lemma subscribe_all_spec (c : ConnId) (subjs : list string) :
  forall w : World,
    exists r k tail,
      subscribe_all env c subjs w = Returns r (subscribed c subjs k tail w)
      /\ loop_end env c (QueueGroup (n w)) (PendingMessageLimit (n w))
                  (PendingBytesLimit (n w)) (calls w) subjs r k tail.
Proof.
  unfold subscribed, loop_end.
  induction subjs as [|s rest IH]; intros w.
  - exists None, 0, []. destruct_world w. cbn. rewrite !app_nil_r. auto.
  - destruct_world w. cbn [subscribe_all].
    unfold QueueSubscribe, Flush, SetPendingLimits, broker_call. exec.
    destruct (broker_fails env cl (CQueueSubscribe c s qg)) as [err|] eqn:E1.
    { exists (Some err), 0, [CQueueSubscribe c s qg]. exec. cbn.
      rewrite app_nil_r, E1, Nat.add_0_r. unfold aborted_at. eauto 10. }
    exec.
    destruct (broker_fails env (cl ++ [CQueueSubscribe c s qg]) (CFlush c)) as [err|] eqn:E2.
    { exists (Some err), 0, [CQueueSubscribe c s qg; CFlush c]. exec. cbn.
      rewrite app_nil_r, E1, E2, Nat.add_0_r, <- app_assoc. unfold aborted_at. eauto 10. }
    exec.
    destruct (broker_fails env ((cl ++ [CQueueSubscribe c s qg]) ++ [CFlush c])
                (CSetPendingLimits (length cl) pm pb)) as [err|] eqn:E3.
    { exists (Some err), 0, [CQueueSubscribe c s qg; CFlush c; CSetPendingLimits (length cl) pm pb].
      exec. cbn. rewrite app_nil_r, E1, E2, E3, Nat.add_0_r, <- !app_assoc.
      unfold aborted_at. eauto 10. }
    exec.
    match goal with |- context [subscribe_all env c rest ?w'] =>
      destruct (IH w') as (r & k & tail & Heq & Hend)
    end.
    rewrite Heq. exec. clear Heq IH.
    exists r, (S k), tail.
    rewrite !length_app in *. cbn [length] in *.
    replace (length cl + 1 + 1 + 1) with (length cl + 3) in * by lia.
    split.
    { cbn [take full_calls subs_of]. rewrite <- !app_assoc. reflexivity. }
    destruct r as [err|].
    + destruct Hend as [(s' & Hs' & Hab) Hans]. split.
      * exists s'. split; [exact Hs'|].
        replace (length cl + 3 * S k) with (length cl + 3 + 3 * k) by lia. exact Hab.
      * cbn [take full_calls app answers]. rewrite E1, E2, E3.
        rewrite <- !app_assoc in Hans. cbn [app] in Hans. rewrite <- !app_assoc.
        cbn [app]. rewrite Hans.
        destruct Hab as [->|[->| ->]]; cbn [length];
          replace (3 * S k + 1 - 1) with (3 + (3 * k + 1 - 1)) by lia;
          replace (3 * S k + 2 - 1) with (3 + (3 * k + 2 - 1)) by lia;
          replace (3 * S k + 3 - 1) with (3 + (3 * k + 3 - 1)) by lia;
          reflexivity.
    + destruct Hend as (-> & -> & Hans). split; [reflexivity|]. split; [reflexivity|].
      cbn [take full_calls app answers]. rewrite E1, E2, E3.
      rewrite <- !app_assoc in Hans. cbn [app] in Hans. rewrite <- !app_assoc.
      cbn [app]. rewrite Hans.
      replace (3 * S (length rest)) with (3 + 3 * length rest) by lia. reflexivity.
Qed.

(** ** Start, case by case *)

Lemma build_opts_config (c : natsConsumer) (a : option AccId) (b : bool) :
  build_opts env (with_acc a (with_mu b c)) = build_opts env c.
Proof. destruct c; reflexivity. Qed.

(** Every way a call of [Start] can go, with the world it leaves. *)
Lemma Start_spec (a : AccId) (w : World) :
  mu (n w) = false ->
  let w0 := set_n (with_acc (Some a)) w in
  match build_opts env (n w) with
  | inl msg => Start env a w = Fatal msg (set_n (with_mu true) w0)
  | inr opts =>
      if needs_dial w then
        match broker_fails env (calls w) (CConnect opts) with
        | Some err =>
            Start env a w
              = Returns (Some err)
                  (set_calls (calls w ++ [CConnect opts]) (set_n (with_Conn None) w0))
        | None =>
            exists r k tail,
              Start env a w
                = Returns r (after_loop r
                    (subscribed (length (conns w)) (Subjects (n w)) k tail (dialled opts w0)))
              /\ loop_end env (length (conns w)) (QueueGroup (n w)) (PendingMessageLimit (n w))
                          (PendingBytesLimit (n w))
                          (calls w ++ [CConnect opts; CSetErrorHandler (length (conns w))])
                          (Subjects (n w)) r k tail
        end
      else Start env a w = Returns None (launched w0)
  end.
Proof.
  intros Hmu w0. subst w0.
  unfold Start, conn_nil_or_closed, connect_and_subscribe, launch, Connect,
    IsClosed, SetErrorHandler, broker_call, needs_dial.
  destruct_world w. exec. subst lk.
  match goal with |- context [or_fatal (build_opts env ?c1)] =>
    match goal with |- match build_opts env ?c2 with _ => _ end =>
      change (build_opts env c1) with (build_opts env c2)
    end
  end.
  destruct (build_opts env _) as [msg|opts]; unfold or_fatal; exec; [reflexivity|].
  destruct cn as [c|]; exec.
  - destruct (default true (cs !! c)); exec; [|reflexivity].
    destruct (broker_fails env cl (CConnect opts)) as [err|]; exec; [reflexivity|].
    match goal with |- context [subscribe_all env ?c ?l ?w'] =>
      destruct (subscribe_all_spec c l w') as (r & k & tail & Heq & Hend)
    end.
    rewrite Heq. exists r, k, tail. exec.
    rewrite <- !app_assoc in *. cbn [app] in *.
    split; [|exact Hend].
    destruct r; reflexivity.
  - destruct (broker_fails env cl (CConnect opts)) as [err|]; exec; [reflexivity|].
    match goal with |- context [subscribe_all env ?c ?l ?w'] =>
      destruct (subscribe_all_spec c l w') as (r & k & tail & Heq & Hend)
    end.
    rewrite Heq. exists r, k, tail. exec.
    rewrite <- !app_assoc in *. cbn [app] in *.
    split; [|exact Hend].
    destruct r; reflexivity.
Qed.

Lemma Start_locked (a : AccId) (w : World) :
  mu (n w) = true -> Start env a w = Blocks.
Proof. intros H. unfold Start. exec. rewrite H. reflexivity. Qed.

End Proofs.

(** ** The TLS configuration (lines 136-158) *)

Section Transport.

Variable env : Env.

Lemma build_tls_skip (c : natsConsumer) (cfg : tlsConfig) :
  build_tls env c = inr cfg -> InsecureSkipVerify cfg = negb (VerifyHost c).
Proof.
  unfold build_tls. intros H.
  destruct (LoadX509KeyPair env _ _); [|discriminate].
  destruct (ReadFile env _) as [[pem|] [err|]]; try discriminate.
  destruct (pem_ok env pem); [|discriminate].
  injection H as <-. reflexivity.
Qed.

Lemma build_opts_secure (c : natsConsumer) (opts : Options) :
  build_opts env c = inr opts -> Secure c = true ->
  exists cfg, opt_TLSConfig opts = Some cfg /\ build_tls env c = inr cfg.
Proof.
  unfold build_opts. intros H Hs. rewrite Hs in H.
  destruct (build_tls env c) as [msg|cfg]; [discriminate|].
  injection H as <-. eauto.
Qed.

Lemma full_calls_not_connect c q pm pb base subjs o :
  CConnect o ∉ full_calls c q pm pb base subjs.
Proof.
  revert base. induction subjs as [|s rest IH]; intros base; cbn.
  - apply not_elem_of_nil.
  - rewrite !not_elem_of_cons. repeat split; try discriminate. apply IH.
Qed.

Lemma aborted_not_connect c q pm pb base s tail o :
  aborted_at c q pm pb base s tail -> CConnect o ∉ tail.
Proof.
  intros [->|[->| ->]]; rewrite ?not_elem_of_cons; repeat split;
    try discriminate; apply not_elem_of_nil.
Qed.

(** The options of every dial a call of [Start] makes are the ones built
    from the instance. *)
Lemma Start_connect_opts (a : AccId) (w w' : World) (r : option error) (o : Options) :
  Start env a w = Returns r w' ->
  CConnect o ∈ drop (length (calls w)) (calls w') ->
  build_opts env (n w) = inr o.
Proof.
  intros HS Hin.
  destruct (mu (n w)) eqn:Hmu.
  { rewrite Start_locked in HS by assumption. discriminate. }
  pose proof (Start_spec env a w Hmu) as Hspec. cbv zeta in Hspec.
  destruct (build_opts env (n w)) as [msg|opts]; [congruence|].
  destruct (needs_dial w).
  - destruct (broker_fails env (calls w) (CConnect opts)) as [err|].
    + rewrite Hspec in HS. injection HS as <- <-.
      destruct_world w. exec. rewrite drop_app_length in Hin.
      apply list_elem_of_singleton in Hin. congruence.
    + destruct Hspec as (r0 & k & tail & Heq & Hend).
      rewrite Heq in HS. injection HS as <- <-.
      assert (Hc : calls (after_loop r0 (subscribed (length (conns w)) (Subjects (n w)) k tail
                   (dialled opts (set_n (with_acc (Some a)) w))))
                   = calls w ++ CConnect opts :: CSetErrorHandler (length (conns w))
                       :: full_calls (length (conns w)) (QueueGroup (n w))
                            (PendingMessageLimit (n w)) (PendingBytesLimit (n w))
                            (length (calls w) + 2) (take k (Subjects (n w))) ++ tail).
      { destruct_world w. destruct r0; unfold after_loop, launched, subscribed, dialled; exec;
          rewrite <- !app_assoc, length_app; reflexivity. }
      rewrite Hc, drop_app_length in Hin.
      apply elem_of_cons in Hin as [Hin|Hin]; [congruence|].
      apply elem_of_cons in Hin as [Hin|Hin]; [discriminate|].
      apply elem_of_app in Hin as [Hin|Hin].
      * exfalso. eapply full_calls_not_connect, Hin.
      * exfalso. unfold loop_end in Hend. destruct r0 as [err|].
        -- destruct Hend as [(s & _ & Hab) _]. eapply aborted_not_connect; eauto.
        -- destruct Hend as (_ & -> & _). inversion Hin.
  - rewrite Hspec in HS. injection HS as <- <-.
    destruct_world w. unfold launched in Hin. exec. rewrite drop_all in Hin. inversion Hin.
Qed.

End Transport.

(** ** Decode errors in the dispatch loop (lines 211-219) *)

Section Decode.

Variable env : Env.

Lemma add_metrics_spec (a : AccId) (ms : list Metric) :
  forall w, acc (n w) = Some a ->
    add_metrics ms w = Returns tt (set_sink (sink w ++ map (record_call a) ms) w).
Proof.
  induction ms as [|m rest IH]; intros w Ha.
  - destruct_world w. cbn. rewrite app_nil_r. reflexivity.
  - cbn [add_metrics]. exec. rewrite Ha. exec.
    rewrite IH by (destruct_world w; exact Ha).
    destruct_world w. exec. rewrite <- app_assoc. reflexivity.
Qed.

Lemma receiver_msg_body_spec (a : AccId) (msg : Msg) (w : World) :
  acc (n w) = Some a ->
  receiver_msg_body env (Some msg) w
    = Returns tt (set_sink
        (sink w
         ++ match snd (Parse env (msg_Data msg)) with
            | Some e => [(a, AddError ("E! subject: " +:+ msg_Subject msg +:+ ", error: " +:+ e))]
            | None => []
            end
         ++ map (record_call a) (fst (Parse env (msg_Data msg)))) w).
Proof.
  intros Ha. unfold receiver_msg_body.
  destruct (Parse env (msg_Data msg)) as [ms [e|]]; exec.
  - rewrite Ha. exec. rewrite add_metrics_spec with (a := a) by (destruct_world w; exact Ha).
    destruct_world w. exec. rewrite <- app_assoc. reflexivity.
  - rewrite add_metrics_spec with (a := a) by exact Ha. reflexivity.
Qed.

End Decode.

(** ** The error callback (lines 106-112) *)

Lemma waiting_on_Some (e : nat) (rs : list RecvPC) (g : nat) :
  waiting_on e rs = Some g -> exists d i, rs !! g = Some (RSelect d (Some e) i).
Proof.
  revert g. induction rs as [|pc rest IH]; intros g H; [discriminate|].
  cbn in H.
  assert (Hrest : S <$> waiting_on e rest = Some g -> exists d i, (pc :: rest) !! g = Some (RSelect d (Some e) i)).
  { destruct (waiting_on e rest) as [g'|]; [|discriminate]. cbn. intros [= <-]. cbn. eauto. }
  destruct pc as [|d [e'|] i| | |]; auto.
  destruct (decide (e' = e)) as [->|]; auto.
  injection H as <-. cbn. eauto.
Qed.

Lemma waiting_on_None (e : nat) (rs : list RecvPC) :
  waiting_on e rs = None -> forall g d i, rs !! g <> Some (RSelect d (Some e) i).
Proof.
  induction rs as [|pc rest IH]; intros H g d i; [destruct g; discriminate|].
  cbn in H.
  assert (Hrest : S <$> waiting_on e rest = None -> forall g, rest !! g <> Some (RSelect d (Some e) i)).
  { destruct (waiting_on e rest); [discriminate|]. intros _ g'. apply IH. reflexivity. }
  destruct g as [|g]; cbn.
  - destruct pc as [|d' [e'|] i'| | |]; try discriminate.
    destruct (decide (e' = e)) as [->|Hne]; [discriminate|]. congruence.
  - destruct pc as [|d' [e'|] i'| | |]; auto.
    destruct (decide (e' = e)); [discriminate|auto].
Qed.

Lemma natsErrHandler_spec (c : ConnId) (s : option Subscription) (e : error) (w : World) :
  errs_open w ->
  exists w', natsErrHandler c s e w = Returns tt w' /\ handled (mkNatsError c s e) w w'.
Proof.
  intros Hopen. unfold natsErrHandler, select_default, send_errs, ret.
  destruct (errs (n w)) as [i|] eqn:Hi.
  2:{ eexists; split; [reflexivity|]. apply handled_dropped. rewrite Hi. exact I. }
  destruct (Hopen i Hi) as (ch & Hch & Hcl). rewrite Hch, Hcl.
  destruct (waiting_on i (receivers w)) as [g|] eqn:Hw.
  - destruct (waiting_on_Some _ _ _ Hw) as (d & j & Hg).
    eexists; split; [reflexivity|]. eapply handled_handed; eauto.
  - pose proof (waiting_on_None _ _ Hw) as Hnone.
    unfold chan_push. destruct (decide (length (ch_buf ch) < ch_cap ch)).
    + eexists; split; [reflexivity|]. eapply handled_buffered; eauto.
    + eexists; split; [reflexivity|]. apply handled_dropped. rewrite Hi.
      split; [exact Hnone|]. intros c0 Hc0. rewrite Hch in Hc0. injection Hc0 as <-. lia.
Qed.

(** ** One step of each kind, and the world it leaves *)

Section Steps.

Variable env : Env.

Lemma unsubscribe_all_spec (a : AccId) (subs : list Subscription) :
  forall w, acc (n w) = Some a ->
    exists es,
      unsubscribe_all env subs w
        = Returns tt (set_sink (sink w ++ es)
                        (set_calls (calls w ++ map (fun s => CUnsubscribe (sub_id s)) subs) w))
      /\ Forall is_error_call es.
Proof.
  induction subs as [|s rest IH]; intros w Ha.
  - exists []. destruct_world w. cbn. rewrite !app_nil_r. auto.
  - cbn [unsubscribe_all]. unfold Unsubscribe, broker_call. exec.
    destruct (broker_fails env (calls w) (CUnsubscribe (sub_id s))) as [err|]; exec.
    + rewrite Ha.
      match goal with |- context [unsubscribe_all env rest ?w1] =>
        destruct (IH w1) as (es & -> & Hes); [destruct_world w; exact Ha|] end.
      eexists (_ :: es). split; [|constructor; [|exact Hes]].
      * destruct_world w. exec. rewrite <- !app_assoc. reflexivity.
      * exact I.
    + match goal with |- context [unsubscribe_all env rest ?w1] =>
        destruct (IH w1) as (es & -> & Hes); [destruct_world w; exact Ha|] end.
      exists es. split; [|exact Hes].
      destruct_world w. exec. rewrite <- !app_assoc. reflexivity.
Qed.

Lemma step_Start (a : AccId) (w w' : World) :
  step env (AStart a) w = Some w' ->
  crashed w = None /\ mu (n w) = false /\ start_result env a w w'.
Proof.
  unfold step. destruct (crashed w) eqn:Hcr; [discriminate|]. cbn [act]. unfold bind.
  destruct (mu (n w)) eqn:Hmu.
  { rewrite Start_locked by exact Hmu. discriminate. }
  intros H. split; [reflexivity|]. split; [reflexivity|].
  pose proof (Start_spec env a w Hmu) as Hspec. cbv zeta in Hspec.
  destruct (build_opts env (n w)) as [msg|opts] eqn:Hb.
  { rewrite Hspec in H. injection H as <-. apply sr_fatal; assumption. }
  destruct (needs_dial w) eqn:Hd.
  - destruct (broker_fails env (calls w) (CConnect opts)) as [err|] eqn:Hc.
    + rewrite Hspec in H. injection H as <-. eapply sr_refused; eauto.
    + destruct Hspec as (r & k & tail & Heq & Hend). rewrite Heq in H.
      injection H as <-. eapply sr_dialled; eauto.
  - rewrite Hspec in H. injection H as <-. eapply sr_reuse; eauto.
Qed.

End Steps.

(** Unfolds one scheduled step of any action but [AStart] in hypothesis [H]. *)
Ltac step_exec H :=
  unfold step in H;
  match type of H with
  | context [crashed ?w] => let E := fresh "Hlive" in destruct (crashed w) eqn:E; [discriminate|]
  end;
  cbn [act] in H;
  unfold receiver_enter, receiver_case_done, receiver_case_errs, receiver_case_in,
    receiver_body, receiver_err_body, Stop_close, Stop_join, close_done, clean,
    on_message, send_in, natsErrHandler, send_errs, pc_of, set_pc, IsClosed, Close,
    broker_call, chan_close, chan_recv, chan_push, deref in H;
  exec.

(** ** What holds in every reachable world *)

Section Reachable.

Variable env : Env.

Lemma wf_boot (c : natsConsumer) : wf (boot c).
Proof.
  constructor; cbn.
  - constructor.
  - constructor.
  - intros k H. rewrite lookup_nil in H. discriminate.
  - intros H. exfalso. apply H. reflexivity.
  - intros [? H]. discriminate.
  - intros _ H. discriminate.
Qed.

Lemma insert_nonnil {A : Type} (l : list A) (i : nat) (x : A) :
  l <> [] -> <[i := x]> l <> [].
Proof. intros H E. apply H. apply (f_equal length) in E. rewrite length_insert in E. destruct l; [reflexivity|discriminate]. Qed.

Lemma app_nonnil {A : Type} (l : list A) (x : A) : l ++ [x] <> [].
Proof. destruct l; discriminate. Qed.

Lemma lookup_nonnil {A : Type} (l : list A) (i : nat) (x : A) :
  l !! i = Some x -> l <> [].
Proof. intros H ->. rewrite lookup_nil in H. discriminate. Qed.

Lemma needs_dial_all_closed (w : World) :
  wf w -> needs_dial w = true -> forall c, conns w !! c <> Some false.
Proof.
  intros Hwf Hd c Hc. pose proof (wf_conn w Hwf c Hc) as HC.
  unfold needs_dial in Hd. rewrite HC, Hc in Hd. discriminate.
Qed.

Lemma waiting_nonnil (e : nat) (rs : list RecvPC) (g : nat) :
  waiting_on e rs = Some g -> rs <> [].
Proof. intros H ->. discriminate. Qed.

Ltac note_nonnil :=
  repeat match goal with
  | H : ?l !! _ = Some _ |- _ =>
      lazymatch goal with
      | _ : l <> [] |- _ => fail
      | _ => pose proof (lookup_nonnil _ _ _ H)
      end
  | H : waiting_on _ ?l = Some _ |- _ =>
      lazymatch goal with
      | _ : l <> [] |- _ => fail
      | _ => pose proof (waiting_nonnil _ _ _ H)
      end
  end.

Ltac wf_auto :=
  note_nonnil;
  try solve
    [ assumption
    | discriminate
    | intros; discriminate
    | intros; eauto
    | intros; apply app_nonnil
    | intros; apply insert_nonnil; eauto using lookup_nonnil
    | apply Forall_app; split; [assumption|repeat constructor]
    | apply Forall_insert; [assumption|cbn; try reflexivity; try assumption;
        match goal with
        | Hf : Forall _ ?h, Hk : ?h !! _ = Some ?c |- ch_closed ?c = false =>
            exact (Forall_lookup_1 _ _ _ _ Hf Hk)
        end] ].

Lemma wf_step (a : Action) (w w' : World) :
  wf w -> step env a w = Some w' -> wf w'.
Proof.
  intros Hwf H. destruct a.
  - (* Start *)
    apply step_Start in H as (Hlive & Hmu & Hsr).
    pose proof (needs_dial_all_closed w Hwf) as Hall.
    destruct Hsr as [msg Hb _|opts Hb Hd _|opts err Hb Hd Hc _|opts r k tail Hb Hd Hc Hend _].
    + destruct Hwf as [He Hi Hc Ha Hdn Hl]. destruct_world w.
      constructor; exec; wf_auto.
    + destruct Hwf as [He Hi Hc Ha Hdn Hl]. destruct_world w. unfold launched.
      constructor; exec; wf_auto.
    + specialize (Hall Hd).
      destruct Hwf as [He Hi Hc' Ha Hdn Hl]. destruct_world w.
      constructor; exec; wf_auto.
      intros c Hcc. exfalso. eapply Hall, Hcc.
    + specialize (Hall Hd).
      destruct Hwf as [He Hi Hc' Ha Hdn Hl]. destruct_world w.
      unfold after_loop, launched, subscribed, dialled.
      destruct r; constructor; exec; wf_auto.
      all: intros c Hcc; apply lookup_app_Some in Hcc as [Hcc|[Hlen Hcc]];
        [exfalso; eapply Hall, Hcc|];
        apply list_lookup_singleton_Some in Hcc as [Hz _];
        f_equal; cbn in *; lia.
  - (* Stop up to close *)
    destruct Hwf as [He Hi Hc Ha Hdn Hl]. destruct_world w. step_exec H.
    repeat case_match; simplify_eq; constructor; exec; wf_auto.
    all: intros _ _; apply Hdn; eauto.
  - (* Stop from the wait on *)
    destruct Hwf as [He Hi Hc Ha Hdn Hl]. destruct_world w. step_exec H.
    destruct lk; [|discriminate]. exec. destruct wgc; [|discriminate]. exec.
    specialize (Hl eq_refl eq_refl). destruct (Ha Hl) as [a Hacc]. cbn in Hacc. subst ac.
    match type of H with context [unsubscribe_all env ?l ?w1] =>
      destruct (unsubscribe_all_spec env a l w1 eq_refl) as (es & Heq & _); rewrite Heq in H
    end.
    exec.
    destruct cn as [c0|]; exec.
    2:{ simplify_eq. constructor; exec; wf_auto. }
    destruct (default true (cs !! c0)); exec; simplify_eq; constructor; exec; wf_auto.
    intros c Hcc. destruct (decide (c = c0)) as [->|Hne].
    + reflexivity.
    + rewrite list_lookup_insert_ne in Hcc by congruence. auto.
  - (* delivery *)
    destruct Hwf as [He Hi Hc Ha Hdn Hl]. destruct_world w. step_exec H.
    repeat case_match; simplify_eq; constructor; exec; wf_auto.
  - (* fault *)
    destruct Hwf as [He Hi Hc Ha Hdn Hl]. destruct_world w. step_exec H.
    repeat case_match; simplify_eq; constructor; exec; wf_auto.
    exfalso.
    match goal with Hp : Forall pristine ?h, Hk : ?h !! _ = Some ?ch |- _ =>
      pose proof (Forall_lookup_1 _ _ _ _ Hp Hk) as (Hcap & Hbuf & _) end.
    cbn in *. lia.
  - destruct Hwf as [He Hi Hc Ha Hdn Hl]. destruct_world w. step_exec H.
    repeat case_match; simplify_eq; constructor; exec; wf_auto.
  - destruct Hwf as [He Hi Hc Ha Hdn Hl]. destruct_world w. step_exec H.
    repeat case_match; simplify_eq; constructor; exec; wf_auto.
  - destruct Hwf as [He Hi Hc Ha Hdn Hl]. destruct_world w. step_exec H.
    repeat case_match; simplify_eq; constructor; exec; wf_auto.
    all: match goal with Hp : Forall pristine ?h, Hk : ?h !! _ = Some ?ch |- _ =>
      pose proof (Forall_lookup_1 _ _ _ _ Hp Hk) as (Hcap & Hbuf & Hcl) end.
    all: cbn in *; congruence.
  - destruct Hwf as [He Hi Hc Ha Hdn Hl]. destruct_world w. step_exec H.
    repeat case_match; simplify_eq; constructor; exec; wf_auto.
  - (* body *)
    destruct (receivers w !! g) as [pc|] eqn:Hg.
    2:{ step_exec H. rewrite Hg in H. discriminate. }
    destruct (wf_acc w Hwf (lookup_nonnil _ _ _ Hg)) as [a Hacc].
    destruct Hwf as [He Hi Hc Ha Hdn Hl].
    unfold step in H. destruct (crashed w) eqn:Hlive; [discriminate|].
    cbn [act] in H. unfold receiver_body, pc_of, bind in H. rewrite Hg in H.
    destruct pc as [| | [f|] | [m|] |]; try discriminate.
    + unfold receiver_err_body, set_pc in H.
      destruct (natsError_Error env f) as [text|]; exec.
      * rewrite Hacc in H. injection H as <-. destruct_world w.
        constructor; exec; wf_auto.
      * injection H as <-. destruct_world w. constructor; exec; wf_auto.
    + unfold receiver_err_body, set_pc in H. exec. injection H as <-.
      destruct_world w. constructor; exec; wf_auto.
    + rewrite receiver_msg_body_spec with (a := a) in H by exact Hacc.
      unfold set_pc in H. exec. injection H as <-. destruct_world w.
      constructor; exec; wf_auto.
    + unfold receiver_msg_body, set_pc in H. exec. injection H as <-.
      destruct_world w. constructor; exec; wf_auto.
Qed.

Lemma wf_run (sched : list Action) :
  forall w w', wf w -> run env sched w = Some w' -> wf w'.
Proof.
  induction sched as [|a rest IH]; intros w w' Hwf H; cbn in H.
  - injection H as <-. exact Hwf.
  - destruct (step env a w) as [w1|] eqn:Hs; [|discriminate].
    eapply IH; [|exact H]. eapply wf_step; eauto.
Qed.

Lemma reachable_wf (w : World) : reachable env w -> wf w.
Proof. intros (c & sched & H). eapply wf_run; [apply wf_boot|exact H]. Qed.

End Reachable.

(** ** Secure transport *)

(** C3, as the code has it: when secure transport is requested, every dial
    made by [Start] carries a TLS configuration whose InsecureSkipVerify is
    the negation of the instance's VerifyHost. VerifyHost is false in the
    instance built at plugin registration and stays false unless the
    configuration sets verify_host; so verification is skipped by default,
    and it is setting verify_host that turns it on. *)
Theorem tls_skip_verify_is_not_verify_host
  (env : Env) (a : AccId) (w w' : World) (r : option error) (o : Options) :
  Secure (n w) = true ->
  Start env a w = Returns r w' ->
  CConnect o ∈ drop (length (calls w)) (calls w') ->
  exists cfg,
    opt_TLSConfig o = Some cfg /\
    InsecureSkipVerify cfg = negb (VerifyHost (n w)) /\
    (VerifyHost (n w) = VerifyHost init -> InsecureSkipVerify cfg = true).
Proof.
  intros Hs HS Hin.
  pose proof (Start_connect_opts env a w w' r o HS Hin) as Hb.
  destruct (build_opts_secure env _ _ Hb Hs) as (cfg & Hcfg & Htls).
  exists cfg. split; [exact Hcfg|].
  pose proof (build_tls_skip env _ _ Htls) as Hskip.
  split; [exact Hskip|].
  intros Hv. rewrite Hskip, Hv. reflexivity.
Qed.

Lemma tls_skip_verify_witness :
  exists cfg,
    opt_TLSConfig TlsExample.dial_opts = Some cfg /\
    InsecureSkipVerify cfg = negb (VerifyHost (n (boot Double.tls))) /\
    (VerifyHost (n (boot Double.tls)) = VerifyHost init -> InsecureSkipVerify cfg = true).
Proof.
  apply (tls_skip_verify_is_not_verify_host Double.ok_env 7 (boot Double.tls)
           TlsExample.started None).
  - reflexivity.
  - vm_compute. reflexivity.
  - vm_compute. apply list_elem_of_here.
Defined.

(** C3 as stated fails: a configuration that asks for secure transport,
    names the three TLS files and does not mention verify_host is no opt-in
    to anything; [Start] loads the files and dials with InsecureSkipVerify
    set. *)
Lemma unset_verify_host_skips_verification :
  exists w' o cfg,
    Secure Double.tls = true /\
    SSLCert Double.tls <> "" /\ SSLKey Double.tls <> "" /\ SSLCA Double.tls <> "" /\
    VerifyHost Double.tls = VerifyHost init /\
    Start Double.ok_env 7 (boot Double.tls) = Returns None w' /\
    calls w' !! 0 = Some (CConnect o) /\
    opt_TLSConfig o = Some cfg /\
    InsecureSkipVerify cfg = true.
Proof.
  eexists _, _, _. split; [reflexivity|].
  split; [discriminate|]. split; [discriminate|]. split; [discriminate|].
  split; [reflexivity|]. split; [vm_compute; reflexivity|].
  split; [reflexivity|]. split; reflexivity.
Qed.

(** ** Decode errors *)

Lemma contains_middle (pre s post : string) : contains (pre +:+ s +:+ post) s.
Proof. exists pre, post. reflexivity. Qed.

(** C2, as the code has it: for every envelope whose payload the decoder
    rejects, the dispatch loop forwards exactly one error containing the
    envelope's subject, then forwards every record the decoder returned
    together with the error (none when it returned none), and goes back to
    the head of the loop. *)
Theorem decode_error_reported_then_records_forwarded
  (env : Env) (g : nat) (msg : Msg) (ms : list Metric) (e : error)
  (a : AccId) (w : World) :
  crashed w = None ->
  receivers w !! g = Some (RGotMsg (Some msg)) ->
  acc (n w) = Some a ->
  Parse env (msg_Data msg) = (ms, Some e) ->
  exists text,
    contains text (msg_Subject msg) /\
    step env (ABody g) w
      = Some (set_receivers (<[g := RTop]> (receivers w))
                (set_sink (sink w ++ (a, AddError text) :: map (record_call a) ms) w)).
Proof.
  intros Hlive Hg Ha HP.
  exists ("E! subject: " +:+ msg_Subject msg +:+ ", error: " +:+ e).
  split; [apply contains_middle|].
  unfold step. rewrite Hlive. cbn [act]. unfold receiver_body, pc_of, bind.
  rewrite Hg. rewrite receiver_msg_body_spec with (a := a) by exact Ha.
  rewrite HP. cbn [fst snd]. unfold set_pc, modify.
  destruct_world w. reflexivity.
Qed.

Lemma decode_error_witness :
  exists text,
    contains text "telegraf" /\
    step Double.partial_env (ABody 0) DecodeExample.dequeued
      = Some (set_receivers (<[0 := RTop]> (receivers DecodeExample.dequeued))
                (set_sink (sink DecodeExample.dequeued
                           ++ (7, AddError text)
                              :: map (record_call 7) [Double.metric_of [Byte.x61]])
                          DecodeExample.dequeued)).
Proof.
  apply (decode_error_reported_then_records_forwarded Double.partial_env 0 Double.m1
           [Double.metric_of [Byte.x61]] "invalid line" 7 DecodeExample.dequeued);
    reflexivity.
Defined.

(** C2 as stated fails: the decoder rejects the payload of [m1] and still
    returns one record; the loop forwards the error and then that record. *)
Lemma rejected_payload_still_forwards_records :
  exists w,
    run Double.partial_env [AStart 7; AEnter 0; ADeliver Double.m1; ACaseIn 0; ABody 0]
        (boot Double.plain)
      = Some w /\
    snd (Parse Double.partial_env (msg_Data Double.m1)) = Some "invalid line" /\
    sink w = [(7, AddError "E! subject: telegraf, error: invalid line");
              (7, AddFields "cpu" [("bytes", FInt 1)] [("host", "a")] 0)].
Proof. eexists. split; [vm_compute; reflexivity|]. split; reflexivity. Qed.

(** ** Reuse of an open connection *)

(** C4: when the instance's Connection is non-nil and not closed, a call of
    [Start] makes no call on the broker client (no dial, no subscription) and
    leaves the connection table, n.Conn and n.Subs as they were; and in every
    reachable world the only connection that can be open is n.Conn, before
    and after that call. *)
Theorem start_reuses_open_connection
  (env : Env) (a : AccId) (w : World) (c : ConnId) :
  reachable env w ->
  Conn (n w) = Some c ->
  conns w !! c = Some false ->
  (forall c', conns w !! c' = Some false -> c' = c) /\
  match Start env a w with
  | Returns r w' =>
      r = None /\ calls w' = calls w /\ conns w' = conns w /\
      Conn (n w') = Some c /\ Subs (n w') = Subs (n w) /\
      (forall c', conns w' !! c' = Some false -> c' = c)
  | Fatal _ w' =>
      calls w' = calls w /\ conns w' = conns w /\ Conn (n w') = Some c
  | Panics _ _ => False
  | Blocks => mu (n w) = true
  end.
Proof.
  intros Hr HC Hopen. pose proof (reachable_wf env w Hr) as Hwf.
  assert (Hone : forall c', conns w !! c' = Some false -> c' = c).
  { intros c' Hc'. pose proof (wf_conn w Hwf c' Hc') as E. congruence. }
  split; [exact Hone|].
  destruct (mu (n w)) eqn:Hmu.
  { rewrite Start_locked by exact Hmu. reflexivity. }
  pose proof (Start_spec env a w Hmu) as Hspec. cbv zeta in Hspec.
  assert (Hd : needs_dial w = false).
  { unfold needs_dial. rewrite HC, Hopen. reflexivity. }
  rewrite Hd in Hspec.
  destruct (build_opts env (n w)) as [msg|opts]; rewrite Hspec.
  - destruct_world w. exec. auto.
  - unfold launched. destruct_world w. exec. auto 10.
Qed.

Lemma start_reuses_witness :
  (forall c', conns StartedExample.started !! c' = Some false -> c' = 0) /\
  match Start Double.ok_env 8 StartedExample.started with
  | Returns r w' =>
      r = None /\ calls w' = calls StartedExample.started /\ conns w' = conns StartedExample.started /\
      Conn (n w') = Some 0 /\ Subs (n w') = Subs (n StartedExample.started) /\
      (forall c', conns w' !! c' = Some false -> c' = 0)
  | Fatal _ w' =>
      calls w' = calls StartedExample.started /\ conns w' = conns StartedExample.started /\
      Conn (n w') = Some 0
  | Panics _ _ => False
  | Blocks => mu (n StartedExample.started) = true
  end.
Proof.
  apply (start_reuses_open_connection Double.ok_env 8 StartedExample.started 0).
  - exists Double.plain, [AStart 7]. vm_compute. reflexivity.
  - reflexivity.
  - reflexivity.
Defined.

(** ** The subscription loop *)

(** C6, as the code has it: the subscription loop runs only when [Start]
    dials. When the dial succeeds, the calls [Start] makes after Connect and
    SetErrorHandler are, for the first [k] subjects in order, QueueSubscribe,
    Flush, SetPendingLimits, followed by [tail]. Either all subjects were
    gone through, no call failed and [Start] returns nil; or [tail] is the
    calls for subject [k] up to the first call that failed, in the same
    order, every earlier call succeeded, [Start] returns that call's error
    and launches no receiver. In both cases n.Subs has gained the
    subscriptions of the first [k] subjects, and no Unsubscribe or Close
    call is made. When the dial is refused [Start] returns that error after
    the Connect call alone. When the connection is open already, [Start]
    makes none of these calls for any subject: it launches a receiver and
    returns nil with n.Subs as it was. *)
Theorem start_subscribes_in_order
  (env : Env) (a : AccId) (w : World) (opts : Options) :
  mu (n w) = false ->
  build_opts env (n w) = inr opts ->
  let c := length (conns w) in
  let q := QueueGroup (n w) in
  let pm := PendingMessageLimit (n w) in
  let pb := PendingBytesLimit (n w) in
  let hist := calls w ++ [CConnect opts; CSetErrorHandler c] in
  if needs_dial w then
    match broker_fails env (calls w) (CConnect opts) with
    | None =>
        exists r k tail w',
          Start env a w = Returns r w' /\
          calls w' = hist ++ full_calls c q pm pb (length hist) (take k (Subjects (n w)))
                          ++ tail /\
          Subs (n w') = Subs (n w) ++ subs_of c q (length hist) (take k (Subjects (n w))) /\
          match r with
          | None =>
              k = length (Subjects (n w)) /\ tail = [] /\
              answers env hist (full_calls c q pm pb (length hist) (take k (Subjects (n w))))
                = replicate (3 * k) None /\
              receivers w' = receivers w ++ [RTop]
          | Some err =>
              (exists s, Subjects (n w) !! k = Some s /\
                         aborted_at c q pm pb (length hist + 3 * k) s tail) /\
              answers env hist
                      (full_calls c q pm pb (length hist) (take k (Subjects (n w))) ++ tail)
                = replicate (3 * k + length tail - 1) None ++ [Some err] /\
              receivers w' = receivers w
          end
    | Some err =>
        exists w',
          Start env a w = Returns (Some err) w' /\
          calls w' = calls w ++ [CConnect opts] /\
          Subs (n w') = Subs (n w) /\ receivers w' = receivers w
    end
  else
    exists w',
      Start env a w = Returns None w' /\
      calls w' = calls w /\ Subs (n w') = Subs (n w) /\
      receivers w' = receivers w ++ [RTop].
Proof.
  intros Hmu Hb c q pm pb hist.
  pose proof (Start_spec env a w Hmu) as Hspec. cbv zeta in Hspec.
  rewrite Hb in Hspec.
  destruct (needs_dial w).
  - destruct (broker_fails env (calls w) (CConnect opts)) as [err|].
    + eexists. split; [exact Hspec|]. destruct_world w. auto.
    + destruct Hspec as (r & k & tail & Heq & Hend).
      exists r, k, tail. eexists. split; [exact Heq|].
      subst c q pm pb hist. unfold loop_end in Hend.
      unfold after_loop, launched, subscribed, dialled.
      destruct_world w. exec.
      destruct r as [err|]; exec.
      * destruct Hend as [Hs Hans]. rewrite <- !app_assoc. cbn [app]. auto.
      * destruct Hend as (Hk & Ht & Hans). rewrite <- !app_assoc. cbn [app]. auto 10.
  - eexists. split; [exact Hspec|]. unfold launched. destruct_world w. auto.
Qed.

Lemma start_subscribes_witness :
  let env := Double.late_env in
  let w := boot Double.two_subjects in
  let opts := RefusedExample.dial_opts in
  let c := length (conns w) in
  let q := QueueGroup (n w) in
  let pm := PendingMessageLimit (n w) in
  let pb := PendingBytesLimit (n w) in
  let hist := calls w ++ [CConnect opts; CSetErrorHandler c] in
  exists r k tail w',
    Start env 7 w = Returns r w' /\
    calls w' = hist ++ full_calls c q pm pb (length hist) (take k (Subjects (n w))) ++ tail /\
    Subs (n w') = Subs (n w) ++ subs_of c q (length hist) (take k (Subjects (n w))) /\
    match r with
    | None =>
        k = length (Subjects (n w)) /\ tail = [] /\
        answers env hist (full_calls c q pm pb (length hist) (take k (Subjects (n w))))
          = replicate (3 * k) None /\
        receivers w' = receivers w ++ [RTop]
    | Some err =>
        (exists s, Subjects (n w) !! k = Some s /\
                   aborted_at c q pm pb (length hist + 3 * k) s tail) /\
        answers env hist (full_calls c q pm pb (length hist) (take k (Subjects (n w))) ++ tail)
          = replicate (3 * k + length tail - 1) None ++ [Some err] /\
        receivers w' = receivers w
    end.
Proof.
  apply (start_subscribes_in_order Double.late_env 7 (boot Double.two_subjects)
           RefusedExample.dial_opts);
    reflexivity.
Defined.

(** C6 as stated fails: the first [Start] fails at its Flush, before the
    subscription is recorded, and leaves the connection open; the second
    [Start] finds it open, makes no Subscribe, Flush or SetPendingLimits for
    the configured subject and returns nil, with no subscription at all. *)
Lemma reused_connection_subscribes_nothing :
  exists w w',
    run Double.flaky_env [AStart 7] (boot Double.plain) = Some w /\
    Subjects (n w) = ["telegraf"] /\
    Start Double.flaky_env 8 w = Returns None w' /\
    calls w' = calls w /\
    Subs (n w') = [] /\
    receivers w' = [RTop].
Proof.
  exists RefusedExample.refused. eexists.
  split; [vm_compute; reflexivity|]. split; [reflexivity|].
  split; [vm_compute; reflexivity|]. split; [reflexivity|]. split; reflexivity.
Qed.

(** ** Stop and the loop body, step by step *)

Section StepLemmas.

Variable env : Env.

Lemma step_StopJoin (w w' : World) :
  wf w -> step env AStopJoin w = Some w' ->
  crashed w = None /\ mu (n w) = true /\ wg (n w) = 0 /\
  exists es, Forall is_error_call es /\ w' = joined es w.
Proof.
  intros Hwf H. destruct Hwf as [He Hi Hc Ha Hdn Hl]. destruct_world w. step_exec H.
  destruct lk; [|discriminate]. exec. destruct wgc; [|discriminate]. exec.
  specialize (Hl eq_refl eq_refl). destruct (Ha Hl) as [a Hacc]. cbn in Hacc. subst ac.
  match type of H with context [unsubscribe_all env ?l ?w1] =>
    destruct (unsubscribe_all_spec env a l w1 eq_refl) as (es & Heq & Hes); rewrite Heq in H
  end.
  exec. repeat split. exists es. split; [exact Hes|]. unfold joined. exec.
  destruct cn as [c0|]; exec.
  2:{ simplify_eq. reflexivity. }
  destruct (default true (cs !! c0)); exec; simplify_eq; reflexivity.
Qed.

Lemma step_Body (g : nat) (w w' : World) :
  wf w -> step env (ABody g) w = Some w' ->
  crashed w = None /\
  exists a pc, acc (n w) = Some a /\ receivers w !! g = Some pc /\
    ((pc = RGotErr None \/ pc = RGotMsg None \/
      (exists f, pc = RGotErr (Some f) /\ ne_sub f = None)) /\
       w' = set_crashed (Some nil_dereference) w
     \/
     ((exists f s, pc = RGotErr (Some f) /\ ne_sub f = Some s) \/
      (exists m, pc = RGotMsg (Some m))) /\
       w' = set_receivers (<[g := RTop]> (receivers w))
              (set_sink (sink w ++ body_calls env a pc) w)).
Proof.
  intros Hwf H.
  unfold step in H. destruct (crashed w) eqn:Hlive; [discriminate|].
  split; [reflexivity|].
  cbn [act] in H. unfold receiver_body, pc_of, bind in H.
  destruct (receivers w !! g) as [pc|] eqn:Hg; [|discriminate].
  assert (Hnn : receivers w <> []) by (intros E; rewrite E, lookup_nil in Hg; discriminate).
  destruct (wf_acc w Hwf Hnn) as [a Hacc].
  exists a, pc. split; [exact Hacc|]. split; [reflexivity|].
  destruct pc as [| | [f|] | [m|] |]; try discriminate.
  - unfold receiver_err_body, set_pc in H. unfold body_calls, natsError_Error in *.
    destruct (ne_sub f) as [s|] eqn:Hs.
    + right. split; [eauto|]. exec. rewrite Hacc in H.
      injection H as <-. destruct_world w. reflexivity.
    + left. split; [eauto|]. exec. injection H as <-. reflexivity.
  - left. split; [auto|]. unfold receiver_err_body, set_pc in H. exec. injection H as <-.
    reflexivity.
  - right. split; [eauto|]. rewrite receiver_msg_body_spec with (a := a) in H by exact Hacc.
    unfold set_pc in H. exec. injection H as <-. destruct_world w. reflexivity.
  - left. split; [auto|]. unfold receiver_msg_body, set_pc in H. exec. injection H as <-.
    reflexivity.
Qed.

(** Only a successful [Start] adds a receiver goroutine, and it adds one. *)
Lemma step_receivers (a : Action) (w w' : World) :
  wf w -> step env a w = Some w' ->
  length (receivers w') = length (receivers w) + (if start_succeeds env a w then 1 else 0).
Proof.
  intros Hwf H. destruct a.
  - apply step_Start in H as (Hlive & Hmu & Hsr). cbn [start_succeeds].
    destruct Hsr as [msg Hb HS|opts Hb Hd HS|opts err Hb Hd Hc HS|opts r k tail Hb Hd Hc Hend HS];
      rewrite HS.
    + destruct_world w. cbn. lia.
    + unfold launched. destruct_world w. exec. rewrite length_app. reflexivity.
    + destruct_world w. cbn. lia.
    + unfold after_loop, launched, subscribed, dialled. destruct r; destruct_world w; exec.
      * lia.
      * rewrite length_app. reflexivity.
  - cbn [start_succeeds]. destruct_world w. step_exec H.
    repeat case_match; simplify_eq; exec; lia.
  - apply step_StopJoin in H as (_ & _ & _ & es & _ & ->); [|exact Hwf].
    cbn [start_succeeds]. unfold joined. destruct_world w. exec.
    repeat case_match; exec; cbn; lia.
  - cbn [start_succeeds]. destruct_world w. step_exec H.
    repeat case_match; simplify_eq; exec; lia.
  - cbn [start_succeeds]. destruct_world w. step_exec H.
    repeat case_match; simplify_eq; exec; rewrite ?length_insert; lia.
  - cbn [start_succeeds]. destruct_world w. step_exec H.
    repeat case_match; simplify_eq; exec; rewrite ?length_insert; lia.
  - cbn [start_succeeds]. destruct_world w. step_exec H.
    repeat case_match; simplify_eq; exec; rewrite ?length_insert; lia.
  - cbn [start_succeeds]. destruct_world w. step_exec H.
    repeat case_match; simplify_eq; exec; rewrite ?length_insert; lia.
  - cbn [start_succeeds]. destruct_world w. step_exec H.
    repeat case_match; simplify_eq; exec; rewrite ?length_insert; lia.
  - cbn [start_succeeds].
    apply step_Body in H as (_ & a & pc & _ & _ & [[_ ->]|[_ ->]]); [| |exact Hwf].
    + destruct_world w. cbn. lia.
    + destruct_world w. cbn. rewrite length_insert. lia.
Qed.

Lemma never_started_no_receiver (sched : list Action) :
  forall w w', wf w -> run env sched w = Some w' ->
    some_start_succeeded env sched w = false ->
    length (receivers w') = length (receivers w).
Proof.
  induction sched as [|a rest IH]; intros w w' Hwf H Hns; cbn in H, Hns.
  - injection H as <-. reflexivity.
  - destruct (step env a w) as [w1|] eqn:Hs; [|discriminate].
    apply orb_false_iff in Hns as [Ha Hns].
    rewrite (IH w1 w' (wf_step env a w w1 Hwf Hs) H Hns).
    rewrite (step_receivers a w w1 Hwf Hs), Ha. lia.
Qed.

End StepLemmas.

(** ** Stop after Stop *)

Section StopTwice.

Variable env : Env.

Lemma shutdown_closed_step (a : Action) (w w' : World) :
  wf w -> step env a w = Some w' -> start_succeeds env a w = false ->
  shutdown_closed w -> shutdown_closed w'.
Proof.
  intros Hwf H Hns (c & Hc & Hcl). unfold shutdown_closed. destruct a.
  - apply step_Start in H as (Hlive & Hmu & Hsr). cbn [start_succeeds] in Hns.
    destruct Hsr as [msg Hb HS|opts Hb Hd HS|opts err Hb Hd Hc' HS|opts r k tail Hb Hd Hc' Hend HS];
      rewrite HS in Hns; try discriminate.
    + exists c. destruct_world w. auto.
    + exists c. destruct_world w. auto.
    + destruct r; [|discriminate]. exists c. unfold after_loop, subscribed, dialled.
      destruct_world w. auto.
  - destruct_world w. unfold deref in Hc. exec. destruct fd as [d|]; [|discriminate].
    step_exec H. destruct lk; [discriminate|]. exec. rewrite Hc, Hcl in H.
    simplify_eq. exists c. cbn. auto.
  - apply step_StopJoin in H as (_ & _ & _ & es & _ & ->); [|exact Hwf].
    exists c. unfold joined. destruct_world w. exec. repeat case_match; exec; auto.
  - destruct_world w. step_exec H. repeat case_match; simplify_eq; exists c; auto.
  - destruct_world w. step_exec H. repeat case_match; simplify_eq; exists c; auto.
  - destruct_world w. step_exec H. repeat case_match; simplify_eq; exists c; auto.
  - destruct_world w. step_exec H. unfold deref in *. exec.
    destruct fd as [d|]; [|discriminate].
    repeat case_match; simplify_eq; exec.
    all: match goal with |- context [<[?i := ?x]> ?h !! ?j] =>
           destruct (decide (i = j)) as [->|Hne];
           [ rewrite list_lookup_insert_eq by (eapply lookup_lt_Some; eauto);
             eexists; split; [reflexivity|]; simplify_eq; cbn; congruence
           | rewrite list_lookup_insert_ne by exact Hne; simplify_eq; eauto ]
         end.
  - destruct_world w. step_exec H. repeat case_match; simplify_eq; exists c; auto.
  - destruct_world w. step_exec H. repeat case_match; simplify_eq; exists c; auto.
  - apply step_Body in H as (_ & a & pc & _ & _ & [[_ ->]|[_ ->]]); [| |exact Hwf].
    + exists c. destruct_world w. auto.
    + exists c. destruct_world w. auto.
Qed.

Lemma shutdown_closed_run (sched : list Action) :
  forall w w', wf w -> run env sched w = Some w' ->
    some_start_succeeded env sched w = false ->
    shutdown_closed w -> shutdown_closed w'.
Proof.
  induction sched as [|a rest IH]; intros w w' Hwf H Hns Hq; cbn in H, Hns.
  - injection H as <-. exact Hq.
  - destruct (step env a w) as [w1|] eqn:Hs; [|discriminate].
    apply orb_false_iff in Hns as [Ha Hns].
    eapply (IH w1 w'); eauto using wf_step, shutdown_closed_step.
Qed.

Lemma Stop_close_closed (w : World) :
  mu (n w) = false -> shutdown_closed w ->
  Stop_close w = Panics "close of closed channel" (set_n (with_mu true) w).
Proof.
  intros Hmu (c & Hc & Hcl). unfold Stop_close, close_done, Lock, bind.
  rewrite Hmu. destruct_world w. exec. cbn in Hc. rewrite Hc. cbn. rewrite Hcl. reflexivity.
Qed.

Lemma Stop_close_launched (w0 : World) :
  mu (n w0) = false ->
  Stop_close (launched w0)
    = Returns tt (set_done_chans (done_chans w0 ++ [mkChan 0 [] true])
                    (set_n (with_mu true) (launched w0)))
  /\ ~ shutdown_closed (launched w0)
  /\ shutdown_closed (set_done_chans (done_chans w0 ++ [mkChan 0 [] true])
                        (set_n (with_mu true) (launched w0))).
Proof.
  intros Hmu. unfold Stop_close, close_done, Lock, bind, launched, shutdown_closed, deref.
  destruct_world w0. exec. cbn in Hmu. subst. exec.
  rewrite !lookup_app_r, !Nat.sub_diag by lia. cbn.
  split; [|split].
  - rewrite insert_app_r_alt, Nat.sub_diag by lia. reflexivity.
  - intros (c & Hc & Hcl). injection Hc as <-. discriminate.
  - eauto.
Qed.

End StopTwice.

(** ** Counters and queues in every reachable world *)

Lemma sum_insert {A : Type} (f : A -> nat) (l : list A) (i : nat) (x y : A) :
  l !! i = Some y ->
  total f (<[i := x]> l) + f y = total f l + f x.
Proof.
  revert i. induction l as [|z l IH]; intros i H; [rewrite lookup_nil in H; discriminate|].
  destruct i as [|i].
  - injection H as ->. cbn. lia.
  - specialize (IH i H). change (<[S i := x]> (z :: l)) with (z :: <[i := x]> l).
    cbn [total]. lia.
Qed.

Lemma total_snoc {A : Type} (f : A -> nat) (l : list A) (x : A) :
  total f (l ++ [x]) = total f l + f x.
Proof. induction l as [|y l IH]; cbn; [lia|]. rewrite IH. lia. Qed.

Lemma total_insert_same {A : Type} (f : A -> nat) (l : list A) (i : nat) (x y : A) :
  l !! i = Some y -> f x = f y -> total f (<[i := x]> l) = total f l.
Proof. intros Hl Hf. pose proof (sum_insert f l i x y Hl). lia. Qed.

Lemma total_live_pos (rs : list RecvPC) (g : nat) (pc : RecvPC) :
  rs !! g = Some pc -> exited pc = false -> 0 < total live rs.
Proof.
  revert g. induction rs as [|x rs IH]; intros g Hl He; [rewrite lookup_nil in Hl; discriminate|].
  destruct g as [|g]; cbn in *.
  - injection Hl as ->. unfold live. rewrite He. lia.
  - specialize (IH g Hl He). lia.
Qed.

(** [exec] after [case_match], which may have named a variable like a
    projection. *)
Ltac exec_in_all :=
  try (let k := fresh "k" in rename n into k); exec.

Ltac use_lookups :=
  repeat match goal with
  | Hf : Forall ?P ?h, Hk : ?h !! ?i = Some ?c |- _ =>
      lazymatch goal with
      | _ : P c |- _ => fail
      | _ => pose proof (Forall_lookup_1 _ _ _ _ Hf Hk : P c)
      end
  end.

Lemma start_never_panics (env : Env) (a : AccId) (w : World) :
  mu (n w) = false ->
  match Start env a w with
  | Panics _ _ | Blocks => False
  | _ => True
  end.
Proof.
  intros Hmu.
  pose proof (Start_spec env a w Hmu) as Hspec. cbv zeta in Hspec.
  destruct (build_opts env (n w)) as [msg|opts]; [rewrite Hspec; exact I|].
  destruct (needs_dial w).
  - destruct (broker_fails env (calls w) (CConnect opts)).
    + rewrite Hspec. exact I.
    + destruct Hspec as (r & k & tail & -> & _). exact I.
  - rewrite Hspec. exact I.
Qed.

Lemma Start_returns_live (env : Env) (a : AccId) (w w' : World) (r : option error) :
  Start env a w = Returns r w' -> crashed w' = crashed w.
Proof.
  intros HS.
  destruct (mu (n w)) eqn:Hmu.
  { rewrite Start_locked in HS by exact Hmu. discriminate. }
  pose proof (Start_spec env a w Hmu) as Hspec. cbv zeta in Hspec.
  destruct (build_opts env (n w)) as [msg|opts]; [congruence|].
  destruct (needs_dial w).
  - destruct (broker_fails env (calls w) (CConnect opts)).
    + rewrite Hspec in HS. injection HS as <- <-. destruct_world w. reflexivity.
    + destruct Hspec as (r0 & k & tail & Heq & _). rewrite Heq in HS.
      injection HS as <- <-. unfold after_loop, launched, subscribed, dialled.
      destruct r0; destruct_world w; reflexivity.
  - rewrite Hspec in HS. injection HS as <- <-. unfold launched.
    destruct_world w. reflexivity.
Qed.

Section Sound.

Variable env : Env.

Lemma sound_boot (c : natsConsumer) : sound (boot c).
Proof.
  constructor; cbn; try constructor; intros; discriminate.
Qed.

Ltac sound_auto :=
  try solve
    [ assumption
    | discriminate
    | intros; discriminate
    | intros; eauto
    | rewrite total_snoc; cbn; lia
    | apply Forall_app; split; [assumption|repeat constructor; cbn; try discriminate; lia]
    | intros; simplify_eq; rewrite ?length_app, ?length_insert; cbn; eauto; lia
    | apply Forall_insert; [assumption|]; use_lookups;
      repeat match goal with c : Chan _ |- _ => destruct c end;
      unfold holds_value, bounded, signal_only, pristine in *; cbn in *; subst; cbn in *;
      rewrite ?length_app in *; cbn in *;
      intuition (try discriminate; try congruence; try lia)
    | match goal with
      | |- context [total live (<[?g := ?x]> ?rs)] =>
          match goal with
          | Hk : rs !! g = Some ?y |- _ =>
              pose proof (sum_insert live rs g x y Hk); cbn in *; lia
          end
      end ].

Ltac note_waiting :=
  repeat match goal with
  | H : waiting_on _ _ = Some _ |- _ => apply waiting_on_Some in H as (? & ? & H)
  end.

Lemma sound_step (a : Action) (w w' : World) :
  wf w -> sound w -> step env a w = Some w' -> sound w'.
Proof.
  intros Hwf Hs H. destruct a.
  - (* Start *)
    apply step_Start in H as (Hlive & Hmu & Hsr).
    destruct Hsr as [msg Hb _|opts Hb Hd _|opts err Hb Hd Hc _|opts r k tail Hb Hd Hc Hend _].
    + destruct Hs as [Hw Hr Hi Hir Hd Hdr Her]. destruct_world w.
      constructor; exec; sound_auto.
    + destruct Hs as [Hw Hr Hi Hir Hd' Hdr Her]. destruct_world w. unfold launched.
      constructor; exec; sound_auto.
    + destruct Hs as [Hw Hr Hi Hir Hd' Hdr Her]. destruct_world w.
      constructor; exec; sound_auto.
    + destruct Hs as [Hw Hr Hi Hir Hd' Hdr Her]. destruct_world w.
      unfold after_loop, launched, subscribed, dialled.
      destruct r; constructor; exec; sound_auto.
  - (* Stop up to close *)
    destruct Hs as [Hw Hr Hi Hir Hd Hdr Her]. destruct_world w. step_exec H.
    repeat case_match; simplify_eq; constructor; exec; sound_auto.
  - (* Stop from the wait on *)
    apply step_StopJoin in H as (_ & _ & _ & es & _ & ->); [|exact Hwf].
    destruct Hs as [Hw Hr Hi Hir Hd Hdr Her]. unfold joined. destruct_world w. exec.
    destruct cn as [c0|]; [destruct (default true (cs !! c0))|];
      constructor; exec; sound_auto.
  - (* delivery *)
    destruct Hs as [Hw Hr Hi Hir Hd Hdr Her]. destruct_world w. step_exec H.
    repeat case_match; simplify_eq; constructor; exec; sound_auto.
  - (* fault *)
    destruct Hs as [Hw Hr Hi Hir Hd Hdr Her]. destruct_world w. step_exec H.
    repeat case_match; simplify_eq; note_waiting; constructor; exec; sound_auto.
  - destruct Hs as [Hw Hr Hi Hir Hd Hdr Her]. destruct_world w. step_exec H.
    repeat case_match; simplify_eq; constructor; exec; sound_auto.
  - destruct Hs as [Hw Hr Hi Hir Hd Hdr Her]. destruct_world w. step_exec H.
    repeat case_match; simplify_eq; constructor; exec; sound_auto.
  - pose proof (wf_errs w Hwf) as He.
    destruct Hs as [Hw Hr Hi Hir Hd Hdr Her]. destruct_world w. step_exec H.
    repeat case_match; simplify_eq; constructor; exec; sound_auto.
  - pose proof (wf_in w Hwf) as Hin.
    destruct Hs as [Hw Hr Hi Hir Hd Hdr Her]. destruct_world w. step_exec H.
    repeat case_match; simplify_eq; constructor; exec; sound_auto.
  - (* body *)
    apply step_Body in H as (_ & a & pc & Ha & Hg & [[Hnil ->]|[Hpc ->]]); [| |exact Hwf].
    + destruct Hs as [Hw Hr Hi Hir Hd Hdr Her]. destruct_world w.
      constructor; exec; sound_auto.
    + destruct Hs as [Hw Hr Hi Hir Hd Hdr Her]. destruct_world w.
      destruct Hpc as [(f & s0 & -> & Hsub)|[m ->]]; constructor; exec; sound_auto.
Qed.

Lemma sound_run (sched : list Action) :
  forall w w', wf w -> sound w -> run env sched w = Some w' -> sound w'.
Proof.
  induction sched as [|a rest IH]; intros w w' Hwf Hs H; cbn in H.
  - injection H as <-. exact Hs.
  - destruct (step env a w) as [w1|] eqn:Hst; [|discriminate].
    eapply IH; [| |exact H]; [eapply wf_step|eapply sound_step]; eauto.
Qed.

Lemma reachable_sound (w : World) : reachable env w -> sound w.
Proof.
  intros (c & sched & H). eapply sound_run; [apply wf_boot|apply sound_boot|exact H].
Qed.

End Sound.


(** ** The receiver launched last *)

Lemma needs_dial_not_open (w : World) : needs_dial w = true -> ~ conn_open w.
Proof.
  unfold needs_dial. intros H (c & HC & Hc). rewrite HC, Hc in H. discriminate.
Qed.

Lemma not_needs_dial_open (w : World) : needs_dial w = false -> conn_open w.
Proof.
  unfold needs_dial, conn_open. intros H.
  destruct (Conn (n w)) as [c|]; [|discriminate].
  destruct (conns w !! c) as [[|]|] eqn:E; try discriminate. eauto.
Qed.

Lemma lookup_snoc_open (cs : list bool) : (cs ++ [false]) !! length cs = Some false.
Proof. rewrite lookup_app_r, Nat.sub_diag by lia. reflexivity. Qed.

Lemma last_insert_select (rs : list RecvPC) (g : nat) (pc : RecvPC) (d e i : option nat) :
  last (<[g := pc]> rs) = Some (RSelect d e i) ->
  pc = RSelect d e i \/ last rs = Some (RSelect d e i).
Proof.
  rewrite !last_lookup, length_insert. intros H.
  apply list_lookup_insert_Some in H as [(_ & <- & _)|(_ & H)]; auto.
Qed.

Lemma total_live_zero (rs : list RecvPC) :
  total live rs = 0 -> Forall (fun pc => exited pc = true) rs.
Proof.
  induction rs as [|pc rs IH]; intros H; constructor.
  - cbn in H. unfold live in H. destruct (exited pc); [reflexivity|lia].
  - apply IH. cbn in H. lia.
Qed.

Lemma last_exited (rs : list RecvPC) (d e i : option nat) :
  total live rs = 0 -> last rs <> Some (RSelect d e i).
Proof.
  intros H Hl. apply total_live_zero in H. rewrite last_lookup in Hl.
  pose proof (Forall_lookup_1 _ _ _ _ H Hl) as Hx. discriminate.
Qed.

Section Current.

Variable env : Env.

Lemma current_boot (c : natsConsumer) : current (boot c).
Proof.
  constructor; cbn.
  - intros H. contradiction.
  - intros d e i H. discriminate.
Qed.

Ltac cur_auto :=
  try solve
    [ assumption
    | intros; discriminate
    | intros; contradiction
    | intros; eauto
    | let X := fresh "X" in
      intros ? ? ? X; rewrite last_snoc in X; discriminate
    | let X := fresh "X" in
      intros ? ? ? X; apply last_insert_select in X as [X|X];
      [ first [discriminate | injection X as <- <- <-; auto] | eauto ]
    | intros; eexists; split; [reflexivity|]; apply lookup_snoc_open
    | intros; match goal with Hx : _ -> ?G |- ?G => apply Hx; (discriminate || lia) end ].

Lemma current_step (a : Action) (w w' : World) :
  wf w -> sound w -> current w -> step env a w = Some w' -> current w'.
Proof.
  intros Hwf Hs [Ho Hl] H. pose proof (snd_wg w Hs) as Hw. destruct a.
  - (* Start *)
    apply step_Start in H as (Hlive & Hmu & Hsr).
    destruct Hsr as [msg Hb _|opts Hb Hd _|opts err Hb Hd Hc _|opts r k tail Hb Hd Hc Hend _].
    + unfold conn_open in *. destruct_world w. constructor; exec; cur_auto.
    + pose proof (not_needs_dial_open _ Hd) as Hyes. clear Hwf Hs Hb Hd.
      unfold launched, conn_open in *. destruct_world w. constructor; exec; cur_auto.
    + pose proof (needs_dial_not_open _ Hd) as Hno.
      assert (Hz : wg (n w) = 0).
      { destruct (wg (n w)) eqn:E; [reflexivity|]. exfalso. apply Hno, Ho. discriminate. }
      clear Hwf Hs Hb Hd Hc. unfold conn_open in *. destruct_world w.
      cbn in Hz. subst. constructor; exec; cur_auto.
    + pose proof (needs_dial_not_open _ Hd) as Hno.
      assert (Hz : wg (n w) = 0).
      { destruct (wg (n w)) eqn:E; [reflexivity|]. exfalso. apply Hno, Ho. discriminate. }
      rewrite Hz in Hw. symmetry in Hw.
      clear Hwf Hs Hb Hd Hc Hend.
      unfold after_loop, launched, subscribed, dialled, conn_open in *. destruct_world w.
      cbn in Hz, Hw. subst.
      destruct r; constructor; exec; cur_auto.
      intros ? ? ? Hlast. exfalso. eapply last_exited; eauto.
  - (* Stop up to close *)
    clear Hwf Hs. unfold conn_open in *. destruct_world w. step_exec H.
    repeat case_match; exec_in_all; simplify_eq; constructor; exec; cur_auto.
  - (* Stop from the wait on *)
    apply step_StopJoin in H as (_ & _ & Hz & es & _ & ->); [|exact Hwf].
    clear Hwf Hs. unfold joined, conn_open in *. destruct_world w. exec.
    cbn in Hz. subst.
    destruct cn as [c0|]; [destruct (default true (cs !! c0))|];
      constructor; exec; cur_auto.
  - clear Hwf Hs. unfold conn_open in *. destruct_world w. step_exec H.
    repeat case_match; exec_in_all; simplify_eq; constructor; exec; cur_auto.
  - clear Hwf Hs. unfold conn_open in *. destruct_world w. step_exec H.
    repeat case_match; exec_in_all; simplify_eq; constructor; exec; cur_auto.
  - clear Hwf Hs. unfold conn_open in *. destruct_world w. step_exec H.
    repeat case_match; exec_in_all; simplify_eq; constructor; exec; cur_auto.
  - clear Hwf Hs. unfold conn_open in *. destruct_world w. step_exec H.
    repeat case_match; exec_in_all; simplify_eq; constructor; exec; cur_auto.
  - clear Hwf Hs. unfold conn_open in *. destruct_world w. step_exec H.
    repeat case_match; exec_in_all; simplify_eq; constructor; exec; cur_auto.
  - clear Hwf Hs. unfold conn_open in *. destruct_world w. step_exec H.
    repeat case_match; exec_in_all; simplify_eq; constructor; exec; cur_auto.
  - apply step_Body in H as (_ & x & pc & Ha & Hg & [[_ ->]|[_ ->]]); [| |exact Hwf].
    + clear Hwf Hs. unfold conn_open in *. destruct_world w.
      constructor; exec; cur_auto.
    + clear Hwf Hs. unfold conn_open in *. destruct_world w.
      constructor; exec; cur_auto.
Qed.

Lemma current_run (sched : list Action) :
  forall w w', wf w -> sound w -> current w -> run env sched w = Some w' -> current w'.
Proof.
  induction sched as [|a rest IH]; intros w w' Hwf Hs Hc H; cbn in H.
  - injection H as <-. exact Hc.
  - destruct (step env a w) as [w1|] eqn:Hst; [|discriminate].
    eapply IH; [| | |exact H];
      [eapply wf_step|eapply sound_step|eapply current_step]; eauto.
Qed.

Lemma reachable_current (w : World) : reachable env w -> current w.
Proof.
  intros (c & sched & H).
  eapply current_run; [apply wf_boot|apply sound_boot|apply current_boot|exact H].
Qed.

End Current.

(** ** The error callback *)

Lemma reachable_errs_open (env : Env) (w : World) : reachable env w -> errs_open w.
Proof.
  intros Hr e He.
  pose proof (snd_errs_ref w (reachable_sound env w Hr) e He) as Hlt.
  destruct (lookup_lt_is_Some_2 _ _ Hlt) as [ch Hch].
  exists ch. split; [exact Hch|].
  destruct (Forall_lookup_1 _ _ _ _ (wf_errs w (reachable_wf env w Hr)) Hch) as (_ & _ & Hcl).
  exact Hcl.
Qed.

(** C5: for every fault delivered to the error callback in a reachable world
    (or in any world in which n.errs is nil or an open channel), the
    callback returns, so it never blocks. When a receiver waits in its select
    on the fault channel the fault goes to such a receiver; when none waits
    and the channel's buffer has a free slot the fault goes into the buffer;
    and only when none waits and no slot is free (or n.errs is nil) the
    world is left unchanged: the fault is dropped. *)
Theorem error_callback_never_blocks
  (env : Env) (c : ConnId) (s : option Subscription) (e : error) (w : World) :
  reachable env w \/ errs_open w ->
  exists w', natsErrHandler c s e w = Returns tt w' /\ handled (mkNatsError c s e) w w'.
Proof.
  intros [Hr|Hopen]; apply natsErrHandler_spec; [|exact Hopen].
  apply (reachable_errs_open env). exact Hr.
Qed.

Lemma error_callback_witness :
  exists w',
    natsErrHandler 0 (Some Double.sub0) Double.slow_consumer LoopExample.waiting
      = Returns tt w' /\
    handled (mkNatsError 0 (Some Double.sub0) Double.slow_consumer) LoopExample.waiting w'.
Proof.
  apply (error_callback_never_blocks Double.ok_env 0 (Some Double.sub0)
           Double.slow_consumer LoopExample.waiting).
  left. exists Double.plain, [AStart 7; AEnter 0]. vm_compute. reflexivity.
Defined.

(** C10: in every reachable world each fault channel has capacity zero and
    an empty buffer; so a run of the error callback changes the world only by
    handing the fault to a receiver that was waiting in its select on the
    fault channel, which it does whenever there is one; and when no receiver
    is waiting there (the loop is at the body of a case, or not yet back in
    the select) the fault is dropped. *)
Theorem fault_reaches_loop_only_when_waiting
  (env : Env) (c : ConnId) (s : option Subscription) (e : error) (w : World) :
  reachable env w ->
  (forall i ch, err_chans w !! i = Some ch -> ch_cap ch = 0 /\ ch_buf ch = []) /\
  exists w',
    natsErrHandler c s e w = Returns tt w' /\
    (w' = w \/
     exists g d i el,
       errs (n w) = Some el /\
       receivers w !! g = Some (RSelect d (Some el) i) /\
       w' = set_receivers (<[g := RGotErr (Some (mkNatsError c s e))]> (receivers w)) w) /\
    (forall g d i el,
       errs (n w) = Some el ->
       receivers w !! g = Some (RSelect d (Some el) i) ->
       exists g' d' i',
         receivers w !! g' = Some (RSelect d' (Some el) i') /\
         w' = set_receivers (<[g' := RGotErr (Some (mkNatsError c s e))]> (receivers w)) w) /\
    ((forall g d i, receivers w !! g <> Some (RSelect d (errs (n w)) i)) -> w' = w) /\
    (forall pc, receivers w = [pc] -> (forall d el i, pc <> RSelect d el i) -> w' = w).
Proof.
  intros Hr. pose proof (reachable_wf env w Hr) as Hwf.
  pose proof (wf_errs w Hwf) as He.
  assert (Hcap : forall i ch, err_chans w !! i = Some ch -> ch_cap ch = 0 /\ ch_buf ch = []).
  { intros i ch Hch. destruct (Forall_lookup_1 _ _ _ _ He Hch) as (? & ? & ?). auto. }
  split; [exact Hcap|].
  destruct (natsErrHandler_spec c s e w (reachable_errs_open env w Hr)) as (w' & Heq & Hh).
  exists w'. split; [exact Heq|].
  assert (Hcases : w' = w \/
     exists g d i el,
       errs (n w) = Some el /\
       receivers w !! g = Some (RSelect d (Some el) i) /\
       w' = set_receivers (<[g := RGotErr (Some (mkNatsError c s e))]> (receivers w)) w).
  { destruct Hh as [el g d i Hel Hg|el ch Hel Hch _ Hlt|_].
    - right. exists g, d, i, el. auto.
    - exfalso. destruct (Hcap el ch Hch) as [Hz _]. lia.
    - left. reflexivity. }
  split; [exact Hcases|].
  split.
  { intros g d i el Hel Hg.
    destruct Hh as [el' g' d' i' Hel' Hg'|el' ch Hel' Hch Hno _|Hdrop].
    - assert (el' = el) by congruence. subst el'. exists g', d', i'. auto.
    - assert (el' = el) by congruence. subst el'. exfalso. eapply Hno, Hg.
    - rewrite Hel in Hdrop. destruct Hdrop as [Hno _]. exfalso. eapply Hno, Hg. }
  assert (Hnone : (forall g d i, receivers w !! g <> Some (RSelect d (errs (n w)) i)) -> w' = w).
  { intros Hno. destruct Hcases as [?|(g & d & i & el & Hel & Hg & _)]; [assumption|].
    exfalso. apply (Hno g d i). rewrite Hel. exact Hg. }
  split; [exact Hnone|].
  intros pc Hpc Hnot. apply Hnone. intros g d i Hg. rewrite Hpc in Hg.
  destruct g as [|g]; [|destruct g; discriminate].
  injection Hg as ->. eapply Hnot. reflexivity.
Qed.

Lemma fault_reaches_loop_witness :
  let w := LoopExample.waiting in
  let f := mkNatsError 0 (Some Double.sub0) Double.slow_consumer in
  (forall i ch, err_chans w !! i = Some ch -> ch_cap ch = 0 /\ ch_buf ch = []) /\
  exists w',
    natsErrHandler 0 (Some Double.sub0) Double.slow_consumer w = Returns tt w' /\
    (w' = w \/
     exists g d i el,
       errs (n w) = Some el /\
       receivers w !! g = Some (RSelect d (Some el) i) /\
       w' = set_receivers (<[g := RGotErr (Some f)]> (receivers w)) w) /\
    (forall g d i el,
       errs (n w) = Some el ->
       receivers w !! g = Some (RSelect d (Some el) i) ->
       exists g' d' i',
         receivers w !! g' = Some (RSelect d' (Some el) i') /\
         w' = set_receivers (<[g' := RGotErr (Some f)]> (receivers w)) w) /\
    ((forall g d i, receivers w !! g <> Some (RSelect d (errs (n w)) i)) -> w' = w) /\
    (forall pc, receivers w = [pc] -> (forall d el i, pc <> RSelect d el i) -> w' = w).
Proof.
  apply (fault_reaches_loop_only_when_waiting Double.ok_env 0 (Some Double.sub0)
           Double.slow_consumer LoopExample.waiting).
  exists Double.plain, [AStart 7; AEnter 0]. vm_compute. reflexivity.
Defined.

(** ** Stop before Start *)

(** C9: in a live process, whatever its configuration, on whose instance no
    call of [Start] has returned nil (none was made, or every one failed),
    n.done is still the nil channel, and a call of [Stop] panics at
    close(n.done) with close of nil channel. *)
Theorem stop_before_start_panics
  (env : Env) (c : natsConsumer) (sched : list Action) (w : World) :
  run env sched (boot c) = Some w ->
  some_start_succeeded env sched (boot c) = false ->
  crashed w = None ->
  done_ (n w) = None /\
  exists w', step env AStopClose w = Some w' /\ crashed w' = Some "close of nil channel".
Proof.
  intros Hrun Hns Hlive.
  pose proof (wf_run env sched _ _ (wf_boot c) Hrun) as Hwf.
  pose proof (never_started_no_receiver env sched _ _ (wf_boot c) Hrun Hns) as Hlen.
  assert (Hnil : receivers w = []) by (destruct (receivers w); [reflexivity|discriminate]).
  assert (Hd : done_ (n w) = None).
  { destruct (done_ (n w)) eqn:E; [|reflexivity].
    exfalso. apply (wf_done w Hwf); [rewrite E; eauto|exact Hnil]. }
  assert (Hmu : mu (n w) = false).
  { destruct (mu (n w)) eqn:E; [|reflexivity].
    exfalso. apply (wf_lock w Hwf Hlive E). exact Hnil. }
  split; [exact Hd|].
  unfold step. rewrite Hlive. cbn [act]. unfold Stop_close, close_done, Lock, bind.
  rewrite Hmu. destruct_world w. exec. cbn in Hd. subst. cbn. eauto.
Qed.

Lemma stop_before_start_witness :
  done_ (n RefusedExample.refused) = None /\
  exists w', step Double.flaky_env AStopClose RefusedExample.refused = Some w'
             /\ crashed w' = Some "close of nil channel".
Proof.
  apply (stop_before_start_panics Double.flaky_env Double.plain [AStart 7]
           RefusedExample.refused);
    reflexivity.
Defined.

(** ** Stop after Stop *)

Lemma run_live (env : Env) (sched : list Action) :
  forall w w', run env sched w = Some w' -> crashed w' = None -> crashed w = None.
Proof.
  induction sched as [|a rest IH]; intros w w' H Hlive; cbn in H.
  - injection H as <-. exact Hlive.
  - unfold step in H. destruct (crashed w); [discriminate|reflexivity].
Qed.

Section Armed.

Variable env : Env.

Lemma armed_step (a : Action) (w w' : World) :
  wf w -> sound w -> armed w -> a <> AStopClose ->
  step env a w = Some w' -> crashed w' = None -> armed w'.
Proof.
  intros Hwf Hs [Hfree Hopen] Hne H Hlive'. unfold armed. destruct a; try congruence.
  - apply step_Start in H as (_ & _ & Hsr).
    destruct Hsr as [msg _ _|opts _ _ _|opts err _ _ _ _|opts r k tail _ _ _ _ _].
    + discriminate.
    + unfold launched, deref. clear Hwf Hs. destruct_world w. exec.
      split; [exact Hfree|]. rewrite lookup_app_r, Nat.sub_diag by lia. cbn. eauto.
    + clear Hwf Hs. destruct_world w. exec. auto.
    + unfold after_loop, launched, subscribed, dialled, deref. clear Hwf Hs.
      destruct_world w. destruct r; exec.
      * auto.
      * split; [exact Hfree|]. rewrite lookup_app_r, Nat.sub_diag by lia. cbn. eauto.
  - apply step_StopJoin in H as (_ & Hheld & _); [|exact Hwf]. congruence.
  - clear Hwf Hs. destruct_world w. step_exec H.
    repeat case_match; exec_in_all; simplify_eq; exec; auto.
  - clear Hwf Hs. destruct_world w. step_exec H.
    repeat case_match; exec_in_all; simplify_eq; exec; auto.
  - clear Hwf Hs. destruct_world w. step_exec H.
    repeat case_match; exec_in_all; simplify_eq; exec; auto.
  - pose proof (snd_done w Hs) as Hsd. clear Hwf Hs. destruct_world w. step_exec H.
    destruct Hopen as (c0 & Hc0 & Hcl0).
    repeat case_match; exec_in_all; simplify_eq; exec; try discriminate.
    all: split; [reflexivity|].
    all: unfold deref in *; destruct fd as [d0|]; [|discriminate].
    all: match goal with
         | |- context [<[?i := ?x]> ?h !! ?j] =>
             destruct (decide (i = j)) as [->|Hij];
             [ rewrite list_lookup_insert_eq by (eapply lookup_lt_Some; eauto);
               eexists; split; [reflexivity|]; simplify_eq; cbn; congruence
             | rewrite list_lookup_insert_ne by exact Hij; eauto ]
         end.
  - clear Hwf Hs. destruct_world w. step_exec H.
    repeat case_match; exec_in_all; simplify_eq; exec; auto.
  - clear Hwf Hs. destruct_world w. step_exec H.
    repeat case_match; exec_in_all; simplify_eq; exec; auto.
  - apply step_Body in H as (_ & x & pc & Ha & Hg & [[_ ->]|[_ ->]]); [| |exact Hwf].
    + discriminate.
    + clear Hwf Hs. destruct_world w. auto.
Qed.

Lemma armed_run (sched : list Action) :
  forall w w', wf w -> sound w -> armed w ->
    Forall (fun a => a <> AStopClose) sched ->
    run env sched w = Some w' -> crashed w' = None -> armed w'.
Proof.
  induction sched as [|a rest IH]; intros w w' Hwf Hs Ha Hn H Hlive; cbn in H.
  - injection H as <-. exact Ha.
  - destruct (step env a w) as [w1|] eqn:Hst; [|discriminate].
    inversion Hn as [|? ? Hna Hrest]; subst.
    pose proof (run_live env rest w1 w' H Hlive) as Hlive1.
    eapply IH; [| | |exact Hrest|exact H|exact Hlive];
      [eapply wf_step|eapply sound_step|eapply armed_step]; eauto.
Qed.

(** With n.done open and the lock free, [Stop] closes n.done. *)
Lemma Stop_close_armed (w : World) :
  armed w ->
  exists w2, Stop_close w = Returns tt w2 /\ ~ shutdown_closed w /\ shutdown_closed w2.
Proof.
  intros [Hfree (c & Hc & Hcl)].
  unfold Stop_close, close_done, Lock, bind, shutdown_closed, deref in *.
  rewrite Hfree. destruct_world w. exec.
  destruct fd as [d|]; [|discriminate]. cbn. rewrite Hc. cbn. rewrite Hcl.
  eexists. split; [reflexivity|]. split.
  - intros (c' & Hc' & Hcl'). congruence.
  - eexists. cbn. rewrite list_lookup_insert_eq by (eapply lookup_lt_Some; eauto).
    split; reflexivity.
Qed.

End Armed.

(** C1, as the code has it: on an instance of a live process, whatever its
    configuration, on which [Start] has returned nil and [Stop] has not been
    called since, the first [Stop] closes the shutdown channel, which was
    open. [Stop] has no guard: in every later world of the process in which
    the lock is free again (the first [Stop] has returned) and no [Start]
    has returned nil in between, a second [Stop] runs close(n.done) on the
    closed channel and panics with close of closed channel; the channel is
    not closed a second time because the process dies. *)
Theorem second_stop_panics
  (env : Env) (a : AccId) (w w1 w1' : World) (sched1 : list Action) :
  reachable env w ->
  crashed w = None ->
  Start env a w = Returns None w1 ->
  Forall (fun x => x <> AStopClose) sched1 ->
  run env sched1 w1 = Some w1' ->
  crashed w1' = None ->
  exists w2,
    Stop_close w1' = Returns tt w2 /\
    ~ shutdown_closed w1' /\
    shutdown_closed w2 /\
    forall sched w3,
      run env sched w2 = Some w3 ->
      some_start_succeeded env sched w2 = false ->
      crashed w3 = None ->
      mu (n w3) = false ->
      exists w4, step env AStopClose w3 = Some w4 /\
                 crashed w4 = Some "close of closed channel".
Proof.
  intros Hr Hlive HS Hn Hrun1 Hlive1.
  pose proof (reachable_wf env w Hr) as Hwf.
  pose proof (reachable_sound env w Hr) as Hs.
  assert (Hstep : step env (AStart a) w = Some w1).
  { unfold step. rewrite Hlive. cbn [act]. unfold bind. rewrite HS. reflexivity. }
  pose proof (wf_step env _ _ _ Hwf Hstep) as Hwf1.
  pose proof (sound_step env _ _ _ Hwf Hs Hstep) as Hs1.
  assert (Harmed : armed w1).
  { apply step_Start in Hstep as (_ & Hmu & Hsr). unfold armed, deref.
    destruct Hsr as [msg Hb HS'|opts Hb Hd HS'|opts err Hb Hd Hc HS'|opts r k tail Hb Hd Hc Hend HS'];
      rewrite HS' in HS; try discriminate.
    - unfold launched. destruct_world w. exec.
      split; [exact Hmu|]. rewrite lookup_app_r, Nat.sub_diag by lia. cbn. eauto.
    - injection HS as ->. unfold after_loop, launched, subscribed, dialled.
      destruct_world w. exec.
      split; [exact Hmu|]. rewrite lookup_app_r, Nat.sub_diag by lia. cbn. eauto. }
  pose proof (wf_run env sched1 w1 w1' Hwf1 Hrun1) as Hwf1'.
  pose proof (armed_run env sched1 w1 w1' Hwf1 Hs1 Harmed Hn Hrun1 Hlive1) as Harmed'.
  destruct (Stop_close_armed w1' Harmed') as (w2 & Hsc & Hopen & Hq).
  assert (Hwf2 : wf w2).
  { apply (wf_step env AStopClose w1'); [exact Hwf1'|].
    unfold step. cbn [act]. rewrite Hsc, Hlive1. reflexivity. }
  exists w2. split; [exact Hsc|]. split; [exact Hopen|]. split; [exact Hq|].
  intros sched w3 Hrun Hns Hlive3 Hmu3.
  pose proof (shutdown_closed_run env sched w2 w3 Hwf2 Hrun Hns Hq) as Hq3.
  unfold step. rewrite Hlive3. cbn [act].
  rewrite Stop_close_closed by assumption. eexists. split; reflexivity.
Qed.

Lemma second_stop_witness :
  exists w2,
    Stop_close LoopExample.dequeued = Returns tt w2 /\
    ~ shutdown_closed LoopExample.dequeued /\
    shutdown_closed w2 /\
    forall sched w3,
      run Double.ok_env sched w2 = Some w3 ->
      some_start_succeeded Double.ok_env sched w2 = false ->
      crashed w3 = None ->
      mu (n w3) = false ->
      exists w4, step Double.ok_env AStopClose w3 = Some w4 /\
                 crashed w4 = Some "close of closed channel".
Proof.
  apply (second_stop_panics Double.ok_env 7 (boot Double.plain) StartedExample.started
           LoopExample.dequeued [AEnter 0; ADeliver Double.m1; ACaseIn 0]).
  - exists Double.plain, []. reflexivity.
  - reflexivity.
  - vm_compute. reflexivity.
  - repeat constructor; discriminate.
  - vm_compute. reflexivity.
  - reflexivity.
Defined.

(** C1 as stated fails: [Start] succeeds, the first [Stop] runs to its end
    (the process is live and the lock is free), and the second [Stop] panics
    at close(n.done). *)
Lemma stop_twice_panics :
  exists w w',
    run Double.ok_env [AStart 7; AEnter 0; AStopClose; ACaseDone 0; AStopJoin]
        (boot Double.plain)
      = Some w /\
    crashed w = None /\ mu (n w) = false /\
    step Double.ok_env AStopClose w = Some w' /\
    crashed w' = Some "close of closed channel".
Proof.
  eexists _, _. split; [vm_compute; reflexivity|].
  split; [reflexivity|]. split; [reflexivity|]. split; [vm_compute; reflexivity|reflexivity].
Qed.

(** ** One dispatch loop at a time *)

Lemma older_last (rs : list RecvPC) (g : nat) (pc : RecvPC) :
  older_exited rs -> rs !! g = Some pc -> exited pc = false -> S g = length rs.
Proof.
  intros Ho Hg Hx. pose proof (lookup_lt_Some _ _ _ Hg).
  destruct (decide (S g < length rs)) as [Hlt|]; [|lia].
  rewrite (Ho g pc Hg Hlt) in Hx. discriminate.
Qed.

Lemma older_insert (rs : list RecvPC) (g : nat) (pc : RecvPC) :
  older_exited rs -> S g = length rs -> older_exited (<[g := pc]> rs).
Proof.
  intros Ho Hg g' x Hl Hlt. rewrite length_insert in Hlt.
  apply list_lookup_insert_Some in Hl as [(-> & _ & _)|(Hne & Hl)]; [lia|]. eauto.
Qed.

Lemma older_snoc (rs : list RecvPC) (pc : RecvPC) :
  total live rs = 0 -> older_exited (rs ++ [pc]).
Proof.
  intros H g x Hl Hlt. rewrite length_app in Hlt. cbn in Hlt.
  rewrite lookup_app_l in Hl by lia.
  exact (Forall_lookup_1 _ _ _ _ (total_live_zero rs H) Hl).
Qed.

Lemma last_insert_last {A : Type} (l : list A) (g : nat) (x : A) :
  S g = length l -> last (<[g := x]> l) = Some x.
Proof.
  intros H. rewrite last_lookup, length_insert, <- H. cbn.
  apply list_lookup_insert_eq. lia.
Qed.

Lemma last_of_lookup {A : Type} (l : list A) (g : nat) (x : A) :
  S g = length l -> l !! g = Some x -> last l = Some x.
Proof. intros H Hl. rewrite last_lookup, <- H. exact Hl. Qed.

Lemma last_all_exited (rs : list RecvPC) :
  total live rs = 0 -> last rs = None \/ last rs = Some RExited.
Proof.
  intros H. apply total_live_zero in H. destruct (last rs) as [pc|] eqn:Hl; auto.
  rewrite last_lookup in Hl. pose proof (Forall_lookup_1 _ _ _ _ H Hl) as Hx.
  destruct pc; try discriminate. auto.
Qed.

Lemma lookup_snoc {A : Type} (l : list A) (x : A) : (l ++ [x]) !! length l = Some x.
Proof. rewrite lookup_app_r, Nat.sub_diag by lia. reflexivity. Qed.

Section Serial.

Variable env : Env.

(** A step changes at most one receiver, one that has not returned, or
    launches a new one. *)
Lemma step_receivers_shape (a : Action) (w w' : World) :
  wf w -> step env a w = Some w' ->
  receivers w' = receivers w \/
  (start_succeeds env a w = true /\ receivers w' = receivers w ++ [RTop]) \/
  exists g pc pc', receivers w !! g = Some pc /\ exited pc = false /\
                   receivers w' = <[g := pc']> (receivers w).
Proof.
  intros Hwf H. destruct a.
  - apply step_Start in H as (Hlive & Hmu & Hsr). cbn [start_succeeds].
    destruct Hsr as [msg Hb HS|opts Hb Hd HS|opts err Hb Hd Hc HS|opts r k tail Hb Hd Hc Hend HS];
      rewrite HS.
    + left. destruct_world w. reflexivity.
    + right. left. unfold launched. destruct_world w. exec. auto.
    + left. destruct_world w. reflexivity.
    + unfold after_loop, launched, subscribed, dialled. destruct r; destruct_world w; exec;
        auto.
  - left. destruct_world w. step_exec H. repeat case_match; simplify_eq; exec; reflexivity.
  - left. apply step_StopJoin in H as (_ & _ & _ & es & _ & ->); [|exact Hwf].
    unfold joined. destruct_world w. exec. repeat case_match; exec; reflexivity.
  - left. destruct_world w. step_exec H. repeat case_match; simplify_eq; exec; reflexivity.
  - clear Hwf. destruct_world w. step_exec H.
    repeat case_match; simplify_eq; exec; auto.
    all: match goal with
         | H : waiting_on _ _ = Some _ |- _ =>
             apply waiting_on_Some in H as (? & ? & H)
         end.
    all: right; right; eauto 10.
  - clear Hwf. destruct_world w. step_exec H.
    repeat case_match; simplify_eq; exec; try discriminate; right; right; eauto 10.
  - clear Hwf. destruct_world w. step_exec H.
    repeat case_match; simplify_eq; exec; try discriminate; right; right; eauto 10.
  - clear Hwf. destruct_world w. step_exec H.
    repeat case_match; simplify_eq; exec; try discriminate; right; right; eauto 10.
  - clear Hwf. destruct_world w. step_exec H.
    repeat case_match; simplify_eq; exec; try discriminate; right; right; eauto 10.
  - apply step_Body in H as (_ & a & pc & _ & Hg & [[_ ->]|[Hpc ->]]); [| |exact Hwf].
    + left. destruct_world w. reflexivity.
    + right. right. exists g, pc, RTop.
      destruct Hpc as [(f & s & -> & _)|(m & ->)]; destruct_world w; auto.
Qed.

Lemma older_step (a : Action) (w w' : World) :
  wf w -> sound w -> older_exited (receivers w) ->
  (start_succeeds env a w = true -> wg (n w) = 0) ->
  step env a w = Some w' -> older_exited (receivers w').
Proof.
  intros Hwf Hs Ho Hser H.
  destruct (step_receivers_shape a w w' Hwf H)
    as [->|[(Hok & ->)|(g & pc & pc' & Hg & Hx & ->)]].
  - exact Ho.
  - apply older_snoc. rewrite <- (snd_wg w Hs). auto.
  - apply older_insert; [exact Ho|]. eapply older_last; eauto.
Qed.


Lemma step_in_chans (a : Action) (w w' : World) :
  wf w -> step env a w = Some w' -> length (in_chans w) <= length (in_chans w').
Proof.
  intros Hwf H. destruct a.
  - apply step_Start in H as (Hlive & Hmu & Hsr).
    destruct Hsr as [msg Hb HS|opts Hb Hd HS|opts err Hb Hd Hc HS|opts r k tail Hb Hd Hc Hend HS].
    + destruct_world w. cbn. lia.
    + unfold launched. destruct_world w. exec. lia.
    + destruct_world w. cbn. lia.
    + unfold after_loop, launched, subscribed, dialled. destruct r; destruct_world w; exec;
        rewrite length_app; lia.
  - destruct_world w. step_exec H. repeat case_match; simplify_eq; exec; lia.
  - apply step_StopJoin in H as (_ & _ & _ & es & _ & ->); [|exact Hwf].
    unfold joined. destruct_world w. exec. repeat case_match; exec; cbn; lia.
  - destruct_world w. step_exec H.
    repeat case_match; simplify_eq; exec; rewrite ?length_insert; lia.
  - destruct_world w. step_exec H.
    repeat case_match; simplify_eq; exec; rewrite ?length_insert; lia.
  - destruct_world w. step_exec H.
    repeat case_match; simplify_eq; exec; rewrite ?length_insert; lia.
  - destruct_world w. step_exec H.
    repeat case_match; simplify_eq; exec; rewrite ?length_insert; lia.
  - destruct_world w. step_exec H.
    repeat case_match; simplify_eq; exec; rewrite ?length_insert; lia.
  - destruct_world w. step_exec H.
    repeat case_match; simplify_eq; exec; rewrite ?length_insert; lia.
  - apply step_Body in H as (_ & a & pc & _ & _ & [[_ ->]|[_ ->]]); [| |exact Hwf].
    + destruct_world w. cbn. lia.
    + destruct_world w. cbn. lia.
Qed.

Lemma records_app (s1 s2 : list (AccId * SinkCall)) :
  records (s1 ++ s2) = records s1 ++ records s2.
Proof.
  induction s1 as [|[a [e|nm fs ts t]] rest IH]; cbn; [reflexivity|exact IH|].
  rewrite IH. reflexivity.
Qed.

Lemma records_errors (es : list (AccId * SinkCall)) :
  Forall is_error_call es -> records es = [].
Proof.
  induction 1 as [|[a [e|nm fs ts t]] rest Hx _ IH]; cbn; auto. destruct Hx.
Qed.

Lemma records_record_calls (a : AccId) (xs : list Metric) :
  records (map (record_call a) xs)
    = map (fun x => AddFields (Name x) (Fields x) (Tags x) (Time x)) xs.
Proof. induction xs as [|x rest IH]; cbn; [reflexivity|]. rewrite IH. reflexivity. Qed.

Lemma records_body_calls (a : AccId) (pc : RecvPC) :
  records (body_calls env a pc)
    = match pc with
      | RGotMsg (Some m) => forwarded env m
      | _ => []
      end.
Proof.
  destruct pc as [| | [f|] | [m|] |]; try reflexivity.
  - unfold body_calls. destruct (natsError_Error env f); reflexivity.
  - unfold body_calls, forwarded. rewrite records_app, records_record_calls.
    destruct (snd (Parse env (msg_Data m))); reflexivity.
Qed.

Lemma fifo_boot (c : natsConsumer) : fifo env [] (boot c).
Proof. exists []. cbn. auto using sublist_nil. Qed.

(** A step that leaves the forwarded records, the envelope in flight and
    the queue as they are. *)
Lemma fifo_keep (ms : list Msg) (w w' : World) :
  fifo env ms w ->
  records (sink w') = records (sink w) ->
  inflight w' = inflight w ->
  in_buf w' = in_buf w ->
  length (in_chans w) <= length (in_chans w') ->
  fifo env ms w'.
Proof.
  intros (p & Hsub & Hrec & Hex) Hr Hi Hb Hl. exists p. rewrite Hr, Hi, Hb.
  repeat split; auto. intros. apply Hex. lia.
Qed.

(** A redial: the queue is a new, empty one. *)
Lemma fifo_redial (ms : list Msg) (w w' : World) :
  fifo env ms w ->
  records (sink w') = records (sink w) ->
  inflight w' = inflight w ->
  in_buf w' = [] ->
  length (in_chans w') = S (length (in_chans w)) ->
  (in_chans w = [] -> in_buf w = []) ->
  fifo env ms w'.
Proof.
  intros (p & Hsub & Hrec & Hex) Hr Hi Hb Hl Hnil. exists p. rewrite Hr, Hi, Hb.
  split; [|split; [exact Hrec|]].
  - etrans; [|exact Hsub]. apply sublist_app; [reflexivity|].
    apply sublist_app; [reflexivity|]. apply sublist_nil_l.
  - intros Hle. assert (E : in_chans w = []).
    { destruct (in_chans w); [reflexivity|]. cbn in Hl. lia. }
    rewrite Hex, (Hnil E) by (rewrite E; cbn; lia). reflexivity.
Qed.

Ltac at_last Ho :=
  match goal with
  | Hg : ?rs !! ?g = Some ?pc |- _ =>
      lazymatch type of pc with
      | RecvPC =>
          let HS := fresh "HSg" in
          assert (HS : S g = length rs) by (exact (older_last rs g pc Ho Hg eq_refl));
          unfold inflight; exec;
          rewrite ?(last_insert_last _ _ _ HS), ?(last_of_lookup _ _ _ HS Hg)
      end
  end.

Lemma inflight_launched (rs : list RecvPC) :
  total live rs = 0 ->
  match last (rs ++ [RTop]) with
  | Some (RGotMsg (Some m)) => [m]
  | _ => []
  end
  = match last rs with
    | Some (RGotMsg (Some m)) => [m]
    | _ => []
    end.
Proof.
  intros H. rewrite last_snoc. destruct (last_all_exited rs H) as [->| ->]; reflexivity.
Qed.

Lemma fifo_step (a : Action) (ms : list Msg) (w w' : World) :
  wf w -> sound w -> current w -> older_exited (receivers w) ->
  (start_succeeds env a w = true -> wg (n w) = 0) ->
  fifo env ms w -> step env a w = Some w' ->
  fifo env (ms ++ delivered a) w'.
Proof.
  intros Hwf Hs Hcur Ho Hser Hf H. destruct a; cbn [delivered]; rewrite ?app_nil_r.
  - apply step_Start in H as (Hlive & Hmu & Hsr). cbn [start_succeeds] in Hser.
    pose proof (snd_wg w Hs) as Hwg.
    destruct Hsr as [msg Hb HS|opts Hb Hd HS|opts err Hb Hd Hc HS|opts r k tail Hb Hd Hc Hend HS];
      rewrite HS in Hser.
    + eapply fifo_keep; [exact Hf|..]; destruct_world w; reflexivity.
    + specialize (Hser eq_refl). rewrite Hser in Hwg.
      eapply fifo_keep; [exact Hf|..]; unfold launched; destruct_world w; exec;
        try reflexivity.
      unfold inflight. cbn [receivers]. apply inflight_launched. auto.
    + eapply fifo_keep; [exact Hf|..]; destruct_world w; reflexivity.
    + eapply fifo_redial; [exact Hf|..];
        unfold after_loop, launched, subscribed, dialled; destruct r;
        destruct_world w; exec; try reflexivity.
      all: try (rewrite length_app; cbn; lia).
      all: try (intros ->; unfold in_buf, deref; exec; destruct fi; reflexivity).
      all: try (unfold in_buf, deref; exec; rewrite lookup_snoc; reflexivity).
      specialize (Hser eq_refl). cbn in Hser. subst wgc.
      unfold inflight. cbn [receivers]. apply inflight_launched. auto.
  - eapply fifo_keep; [exact Hf|..]; clear Hwf Hs Hcur Ho Hser Hf;
      destruct_world w; step_exec H; repeat case_match; simplify_eq; exec; reflexivity.
  - apply step_StopJoin in H as (Hlive & Hmu & Hwg & es & Hes & ->); [|exact Hwf].
    eapply fifo_keep; [exact Hf|..]; clear Hwf Hs Hcur Ho Hser Hf; unfold joined;
      destruct_world w; exec.
    + repeat case_match; exec; rewrite records_app, (records_errors es Hes), app_nil_r;
        reflexivity.
    + repeat case_match; reflexivity.
    + repeat case_match; reflexivity.
    + repeat case_match; cbn; lia.
  - (* delivery *)
    pose proof (wf_in w Hwf) as Hi. destruct Hf as (p & Hsub & Hrec & Hex).
    clear Hwf Hs Hcur Ho Hser. destruct_world w. step_exec H.
    destruct fi as [i|]; [|discriminate].
    destruct (ic !! i) as [c|] eqn:Hc; [|discriminate].
    rewrite (Forall_lookup_1 _ _ _ _ Hi Hc) in H.
    destruct (decide (length (ch_buf c) < ch_cap c)); [|discriminate].
    simplify_eq.
    exists p. unfold inflight, in_buf, deref in *. exec. rewrite Hc in *.
    rewrite list_lookup_insert_eq by (eapply lookup_lt_Some; eauto). cbn [ch_buf].
    rewrite length_insert. rewrite !app_assoc.
    split; [apply sublist_app; [rewrite <- app_assoc; exact Hsub|reflexivity]|].
    split; [exact Hrec|]. intros Hle. rewrite (Hex Hle), !app_assoc. reflexivity.
  - (* a fault *)
    eapply fifo_keep; [exact Hf|..]; clear Hwf Hs Hcur Hser Hf;
      destruct_world w; step_exec H; repeat case_match; simplify_eq; exec;
      try reflexivity;
      try match goal with
          | H : waiting_on _ _ = Some _ |- _ =>
              apply waiting_on_Some in H as (? & ? & H)
          end;
      exec_in_all; try reflexivity.
    all: try (at_last Ho; reflexivity).
    all: rewrite ?length_insert; try lia.
  - eapply fifo_keep; [exact Hf|..]; clear Hwf Hs Hcur Hser Hf;
      destruct_world w; step_exec H; repeat case_match; simplify_eq; exec;
      try discriminate; try reflexivity.
    all: try (at_last Ho; reflexivity).
  - eapply fifo_keep; [exact Hf|..]; clear Hwf Hs Hcur Hser Hf;
      destruct_world w; step_exec H; repeat case_match; simplify_eq; exec;
      try discriminate; try reflexivity.
    all: try (at_last Ho; reflexivity).
  - eapply fifo_keep; [exact Hf|..]; clear Hwf Hs Hcur Hser Hf;
      destruct_world w; step_exec H; repeat case_match; simplify_eq; exec;
      try discriminate; try reflexivity.
    all: try (at_last Ho; reflexivity).
  - (* the message case *)
    destruct Hf as (p & Hsub & Hrec & Hex).
    pose proof (cur_last w Hcur) as Hsel.
    clear Hwf Hs Hcur Hser. destruct_world w. step_exec H.
    destruct (rs !! g) as [pc|] eqn:Hg; exec; [|discriminate].
    destruct pc as [|d e [i|]| | |]; exec; try discriminate.
    destruct (ic !! i) as [c|] eqn:Hc; exec; [|discriminate].
    assert (HSg : S g = length rs) by (exact (older_last rs g _ Ho Hg eq_refl)).
    destruct (Hsel d e (Some i) (last_of_lookup _ _ _ HSg Hg)) as (_ & _ & <-).
    clear Hsel. unfold inflight, in_buf, deref in *. exec.
    rewrite (last_of_lookup _ _ _ HSg Hg), Hc in *.
    destruct (ch_buf c) as [|m buf] eqn:Hbuf.
    + destruct (ch_closed c); [|discriminate]. simplify_eq.
      exists p. unfold inflight, in_buf, deref. exec.
      rewrite (last_insert_last _ _ _ HSg), length_insert.
      rewrite list_lookup_insert_eq by (eapply lookup_lt_Some; eauto). rewrite Hbuf. auto.
    + simplify_eq. exists p. unfold inflight, in_buf, deref. exec.
      rewrite (last_insert_last _ _ _ HSg), length_insert.
      rewrite list_lookup_insert_eq by (eapply lookup_lt_Some; eauto). cbn. auto.
  - (* the body of a case *)
    apply step_Body in H as (_ & a & pc & _ & Hg & [[_ ->]|[Hpc ->]]); [| |exact Hwf].
    + eapply fifo_keep; [exact Hf|..]; destruct_world w; reflexivity.
    + destruct Hf as (p & Hsub & Hrec & Hex).
      pose proof (records_body_calls a pc) as Hb.
      assert (Hx : exited pc = false)
        by (destruct Hpc as [(f & s & -> & _)|(m & ->)]; reflexivity).
      pose proof (older_last _ g pc Ho Hg Hx) as HSg.
      clear Hwf Hs Hcur Hser. destruct_world w. unfold inflight, in_buf, deref in *. exec.
      rewrite (last_of_lookup _ _ _ HSg Hg) in *.
      destruct Hpc as [(f & s & -> & _)|(m & ->)].
      * exists p. unfold inflight, in_buf, deref. exec.
        rewrite (last_insert_last _ _ _ HSg), records_app, Hb, app_nil_r. auto.
      * exists (p ++ [m]). unfold inflight, in_buf, deref. exec.
        rewrite (last_insert_last _ _ _ HSg), records_app, Hb, flat_map_app. cbn in *.
        rewrite app_nil_r, <- !app_assoc, Hrec. auto.
Qed.

Lemma fifo_run (sched : list Action) :
  forall ms w w',
    wf w -> sound w -> current w -> older_exited (receivers w) -> fifo env ms w ->
    serial env sched w = true ->
    run env sched w = Some w' ->
    older_exited (receivers w') /\ fifo env (ms ++ deliveries sched) w'.
Proof.
  induction sched as [|a rest IH]; intros ms w w' Hwf Hs Hcur Ho Hf Hser H;
    cbn in H, Hser.
  - injection H as <-. cbn. rewrite app_nil_r. auto.
  - destruct (step env a w) as [w1|] eqn:Hstep; [|discriminate].
    apply andb_true_iff in Hser as [Ha Hser].
    assert (Ha' : start_succeeds env a w = true -> wg (n w) = 0).
    { intros E. rewrite E in Ha. cbn in Ha. apply Nat.eqb_eq. exact Ha. }
    replace (ms ++ deliveries (a :: rest)) with ((ms ++ delivered a) ++ deliveries rest).
    2:{ rewrite <- app_assoc. destruct a; reflexivity. }
    eapply (IH _ w1 w');
      eauto using wf_step, sound_step, current_step, older_step, fifo_step.
Qed.

Lemma older_boot (c : natsConsumer) : older_exited (receivers (boot c)).
Proof. intros g pc H. discriminate. Qed.

End Serial.

(** C8: in a run in which no call of [Start] returns nil while a loop
    launched earlier still runs, so that a single dispatch loop runs at a
    time, the envelopes the loops have gone through, then the one in
    flight, then those queued in the message channel occur in this order
    among the envelopes delivered (the channel is FIFO and keeps the order
    of delivery), and the AddFields calls the sink has received are the
    records of the envelopes gone through, envelope by envelope in that
    order: the loop forwards every record of an envelope before it
    dequeues the next one. While a single message channel has been made no
    envelope is lost: the three lists together are the envelopes
    delivered. *)
Theorem records_follow_delivery_order (env : Env) (c : natsConsumer)
    (sched : list Action) (w : World) :
  run env sched (boot c) = Some w ->
  serial env sched (boot c) = true ->
  exists processed,
    sublist (processed ++ inflight w ++ in_buf w) (deliveries sched) /\
    records (sink w) = flat_map (forwarded env) processed /\
    (length (in_chans w) <= 1 ->
     deliveries sched = processed ++ inflight w ++ in_buf w).
Proof.
  intros Hrun Hser.
  exact (proj2 (fifo_run env sched [] (boot c) w (wf_boot c) (sound_boot c)
                  (current_boot c) (older_boot c) (fifo_boot env c) Hser Hrun)).
Qed.

Lemma records_follow_delivery_witness :
  exists processed,
    sublist (processed ++ inflight OrderExample.restarted ++ in_buf OrderExample.restarted)
            (deliveries OrderExample.across_restart) /\
    records (sink OrderExample.restarted) = flat_map (forwarded Double.ok_env) processed /\
    (length (in_chans OrderExample.restarted) <= 1 ->
     deliveries OrderExample.across_restart
       = processed ++ inflight OrderExample.restarted ++ in_buf OrderExample.restarted).
Proof.
  apply (records_follow_delivery_order Double.ok_env Double.plain
           OrderExample.across_restart OrderExample.restarted).
  - vm_compute. reflexivity.
  - vm_compute. reflexivity.
Defined.

(** C8, counterexample: nothing keeps [Start] from being called again while
    the loop runs; the second call returns nil too and launches a second
    loop on the same message channel. With two loops the record of the
    envelope delivered second reaches the sink before the record of the
    envelope delivered first. *)
Lemma two_loops_reorder_records :
  run Double.ok_env OrderExample.two_loops (boot Double.plain)
    = Some OrderExample.overtaken /\
  deliveries OrderExample.two_loops = [Double.m1; Double.m2] /\
  records (sink OrderExample.overtaken)
    = forwarded Double.ok_env Double.m2 ++ forwarded Double.ok_env Double.m1 /\
  forwarded Double.ok_env Double.m1 <> forwarded Double.ok_env Double.m2 /\
  ~ exists processed,
      sublist processed (deliveries OrderExample.two_loops) /\
      records (sink OrderExample.overtaken) = flat_map (forwarded Double.ok_env) processed.
Proof.
  split; [vm_compute; reflexivity|]. split; [reflexivity|].
  split; [vm_compute; reflexivity|]. split; [vm_compute; discriminate|].
  intros (p & Hsub & Hrec). cbn in Hsub.
  repeat match goal with
         | H : sublist _ (_ :: _) |- _ => inversion H; clear H; subst
         | H : sublist _ [] |- _ => apply sublist_nil_r in H; subst
         end;
    vm_compute in Hrec; discriminate.
Qed.

(** ** The loop after the shutdown channel is closed *)

Lemma total_live_exited (rs : list RecvPC) :
  Forall (fun pc => exited pc = true) rs -> total live rs = 0.
Proof.
  induction 1 as [|pc rs Hx _ IH]; [reflexivity|].
  cbn [total]. rewrite IH. unfold live. rewrite Hx. reflexivity.
Qed.

(** When every older receiver has returned, a receiver that has not is the
    only one the WaitGroup counts. *)
Lemma total_live_one (rs : list RecvPC) (g : nat) (pc : RecvPC) :
  older_exited rs -> rs !! g = Some pc -> exited pc = false -> total live rs = 1.
Proof.
  intros Ho Hg Hx. pose proof (older_last rs g pc Ho Hg Hx) as HSg.
  pose proof (sum_insert live rs g RExited pc Hg) as E.
  assert (Hz : total live (<[g := RExited]> rs) = 0).
  { apply total_live_exited, Forall_lookup_2. intros j x Hj.
    apply list_lookup_insert_Some in Hj as [(_ & <- & _)|(Hne & Hj)]; [reflexivity|].
    apply (Ho j x Hj). pose proof (lookup_lt_Some _ _ _ Hj). lia. }
  assert (H1 : live pc = 1) by (unfold live; rewrite Hx; reflexivity).
  assert (H0 : live RExited = 0) by reflexivity. lia.
Qed.

Section Shutdown.

Variable env : Env.

Ltac fuel_facts :=
  repeat match goal with
  | H : ?l !! ?i = Some ?y |- context [total ?f (<[?i := ?x]> ?l)] =>
      lazymatch goal with
      | _ : total f (<[i := x]> l) + f y = _ |- _ => fail
      | _ => pose proof (sum_insert f l i x y H)
      end
  end;
  cbn [weight length ch_buf] in *.

Lemma loop_step_fuel (a : Action) (w w' : World) :
  wf w -> is_loop_action a = true -> step env a w = Some w' ->
  crashed w' = None -> fuel w' < fuel w.
Proof.
  intros Hwf Ha H Hlive'. destruct a; try discriminate; clear Ha.
  - clear Hwf. destruct_world w. step_exec H.
    repeat case_match; simplify_eq. unfold fuel, buffered. exec. fuel_facts. lia.
  - clear Hwf. destruct_world w. step_exec H.
    repeat case_match; simplify_eq; unfold fuel, buffered; exec; fuel_facts;
      repeat match goal with E : ch_buf _ = _ |- _ => rewrite E in * end;
      cbn [length] in *; lia.
  - clear Hwf. destruct_world w. step_exec H.
    repeat case_match; simplify_eq; unfold fuel, buffered; exec; fuel_facts;
      repeat match goal with E : ch_buf _ = _ |- _ => rewrite E in * end;
      cbn [length] in *; lia.
  - clear Hwf. destruct_world w. step_exec H.
    repeat case_match; simplify_eq; unfold fuel, buffered; exec; fuel_facts;
      repeat match goal with E : ch_buf _ = _ |- _ => rewrite E in * end;
      cbn [length] in *; lia.
  - apply step_Body in H as (_ & a & pc & _ & Hg & [[_ ->]|[Hpc ->]]); [| |exact Hwf].
    + destruct_world w. discriminate.
    + clear Hwf. destruct_world w. unfold fuel, buffered. exec. fuel_facts.
      destruct Hpc as [(f & s & -> & _)|(m & ->)]; cbn [weight] in *; lia.
Qed.

Lemma loop_run_bounded (sched : list Action) :
  forall w w', wf w ->
    Forall (fun a => is_loop_action a = true) sched ->
    run env sched w = Some w' ->
    length sched <= fuel w + 1.
Proof.
  induction sched as [|a rest IH]; intros w w' Hwf Hall H; [cbn; lia|].
  cbn [run] in H.
  destruct (step env a w) as [w1|] eqn:Hs; [|discriminate].
  apply Forall_cons in Hall as [Ha Hrest].
  destruct rest as [|b rest]; [cbn [length]; lia|].
  assert (Hlive1 : crashed w1 = None).
  { cbn [run] in H. unfold step in H at 1. destruct (crashed w1); [discriminate|reflexivity]. }
  pose proof (loop_step_fuel a w w1 Hwf Ha Hs Hlive1) as Hlt.
  pose proof (IH w1 w' (wf_step env a w w1 Hwf Hs) Hrest H) as Hle.
  cbn [length] in *. lia.
Qed.

(** With the shutdown channel closed, the loop launched last, waiting in
    its select, can take the shutdown case: it returns, the WaitGroup drops
    to zero, and neither the sink nor the message channels are touched. *)
Lemma shutdown_case_ready (w : World) (g : nat) (d e i : option nat) :
  sound w -> current w -> older_exited (receivers w) ->
  crashed w = None -> shutdown_closed w ->
  receivers w !! g = Some (RSelect d e i) ->
  exists w',
    step env (ACaseDone g) w = Some w' /\
    receivers w' = <[g := RExited]> (receivers w) /\
    wg (n w') = 0 /\ crashed w' = None /\
    mu (n w') = mu (n w) /\
    sink w' = sink w /\ in_chans w' = in_chans w.
Proof.
  intros Hs Hcur Ho Hlive (c & Hc & Hcl) Hg.
  pose proof (older_last _ g _ Ho Hg eq_refl) as HSg.
  destruct (cur_last w Hcur d e i (last_of_lookup _ _ _ HSg Hg)) as (-> & _ & _).
  pose proof (snd_wg w Hs) as Hwg.
  rewrite (total_live_one _ g _ Ho Hg eq_refl) in Hwg.
  clear Hs Hcur Ho.
  unfold step. rewrite Hlive. cbn [act].
  unfold receiver_case_done, pc_of, set_pc, chan_recv, wg_Done, deref in *.
  destruct_world w. exec. cbn in Hwg, Hlive. subst. rewrite Hg. exec.
  destruct fd as [d|]; [|discriminate]. exec. rewrite Hc. exec. rewrite Hcl.
  destruct (ch_buf c); exec; eexists; (split; [reflexivity|]); cbn; auto 10.
Qed.

(** The body of a case can always run. *)
Lemma step_Body_enabled (w : World) (g : nat) (pc : RecvPC) :
  wf w -> crashed w = None -> receivers w !! g = Some pc ->
  (exists v, pc = RGotErr v) \/ (exists v, pc = RGotMsg v) ->
  exists w', step env (ABody g) w = Some w'.
Proof.
  intros Hwf Hlive Hg Hpc.
  assert (Hnn : receivers w <> []) by (intros E; rewrite E, lookup_nil in Hg; discriminate).
  destruct (wf_acc w Hwf Hnn) as [a Ha].
  unfold step. rewrite Hlive. cbn [act].
  destruct Hpc as [[v ->]|[v ->]].
  - unfold receiver_body, receiver_err_body, pc_of, set_pc. exec. rewrite Hg. cbn.
    destruct v as [f|]; exec; [|eauto].
    unfold natsError_Error. destruct (ne_sub f) as [s0|]; exec; [rewrite Ha|]; eauto.
  - unfold receiver_body, pc_of, set_pc. exec. rewrite Hg. cbn.
    destruct v as [m|].
    + rewrite receiver_msg_body_spec with (a := a) by exact Ha. eauto.
    + cbn. eauto.
Qed.

(** A loop that has not returned can always take a step once the shutdown
    channel is closed. *)
Lemma loop_never_stuck (w : World) (g : nat) (pc : RecvPC) :
  wf w -> sound w -> current w -> older_exited (receivers w) ->
  crashed w = None -> shutdown_closed w ->
  receivers w !! g = Some pc -> exited pc = false ->
  exists a w', is_loop_action a = true /\ step env a w = Some w'.
Proof.
  intros Hwf Hs Hcur Ho Hlive Hq Hg Hpc.
  destruct pc as [|d e i|v|v|]; try discriminate.
  - exists (AEnter g). unfold step. rewrite Hlive. cbn [act].
    unfold receiver_enter, pc_of, set_pc. exec. rewrite Hg. cbn. eauto.
  - destruct (shutdown_case_ready w g d e i Hs Hcur Ho Hlive Hq Hg) as (w' & Hstep & _).
    exists (ACaseDone g), w'. auto.
  - destruct (step_Body_enabled w g _ Hwf Hlive Hg) as [w' Hstep]; eauto.
    exists (ABody g), w'. auto.
  - destruct (step_Body_enabled w g _ Hwf Hlive Hg) as [w' Hstep]; eauto.
    exists (ABody g), w'. auto.
Qed.

(** Once the WaitGroup is at zero, a [Stop] holding the lock gets through
    its wait and returns. *)
Lemma StopJoin_enabled (w : World) :
  wf w -> crashed w = None -> mu (n w) = true -> wg (n w) = 0 ->
  exists es, step env AStopJoin w = Some (joined es w).
Proof.
  intros Hwf Hlive Hmu Hwg.
  destruct (wf_acc w Hwf (wf_lock w Hwf Hlive Hmu)) as [a Ha].
  unfold step. rewrite Hlive. cbn [act]. unfold Stop_join, clean, IsClosed, Close, broker_call.
  destruct_world w. exec. cbn in Hmu, Hwg, Ha. subst. exec.
  match goal with |- context [unsubscribe_all env ?l ?w1] =>
    destruct (unsubscribe_all_spec env a l w1 eq_refl) as (es & Heq & Hes); rewrite Heq
  end.
  exists es. unfold joined. exec.
  destruct cn as [c0|]; exec; [|reflexivity].
  destruct (default true (cs !! c0)); exec; reflexivity.
Qed.

(** Only the body of a message case forwards a record. *)
Lemma step_records (a : Action) (w w' : World) :
  wf w -> step env a w = Some w' ->
  records (sink w') = records (sink w) \/
  exists g m, a = ABody g /\ receivers w !! g = Some (RGotMsg (Some m)).
Proof.
  intros Hwf H. destruct a.
  - left. apply step_Start in H as (Hlive & Hmu & Hsr).
    destruct Hsr as [msg Hb HS|opts Hb Hd HS|opts err Hb Hd Hc HS|opts r k tail Hb Hd Hc Hend HS].
    + destruct_world w. reflexivity.
    + unfold launched. destruct_world w. reflexivity.
    + destruct_world w. reflexivity.
    + unfold after_loop, launched, subscribed, dialled. destruct r; destruct_world w;
        reflexivity.
  - left. destruct_world w. step_exec H. repeat case_match; simplify_eq; reflexivity.
  - left. apply step_StopJoin in H as (_ & _ & _ & es & Hes & ->); [|exact Hwf].
    unfold joined. destruct_world w. exec.
    repeat case_match; exec; rewrite records_app, (records_errors es Hes), app_nil_r;
      reflexivity.
  - left. destruct_world w. step_exec H. repeat case_match; simplify_eq; reflexivity.
  - left. destruct_world w. step_exec H. repeat case_match; simplify_eq; reflexivity.
  - left. destruct_world w. step_exec H. repeat case_match; simplify_eq; reflexivity.
  - left. destruct_world w. step_exec H. repeat case_match; simplify_eq; reflexivity.
  - left. destruct_world w. step_exec H. repeat case_match; simplify_eq; reflexivity.
  - left. destruct_world w. step_exec H. repeat case_match; simplify_eq; reflexivity.
  - apply step_Body in H as (_ & a & pc & _ & Hg & [[_ ->]|[Hpc ->]]); [| |exact Hwf].
    + left. destruct_world w. reflexivity.
    + destruct Hpc as [(f & s & -> & _)|(m & ->)]; [left|right; eauto].
      pose proof (records_body_calls env a (RGotErr (Some f))) as Hb.
      destruct_world w. exec. rewrite records_app, Hb, app_nil_r. reflexivity.
Qed.

(** After the loops have returned nothing more is forwarded until a call of
    [Start] launches a new one: whatever is still queued stays in its
    channel. *)
Lemma exited_step (a : Action) (w w' : World) :
  wf w -> total live (receivers w) = 0 -> step env a w = Some w' ->
  start_succeeds env a w = false ->
  receivers w' = receivers w /\ records (sink w') = records (sink w).
Proof.
  intros Hwf Hz H Hns. pose proof (total_live_zero _ Hz) as Hall. split.
  - destruct (step_receivers_shape env a w w' Hwf H)
      as [E|[(Hok & _)|(g & pc & pc' & Hg & Hx & _)]]; [exact E|congruence|].
    rewrite (Forall_lookup_1 _ _ _ _ Hall Hg) in Hx. discriminate.
  - destruct (step_records a w w' Hwf H) as [E|(g & m & _ & Hg)]; [exact E|].
    pose proof (Forall_lookup_1 _ _ _ _ Hall Hg) as Hx. discriminate.
Qed.

Lemma exited_run (sched : list Action) :
  forall w w', wf w -> total live (receivers w) = 0 -> run env sched w = Some w' ->
    some_start_succeeded env sched w = false ->
    receivers w' = receivers w /\ records (sink w') = records (sink w).
Proof.
  induction sched as [|a rest IH]; intros w w' Hwf Hz H Hns; cbn in H, Hns.
  - injection H as <-. auto.
  - destruct (step env a w) as [w1|] eqn:Hs; [|discriminate].
    apply orb_false_iff in Hns as [Ha Hns].
    pose proof (wf_step env a w w1 Hwf Hs) as Hwf1.
    destruct (exited_step a w w1 Hwf Hz Hs Ha) as [Hr1 Hrec1].
    rewrite <- Hr1 in Hz.
    destruct (IH w1 w' Hwf1 Hz H Hns) as [Hr' Hrec']. split; congruence.
Qed.


Lemma step_Enter (w : World) (g : nat) :
  crashed w = None -> receivers w !! g = Some RTop ->
  step env (AEnter g) w
    = Some (set_receivers
              (<[g := RSelect (done_ (n w)) (errs (n w)) (in_ (n w))]> (receivers w)) w).
Proof.
  intros Hlive Hg. unfold step. rewrite Hlive. cbn [act].
  unfold receiver_enter, pc_of, set_pc. exec. rewrite Hg. reflexivity.
Qed.

Lemma lookup_insert_here {A : Type} (l : list A) (g : nat) (x y : A) :
  l !! g = Some x -> <[g := y]> l !! g = Some y.
Proof. intros H. apply list_lookup_insert_eq. eapply lookup_lt_Some; eauto. Qed.

(** With the shutdown channel closed, the loop launched last can return
    within three steps of its own: it finishes the case it is in, enters
    the select and takes the shutdown case. A fault without a subscription
    ends the process in the body of the fault case instead. *)
Lemma loop_can_return (w : World) (g : nat) (pc : RecvPC) :
  wf w -> sound w -> current w -> older_exited (receivers w) ->
  crashed w = None -> shutdown_closed w ->
  receivers w !! g = Some pc -> exited pc = false ->
  exists sched' w',
    Forall (fun a => is_loop_action a = true) sched' /\
    length sched' <= 3 /\
    run env sched' w = Some w' /\
    (crashed w' = Some nil_dereference \/ (crashed w' = None /\ wg (n w') = 0)).
Proof.
  assert (Hsel : forall w g d e i,
    wf w -> sound w -> current w -> older_exited (receivers w) ->
    crashed w = None -> shutdown_closed w ->
    receivers w !! g = Some (RSelect d e i) ->
    exists w', run env [ACaseDone g] w = Some w' /\ crashed w' = None /\ wg (n w') = 0).
  { clear w g pc. intros w g d e i _ Hs Hcur Ho Hlive Hq Hg.
    destruct (shutdown_case_ready w g d e i Hs Hcur Ho Hlive Hq Hg)
      as (w' & Hstep & _ & Hwg & Hlive' & _).
    exists w'. cbn. rewrite Hstep. auto. }
  assert (Htop : forall w g,
    wf w -> sound w -> current w -> older_exited (receivers w) ->
    crashed w = None -> shutdown_closed w ->
    receivers w !! g = Some RTop ->
    exists w', run env [AEnter g; ACaseDone g] w = Some w' /\
               crashed w' = None /\ wg (n w') = 0).
  { clear w g pc. intros w g Hwf Hs Hcur Ho Hlive Hq Hg.
    pose proof (step_Enter w g Hlive Hg) as Hstep.
    set (w1 := set_receivers _ w) in Hstep.
    destruct (Hsel w1 g (done_ (n w)) (errs (n w)) (in_ (n w))) as (w' & Hrun & Hw').
    - eapply wf_step; eauto.
    - eapply sound_step; eauto.
    - eapply current_step; eauto.
    - eapply older_step; eauto. discriminate.
    - subst w1. destruct_world w. exact Hlive.
    - eapply shutdown_closed_step; eauto.
    - subst w1. destruct_world w. cbn in *. eapply lookup_insert_here; eauto.
    - exists w'. cbn [run]. rewrite Hstep. auto. }
  assert (Hbody : forall w g pc,
    wf w -> sound w -> current w -> older_exited (receivers w) ->
    crashed w = None -> shutdown_closed w ->
    receivers w !! g = Some pc ->
    (exists v, pc = RGotErr v) \/ (exists v, pc = RGotMsg v) ->
    exists sched' w',
      Forall (fun a => is_loop_action a = true) sched' /\
      length sched' <= 3 /\
      run env sched' w = Some w' /\
      (crashed w' = Some nil_dereference \/ (crashed w' = None /\ wg (n w') = 0))).
  { clear w g pc. intros w g pc Hwf Hs Hcur Ho Hlive Hq Hg Hpc.
    destruct (step_Body_enabled w g pc Hwf Hlive Hg Hpc) as [w1 Hstep].
    assert (Hx : exited pc = false) by (destruct Hpc as [[v ->]|[v ->]]; reflexivity).
    pose proof (step_Body env g w w1 Hwf Hstep)
      as (_ & a & pc' & _ & Hg' & [[_ E]|[_ E]]).
    - exists [ABody g], w1. split; [repeat constructor|]. split; [cbn; lia|].
      split; [cbn; rewrite Hstep; reflexivity|]. left. subst w1. destruct_world w.
      reflexivity.
    - destruct (Htop w1 g) as (w' & Hrun & Hw').
      + eapply wf_step; eauto.
      + eapply sound_step; eauto.
      + eapply current_step; eauto.
      + eapply older_step; eauto. discriminate.
      + subst w1. destruct_world w. exact Hlive.
      + eapply shutdown_closed_step; eauto.
      + subst w1. destruct_world w. cbn in *. eapply lookup_insert_here; eauto.
      + exists [ABody g; AEnter g; ACaseDone g], w'.
        split; [repeat constructor|]. split; [cbn; lia|].
        split; [cbn [run]; rewrite Hstep; exact Hrun|]. auto. }
  intros Hwf Hs Hcur Ho Hlive Hq Hg Hpc.
  destruct pc as [|d e i|v|v|]; try discriminate.
  - destruct (Htop w g Hwf Hs Hcur Ho Hlive Hq Hg) as (w' & Hrun & Hw').
    exists [AEnter g; ACaseDone g], w'. repeat split; auto; cbn; lia.
  - destruct (Hsel w g d e i Hwf Hs Hcur Ho Hlive Hq Hg) as (w' & Hrun & Hw').
    exists [ACaseDone g], w'. repeat split; auto; cbn; lia.
  - eapply Hbody; eauto.
  - eapply Hbody; eauto.
Qed.

End Shutdown.

(** C7, as the code has it. Take any world a run reaches, after restarts
    too, in which the shutdown channel is closed and every loop but the one
    launched last has returned. A loop that has not returned is never stuck,
    and within three steps of its own it returns (or ends the process on a
    fault without a subscription); whenever it waits in its select it can
    take the shutdown case, and then it returns without a call on the sink
    and without touching the message channels, the WaitGroup drops to zero
    and a [Stop] that holds the lock gets through its wait; the loop takes
    only a bounded number of steps while nothing else runs; and once the
    WaitGroup is at zero no record is forwarded until a call of [Start]
    launches a new loop, so the envelopes still queued are dropped. The
    select takes any ready case, so this does not say that the shutdown
    case is the one taken first. *)
Theorem shutdown_ends_the_loop (env : Env) (w : World) :
  reachable env w ->
  crashed w = None ->
  shutdown_closed w ->
  older_exited (receivers w) ->
  (forall g pc, receivers w !! g = Some pc -> exited pc = false ->
     (exists a w', is_loop_action a = true /\ step env a w = Some w') /\
     (exists sched' w',
        Forall (fun a => is_loop_action a = true) sched' /\
        length sched' <= 3 /\
        run env sched' w = Some w' /\
        (crashed w' = Some nil_dereference \/ (crashed w' = None /\ wg (n w') = 0)))) /\
  (forall g d e i, receivers w !! g = Some (RSelect d e i) ->
     exists w',
       step env (ACaseDone g) w = Some w' /\
       receivers w' = <[g := RExited]> (receivers w) /\
       wg (n w') = 0 /\ crashed w' = None /\
       sink w' = sink w /\ in_chans w' = in_chans w /\
       (mu (n w) = true -> exists es, step env AStopJoin w' = Some (joined es w'))) /\
  (forall sched' w',
     Forall (fun a => is_loop_action a = true) sched' ->
     run env sched' w = Some w' ->
     length sched' <= fuel w + 1) /\
  (wg (n w) = 0 ->
   forall sched' w',
     run env sched' w = Some w' -> some_start_succeeded env sched' w = false ->
     records (sink w') = records (sink w)).
Proof.
  intros Hr Hlive Hq Ho.
  pose proof (reachable_wf env w Hr) as Hwf.
  pose proof (reachable_sound env w Hr) as Hs.
  pose proof (reachable_current env w Hr) as Hcur.
  split; [|split; [|split]].
  - intros g pc Hg Hpc. split.
    + eapply loop_never_stuck; eauto.
    + eapply loop_can_return; eauto.
  - intros g d e i Hg.
    destruct (shutdown_case_ready env w g d e i Hs Hcur Ho Hlive Hq Hg)
      as (w' & Hstep & Hr' & Hwg & Hlive' & Hmu & Hsink & Hin).
    exists w'. repeat (split; [assumption|]).
    intros Hheld. apply StopJoin_enabled; try assumption.
    + eapply wf_step; eauto.
    + congruence.
  - intros sched' w' Hall Hrun'. eapply loop_run_bounded; eauto.
  - intros Hwg sched' w' Hrun' Hns.
    rewrite (snd_wg w Hs) in Hwg.
    exact (proj2 (exited_run env sched' w w' Hwf Hwg Hrun' Hns)).
Qed.

Lemma shutdown_ends_the_loop_witness :
  let w := ShutdownExample.signalled_again in
  let env := Double.ok_env in
  (forall g pc, receivers w !! g = Some pc -> exited pc = false ->
     (exists a w', is_loop_action a = true /\ step env a w = Some w') /\
     (exists sched' w',
        Forall (fun a => is_loop_action a = true) sched' /\
        length sched' <= 3 /\
        run env sched' w = Some w' /\
        (crashed w' = Some nil_dereference \/ (crashed w' = None /\ wg (n w') = 0)))) /\
  (forall g d e i, receivers w !! g = Some (RSelect d e i) ->
     exists w',
       step env (ACaseDone g) w = Some w' /\
       receivers w' = <[g := RExited]> (receivers w) /\
       wg (n w') = 0 /\ crashed w' = None /\
       sink w' = sink w /\ in_chans w' = in_chans w /\
       (mu (n w) = true -> exists es, step env AStopJoin w' = Some (joined es w'))) /\
  (forall sched' w',
     Forall (fun a => is_loop_action a = true) sched' ->
     run env sched' w = Some w' ->
     length sched' <= fuel w + 1) /\
  (wg (n w) = 0 ->
   forall sched' w',
     run env sched' w = Some w' -> some_start_succeeded env sched' w = false ->
     records (sink w') = records (sink w)).
Proof.
  apply (shutdown_ends_the_loop Double.ok_env ShutdownExample.signalled_again).
  - exists Double.plain, ShutdownExample.again_sched. vm_compute. reflexivity.
  - reflexivity.
  - eexists. split; reflexivity.
  - intros g pc Hg Hlt. destruct g as [|[|g]]; cbn in Hg, Hlt; [|lia|lia].
    injection Hg as <-. reflexivity.
Defined.

(** C7 as stated fails, in both halves. [m1] is queued and the shutdown
    channel is closed when the loop enters its select; both cases are
    ready, the loop takes the message case and forwards the record of [m1]
    to the sink. And nothing keeps [Start] from launching a second loop
    while the first waits in its select: [Stop] then closes the shutdown
    channel the second call made, the second loop returns, and the first
    still waits on the channel of the first call, which nothing closes; the
    WaitGroup stays at one, and unless the broker delivers an envelope or
    reports a fault no step is possible: [Stop] waits for ever. *)
Lemma shutdown_neither_drops_nor_always_ends :
  (exists w1 w2,
     run Double.ok_env ShutdownExample.signalled_sched (boot Double.plain) = Some w1 /\
     shutdown_closed w1 /\
     in_buf w1 = [Double.m1] /\
     sink w1 = [] /\
     run Double.ok_env [ACaseIn 0; ABody 0] w1 = Some w2 /\
     sink w2 = [(7, AddFields "cpu" [("bytes", FInt 1)] [("host", "a")] 0)]) /\
  (run Double.ok_env ShutdownExample.hung_sched (boot Double.plain)
     = Some ShutdownExample.hung /\
   crashed ShutdownExample.hung = None /\
   shutdown_closed ShutdownExample.hung /\
   mu (n ShutdownExample.hung) = true /\
   wg (n ShutdownExample.hung) = 1 /\
   receivers ShutdownExample.hung = [RSelect (Some 0) (Some 0) (Some 0); RExited] /\
   forall a, (forall m, a <> ADeliver m) -> (forall c s e, a <> AFault c s e) ->
             step Double.ok_env a ShutdownExample.hung = None).
Proof.
  split.
  - exists ShutdownExample.signalled. eexists.
    split; [vm_compute; reflexivity|].
    split; [eexists; split; reflexivity|].
    split; [reflexivity|]. split; [reflexivity|].
    split; [vm_compute; reflexivity|reflexivity].
  - split; [vm_compute; reflexivity|]. split; [reflexivity|].
    split; [eexists; split; reflexivity|].
    split; [reflexivity|]. split; [reflexivity|]. split; [reflexivity|].
    intros a Hd Hf. destruct a as [x| | |m|c s e|g|g|g|g|g].
    + reflexivity.
    + reflexivity.
    + reflexivity.
    + destruct (Hd m eq_refl).
    + destruct (Hf c s e eq_refl).
    + destruct g as [|[|g]]; reflexivity.
    + destruct g as [|[|g]]; reflexivity.
    + destruct g as [|[|g]]; reflexivity.
    + destruct g as [|[|g]]; reflexivity.
    + destruct g as [|[|g]]; reflexivity.
Qed.

(** * Further properties of the plugin *)

(** ** Texts *)

Lemma string_app_assoc (s1 s2 s3 : string) :
  (s1 +:+ s2) +:+ s3 = s1 +:+ s2 +:+ s3.
Proof.
  induction s1 as [|ch s1 IH]; [reflexivity|].
  change (String ch ((s1 +:+ s2) +:+ s3) = String ch (s1 +:+ s2 +:+ s3)).
  rewrite IH. reflexivity.
Qed.

Lemma string_app_nil_r (s : string) : s +:+ "" = s.
Proof.
  induction s as [|ch s IH]; [reflexivity|].
  change (String ch (s +:+ "") = String ch s). rewrite IH. reflexivity.
Qed.

Lemma contains_refl_l (s post : string) : contains (s +:+ post) s.
Proof. exists "", post. reflexivity. Qed.

Lemma contains_app_l (p t s : string) : contains t s -> contains (p +:+ t) s.
Proof.
  intros (pre & post & ->). exists (p +:+ pre), post.
  rewrite string_app_assoc. reflexivity.
Qed.

Lemma contains_app_r (t q s : string) : contains t s -> contains (t +:+ q) s.
Proof.
  intros (pre & post & ->). exists pre, (post +:+ q).
  rewrite !string_app_assoc. reflexivity.
Qed.

(** [natsError.Error()] names the underlying error, the server and the
    subscription. *)
Lemma natsError_Error_context (env : Env) (f : natsError) (s : Subscription) :
  ne_sub f = Some s ->
  exists text,
    natsError_Error env f = Some text /\
    contains text (ne_err f) /\
    contains text (ConnectedUrl env (ne_conn f)) /\
    contains text (ConnectedServerId env (ne_conn f)) /\
    contains text (sub_Subject s) /\
    contains text (sub_Queue s).
Proof.
  intros Hs. unfold natsError_Error. rewrite Hs. eexists. split; [reflexivity|].
  repeat split.
  - apply contains_refl_l.
  - do 2 apply contains_app_l. apply contains_refl_l.
  - do 4 apply contains_app_l. apply contains_refl_l.
  - do 6 apply contains_app_l. apply contains_refl_l.
  - do 8 apply contains_app_l. exists "", "". rewrite string_app_nil_r.
    reflexivity.
Qed.

(** ** The bodies of the loop's cases *)

(** X1: when the loop runs the body of the fault case for a fault it has
    received, what happens depends on the subscription the client passed
    with the fault. With a subscription, the sink gets exactly one AddError,
    whose text names the underlying error, the server URL and id, the
    subject and the queue group; no record is added and the loop goes back
    to the head of the loop. With a nil subscription, building the text
    dereferences it: the process dies with a nil pointer dereference and
    the sink gets nothing. *)
Theorem fault_body_reports_context
  (env : Env) (g : nat) (f : natsError) (a : AccId) (w : World) :
  crashed w = None ->
  receivers w !! g = Some (RGotErr (Some f)) ->
  acc (n w) = Some a ->
  match ne_sub f with
  | Some s =>
      exists text,
        contains text (ne_err f) /\
        contains text (ConnectedUrl env (ne_conn f)) /\
        contains text (ConnectedServerId env (ne_conn f)) /\
        contains text (sub_Subject s) /\
        contains text (sub_Queue s) /\
        step env (ABody g) w
          = Some (set_receivers (<[g := RTop]> (receivers w))
                    (set_sink (sink w ++ [(a, AddError text)]) w))
  | None =>
      step env (ABody g) w = Some (set_crashed (Some nil_dereference) w)
  end.
Proof.
  intros Hlive Hg Ha. destruct (ne_sub f) as [s|] eqn:Hs.
  - destruct (natsError_Error_context env f s Hs) as (text & Ht & H1 & H2 & H3 & H4 & H5).
    exists ("E! error reading from " +:+ text +:+ newline).
    repeat (split; [apply contains_app_l, contains_app_r; assumption|]).
    unfold step. rewrite Hlive. cbn [act].
    unfold receiver_body, receiver_err_body, pc_of, set_pc.
    exec. rewrite Hg. exec. rewrite Ht. exec. rewrite Ha. destruct_world w. reflexivity.
  - unfold step. rewrite Hlive. cbn [act].
    unfold receiver_body, receiver_err_body, pc_of, set_pc, natsError_Error.
    exec. rewrite Hg. exec. rewrite Hs. reflexivity.
Qed.

Lemma fault_body_reports_context_witness :
  exists text,
    contains text "nats: slow consumer, messages dropped" /\
    contains text "nats://localhost:4222" /\
    contains text "srv" /\
    contains text "telegraf" /\ contains text "telegraf_consumers" /\
    step Double.ok_env (ABody 0) LoopExample.faulted
      = Some (set_receivers (<[0 := RTop]> (receivers LoopExample.faulted))
                (set_sink (sink LoopExample.faulted ++ [(7, AddError text)])
                          LoopExample.faulted)).
Proof.
  apply (fault_body_reports_context Double.ok_env 0 LoopExample.fault 7
           LoopExample.faulted); reflexivity.
Defined.

(** X2: when the decoder accepts the payload of the envelope the loop has
    dequeued, the body of the message case forwards the decoded records one
    AddFields call each, in the decoder's order, makes no AddError call, and
    goes back to the head of the loop. *)
Theorem decoded_records_forwarded
  (env : Env) (g : nat) (msg : Msg) (ms : list Metric) (a : AccId) (w : World) :
  crashed w = None ->
  receivers w !! g = Some (RGotMsg (Some msg)) ->
  acc (n w) = Some a ->
  Parse env (msg_Data msg) = (ms, None) ->
  step env (ABody g) w
    = Some (set_receivers (<[g := RTop]> (receivers w))
              (set_sink (sink w ++ map (record_call a) ms) w)).
Proof.
  intros Hlive Hg Ha HP.
  unfold step. rewrite Hlive. cbn [act]. unfold receiver_body, pc_of, bind.
  rewrite Hg. rewrite receiver_msg_body_spec with (a := a) by exact Ha.
  rewrite HP. cbn [fst snd app]. unfold set_pc, modify.
  destruct_world w. reflexivity.
Qed.

Lemma decoded_records_forwarded_witness :
  step Double.ok_env (ABody 0) LoopExample.dequeued
    = Some (set_receivers (<[0 := RTop]> (receivers LoopExample.dequeued))
              (set_sink (sink LoopExample.dequeued
                         ++ map (record_call 7) [Double.metric_of [Byte.x61]])
                        LoopExample.dequeued)).
Proof.
  apply (decoded_records_forwarded Double.ok_env 0 Double.m1
           [Double.metric_of [Byte.x61]] 7 LoopExample.dequeued); reflexivity.
Defined.

(** ** Start: failures and options *)

(** X3: when [Start] has to dial and the broker refuses the connection,
    [Start] returns that error after this single broker call; n.Conn is nil,
    no channel is made, n.Subs is unchanged, no receiver is launched and the
    lock is free, so a retry dials again. *)
Theorem start_connect_refused
  (env : Env) (a : AccId) (w : World) (opts : Options) (err : error) :
  mu (n w) = false ->
  build_opts env (n w) = inr opts ->
  needs_dial w = true ->
  broker_fails env (calls w) (CConnect opts) = Some err ->
  exists w',
    Start env a w = Returns (Some err) w' /\
    calls w' = calls w ++ [CConnect opts] /\
    Conn (n w') = None /\ needs_dial w' = true /\
    in_chans w' = in_chans w /\ err_chans w' = err_chans w /\
    done_chans w' = done_chans w /\
    in_ (n w') = in_ (n w) /\ errs (n w') = errs (n w) /\ done_ (n w') = done_ (n w) /\
    Subs (n w') = Subs (n w) /\ conns w' = conns w /\
    receivers w' = receivers w /\ wg (n w') = wg (n w) /\
    mu (n w') = false /\ sink w' = sink w.
Proof.
  intros Hmu Hb Hd Hc.
  pose proof (Start_spec env a w Hmu) as Hspec. cbv zeta in Hspec.
  rewrite Hb, Hd, Hc in Hspec. rewrite Hspec. eexists. split; [reflexivity|].
  unfold needs_dial. destruct_world w. exec. cbn in Hmu. subst. auto 20.
Qed.

Lemma start_connect_refused_witness :
  let w := boot Double.plain in
  exists w',
    Start Double.down_env 7 w
      = Returns (Some "nats: no servers available for connection") w' /\
    calls w' = calls w ++ [CConnect StartedExample.dial_opts] /\
    Conn (n w') = None /\ needs_dial w' = true /\
    in_chans w' = in_chans w /\ err_chans w' = err_chans w /\
    done_chans w' = done_chans w /\
    in_ (n w') = in_ (n w) /\ errs (n w') = errs (n w) /\
    done_ (n w') = done_ (n w) /\
    Subs (n w') = Subs (n w) /\ conns w' = conns w /\
    receivers w' = receivers w /\ wg (n w') = wg (n w) /\
    mu (n w') = false /\ sink w' = sink w.
Proof.
  apply (start_connect_refused Double.down_env 7 (boot Double.plain)
           StartedExample.dial_opts "nats: no servers available for connection");
    reflexivity.
Defined.

Lemma build_tls_failure (env : Env) (c : natsConsumer) (msg : string) :
  build_tls env c = inl msg ->
  (exists err, LoadX509KeyPair env (SSLCert c) (SSLKey c) = inr err /\
               msg = "error parsing X509 certificate/key pair: " +:+ err) \/
  (exists cert data err,
      LoadX509KeyPair env (SSLCert c) (SSLKey c) = inl cert /\
      ReadFile env (SSLCA c) = (data, err) /\
      (err <> None \/ data = None) /\
      msg = "error parsing CA certificate: " +:+ show_err err) \/
  (exists cert pem,
      LoadX509KeyPair env (SSLCert c) (SSLKey c) = inl cert /\
      ReadFile env (SSLCA c) = (Some pem, None) /\
      pem_ok env pem = false /\
      msg = "error processing CA certificate").
Proof.
  unfold build_tls. intros H.
  destruct (LoadX509KeyPair env _ _) as [cert|err] eqn:HL;
    [|left; exists err; split; congruence].
  right.
  destruct (ReadFile env _) as [[pem|] [err|]] eqn:HR.
  - left. exists cert, (Some pem), (Some err). injection H as <-.
    repeat split; auto.
  - destruct (pem_ok env pem) eqn:Hok; [discriminate|].
    right. exists cert, pem. injection H as <-. auto.
  - left. exists cert, None, (Some err). injection H as <-. repeat split; auto.
  - left. exists cert, None, None. injection H as <-. repeat split; auto.
Qed.

(** X4: a call of [Start] that finds the lock free never panics and never
    blocks. It exits the process only when secure transport is requested and
    the key pair does not load, the CA file cannot be read (or is nil), or
    the CA file holds no certificate; it has then made no broker call and
    launched no receiver. When it returns, whatever it returns, the lock is
    free again. In both cases n.acc is the accumulator of this call. *)
Theorem start_exits_only_on_tls_material
  (env : Env) (a : AccId) (w : World) :
  mu (n w) = false ->
  match Start env a w with
  | Fatal msg w' =>
      Secure (n w) = true /\
      ((exists err, LoadX509KeyPair env (SSLCert (n w)) (SSLKey (n w)) = inr err /\
                    msg = "error parsing X509 certificate/key pair: " +:+ err) \/
       (exists cert data err,
           LoadX509KeyPair env (SSLCert (n w)) (SSLKey (n w)) = inl cert /\
           ReadFile env (SSLCA (n w)) = (data, err) /\
           (err <> None \/ data = None) /\
           msg = "error parsing CA certificate: " +:+ show_err err) \/
       (exists cert pem,
           LoadX509KeyPair env (SSLCert (n w)) (SSLKey (n w)) = inl cert /\
           ReadFile env (SSLCA (n w)) = (Some pem, None) /\
           pem_ok env pem = false /\
           msg = "error processing CA certificate")) /\
      calls w' = calls w /\ conns w' = conns w /\ receivers w' = receivers w /\
      acc (n w') = Some a
  | Returns _ w' => mu (n w') = false /\ acc (n w') = Some a
  | Panics _ _ => False
  | Blocks => False
  end.
Proof.
  intros Hmu.
  pose proof (Start_spec env a w Hmu) as Hspec. cbv zeta in Hspec.
  destruct (build_opts env (n w)) as [msg|opts] eqn:Hb.
  - rewrite Hspec.
    assert (Hs : Secure (n w) = true /\ build_tls env (n w) = inl msg).
    { unfold build_opts in Hb. destruct (Secure (n w)); [|discriminate].
      destruct (build_tls env (n w)); [|discriminate]. split; congruence. }
    destruct Hs as [Hs Ht]. split; [exact Hs|]. split; [exact (build_tls_failure env _ _ Ht)|].
    destruct_world w. auto.
  - destruct (needs_dial w).
    + destruct (broker_fails env (calls w) (CConnect opts)) as [err|].
      * rewrite Hspec. destruct_world w. split; [exact Hmu|reflexivity].
      * destruct Hspec as (r & k & tail & -> & _).
        unfold after_loop, launched, subscribed, dialled.
        destruct r; destruct_world w; (split; [exact Hmu|reflexivity]).
    + rewrite Hspec. unfold launched. destruct_world w.
      split; [exact Hmu|reflexivity].
Qed.

Lemma start_exits_only_on_tls_material_witness :
  let env := Double.ok_env in
  match Start env 7 init_world with
  | Fatal msg w' =>
      Secure (n init_world) = true /\
      ((exists err,
           LoadX509KeyPair env (SSLCert (n init_world)) (SSLKey (n init_world))
             = inr err /\
           msg = "error parsing X509 certificate/key pair: " +:+ err) \/
       (exists cert data err,
           LoadX509KeyPair env (SSLCert (n init_world)) (SSLKey (n init_world))
             = inl cert /\
           ReadFile env (SSLCA (n init_world)) = (data, err) /\
           (err <> None \/ data = None) /\
           msg = "error parsing CA certificate: " +:+ show_err err) \/
       (exists cert pem,
           LoadX509KeyPair env (SSLCert (n init_world)) (SSLKey (n init_world))
             = inl cert /\
           ReadFile env (SSLCA (n init_world)) = (Some pem, None) /\
           pem_ok env pem = false /\
           msg = "error processing CA certificate")) /\
      calls w' = calls init_world /\ conns w' = conns init_world /\
      receivers w' = receivers init_world /\
      acc (n w') = Some 7
  | Returns _ w' => mu (n w') = false /\ acc (n w') = Some 7
  | Panics _ _ => False
  | Blocks => False
  end.
Proof.
  apply (start_exits_only_on_tls_material Double.ok_env 7 init_world). reflexivity.
Defined.

(** X5: every dial [Start] makes asks for unlimited reconnection
    (MaxReconnect is -1), carries the servers and the secure flag of the
    instance and the other default options untouched; without secure
    transport the TLS configuration is the default one, with it the
    configuration requires TLS 1.2 at least and holds exactly the key pair
    loaded from ssl_cert and ssl_key and the CA read from ssl_ca. *)
Theorem dial_options
  (env : Env) (a : AccId) (w w' : World) (r : option error) (o : Options) :
  Start env a w = Returns r w' ->
  CConnect o ∈ drop (length (calls w)) (calls w') ->
  opt_MaxReconnect o = (-1)%Z /\
  opt_Servers o = Servers (n w) /\
  opt_Secure o = Secure (n w) /\
  opt_rest o = opt_rest (DefaultOptions env) /\
  (Secure (n w) = false -> opt_TLSConfig o = opt_TLSConfig (DefaultOptions env)) /\
  (Secure (n w) = true ->
   exists cfg cert pem,
     opt_TLSConfig o = Some cfg /\
     MinVersion cfg = VersionTLS12 /\
     Certificates cfg = [cert] /\
     LoadX509KeyPair env (SSLCert (n w)) (SSLKey (n w)) = inl cert /\
     RootCAs cfg = [pem] /\
     ReadFile env (SSLCA (n w)) = (Some pem, None) /\
     pem_ok env pem = true).
Proof.
  intros HS Hin.
  pose proof (Start_connect_opts env a w w' r o HS Hin) as Hb.
  unfold build_opts, build_tls in Hb.
  destruct (Secure (n w)) eqn:Hs.
  - destruct (LoadX509KeyPair env _ _) as [cert|err] eqn:HL; [|discriminate].
    destruct (ReadFile env _) as [[pem|] [err|]] eqn:HR; try discriminate.
    destruct (pem_ok env pem) eqn:Hok; [|discriminate].
    injection Hb as <-. cbn.
    do 5 (split; [reflexivity || discriminate|]).
    intros _. eexists _, cert, pem. repeat split; auto.
  - injection Hb as <-. cbn.
    do 4 (split; [reflexivity|]). split; [reflexivity | discriminate].
Qed.

Lemma dial_options_witness :
  let o := TlsExample.dial_opts in
  let w := boot Double.tls in
  opt_MaxReconnect o = (-1)%Z /\
  opt_Servers o = Servers (n w) /\
  opt_Secure o = Secure (n w) /\
  opt_rest o = opt_rest (DefaultOptions Double.ok_env) /\
  (Secure (n w) = false ->
   opt_TLSConfig o = opt_TLSConfig (DefaultOptions Double.ok_env)) /\
  (Secure (n w) = true ->
   exists cfg cert pem,
     opt_TLSConfig o = Some cfg /\
     MinVersion cfg = VersionTLS12 /\
     Certificates cfg = [cert] /\
     LoadX509KeyPair Double.ok_env (SSLCert (n w)) (SSLKey (n w)) = inl cert /\
     RootCAs cfg = [pem] /\
     ReadFile Double.ok_env (SSLCA (n w)) = (Some pem, None) /\
     pem_ok Double.ok_env pem = true).
Proof.
  apply (dial_options Double.ok_env 7 (boot Double.tls) TlsExample.started None
           TlsExample.dial_opts).
  - reflexivity.
  - vm_compute. constructor.
Defined.

(** X6: when [Start] fails after the dial (in the subscription loop), the
    connection stays open and n.Subs holds fewer subscriptions than there
    are subjects; a retry of [Start] then reuses the connection: it makes no
    broker call, so the remaining subjects are never subscribed, launches
    the receiver and returns nil. *)
Theorem retry_after_failed_subscription
  (env : Env) (a a' : AccId) (w w1 : World) (err : error) :
  mu (n w) = false ->
  needs_dial w = true ->
  Start env a w = Returns (Some err) w1 ->
  Conn (n w1) <> None ->
  conn_open w1 /\
  length (Subs (n w1)) < length (Subs (n w)) + length (Subjects (n w)) /\
  exists w2,
    Start env a' w1 = Returns None w2 /\
    calls w2 = calls w1 /\
    Subs (n w2) = Subs (n w1) /\
    receivers w2 = receivers w1 ++ [RTop].
Proof.
  intros Hmu Hd HS HC.
  pose proof (Start_spec env a w Hmu) as Hspec. cbv zeta in Hspec.
  destruct (build_opts env (n w)) as [msg|opts] eqn:Hb; [congruence|].
  rewrite Hd in Hspec.
  destruct (broker_fails env (calls w) (CConnect opts)) as [e|].
  { rewrite Hspec in HS. injection HS as <- <-. exfalso. apply HC.
    destruct_world w. reflexivity. }
  destruct Hspec as (r & k & tail & Heq & Hend). rewrite Heq in HS.
  injection HS as -> <-. unfold loop_end in Hend. destruct Hend as [(s & Hs & _) _].
  apply lookup_lt_Some in Hs.
  assert (Hlen : forall c q base l, length (subs_of c q base l) = length l).
  { clear. intros c q base l. revert base. induction l as [|x l IH]; intros base; cbn; auto. }
  set (w1 := after_loop (Some err) _) in *.
  assert (Hopen : conn_open w1).
  { subst w1. unfold conn_open, after_loop, subscribed, dialled. destruct_world w. exec.
    eexists. split; [reflexivity|]. apply lookup_snoc. }
  assert (Hsubs : length (Subs (n w1)) < length (Subs (n w)) + length (Subjects (n w))).
  { subst w1. unfold after_loop, subscribed, dialled. destruct_world w. exec.
    rewrite length_app, Hlen, length_take. cbn in Hs. lia. }
  split; [exact Hopen|]. split; [exact Hsubs|].
  assert (Hmu1 : mu (n w1) = false).
  { subst w1. unfold after_loop, subscribed, dialled. destruct_world w. exact Hmu. }
  assert (Hb1 : build_opts env (n w1) = inr opts).
  { rewrite <- Hb. subst w1. unfold after_loop, subscribed, dialled.
    destruct_world w. reflexivity. }
  assert (Hd1 : needs_dial w1 = false).
  { destruct Hopen as (c & Hc1 & Hc2). unfold needs_dial. rewrite Hc1, Hc2. reflexivity. }
  pose proof (Start_spec env a' w1 Hmu1) as Hspec1. cbv zeta in Hspec1.
  rewrite Hb1, Hd1 in Hspec1. rewrite Hspec1. eexists. split; [reflexivity|].
  unfold launched. destruct_world w1. auto.
Qed.

Lemma retry_after_failed_subscription_witness :
  let w := boot Double.two_subjects in
  conn_open RefusedExample.half_subscribed /\
  length (Subs (n RefusedExample.half_subscribed))
    < length (Subs (n w)) + length (Subjects (n w)) /\
  exists w2,
    Start Double.late_env 8 RefusedExample.half_subscribed = Returns None w2 /\
    calls w2 = calls RefusedExample.half_subscribed /\
    Subs (n w2) = Subs (n RefusedExample.half_subscribed) /\
    receivers w2 = receivers RefusedExample.half_subscribed ++ [RTop].
Proof.
  apply (retry_after_failed_subscription Double.late_env 7 8 (boot Double.two_subjects)
           RefusedExample.half_subscribed "nats: timeout").
  - reflexivity.
  - reflexivity.
  - reflexivity.
  - discriminate.
Defined.

(** X7: every [Start] that dials and gets a connection points n.in at a new
    empty channel of capacity 1000 and n.errs at a new empty channel of
    capacity 0, both appended to the channels made before, which it leaves
    as they were: what an earlier n.in still holds is not in the new one. *)
Theorem dial_makes_fresh_channels
  (env : Env) (a : AccId) (w w' : World) (r : option error) :
  mu (n w) = false ->
  needs_dial w = true ->
  Start env a w = Returns r w' ->
  Conn (n w') <> None ->
  Conn (n w') = Some (length (conns w)) /\
  conns w' = conns w ++ [false] /\
  in_ (n w') = Some (length (in_chans w)) /\
  in_chans w' = in_chans w ++ [mkChan 1000 [] false] /\
  in_buf w' = [] /\
  errs (n w') = Some (length (err_chans w)) /\
  err_chans w' = err_chans w ++ [mkChan 0 [] false].
Proof.
  intros Hmu Hd HS HC.
  pose proof (Start_spec env a w Hmu) as Hspec. cbv zeta in Hspec.
  destruct (build_opts env (n w)) as [msg|opts] eqn:Hb; [congruence|].
  rewrite Hd in Hspec.
  destruct (broker_fails env (calls w) (CConnect opts)) as [e|].
  { rewrite Hspec in HS. injection HS as <- <-. exfalso. apply HC.
    destruct_world w. reflexivity. }
  destruct Hspec as (r0 & k & tail & Heq & _). rewrite Heq in HS.
  injection HS as <- <-.
  unfold in_buf, deref, after_loop, launched, subscribed, dialled.
  destruct r0; destruct_world w; exec; rewrite lookup_snoc; auto 10.
Qed.

Lemma dial_makes_fresh_channels_witness :
  let w := boot Double.plain in
  Conn (n StartedExample.started) = Some (length (conns w)) /\
  conns StartedExample.started = conns w ++ [false] /\
  in_ (n StartedExample.started) = Some (length (in_chans w)) /\
  in_chans StartedExample.started = in_chans w ++ [mkChan 1000 [] false] /\
  in_buf StartedExample.started = [] /\
  errs (n StartedExample.started) = Some (length (err_chans w)) /\
  err_chans StartedExample.started = err_chans w ++ [mkChan 0 [] false].
Proof.
  apply (dial_makes_fresh_channels Double.ok_env 7 (boot Double.plain)
           StartedExample.started None).
  - reflexivity.
  - reflexivity.
  - reflexivity.
  - discriminate.
Defined.

(** ** Counters, queues and the ways the process can die *)

(** X8: in every reachable world the WaitGroup counter is the number of
    receiver goroutines that have not returned; hence [Stop] does not get
    past n.wg.Wait() while any of them is still running. *)
Theorem waitgroup_counts_running_loops (env : Env) (w : World) :
  reachable env w ->
  wg (n w) = total live (receivers w) /\
  forall g pc, receivers w !! g = Some pc -> exited pc = false ->
               step env AStopJoin w = None.
Proof.
  intros Hr. pose proof (snd_wg w (reachable_sound env w Hr)) as Hw.
  split; [exact Hw|]. intros g pc Hg He.
  pose proof (total_live_pos _ _ _ Hg He) as Hpos.
  unfold step. destruct (crashed w); [reflexivity|].
  cbn [act]. unfold Stop_join. exec. destruct (mu (n w)); [|reflexivity].
  destruct (wg (n w)); [lia|reflexivity].
Qed.

Lemma waitgroup_counts_running_loops_witness :
  wg (n StartedExample.started) = total live (receivers StartedExample.started) /\
  forall g pc, receivers StartedExample.started !! g = Some pc -> exited pc = false ->
               step Double.ok_env AStopJoin StartedExample.started = None.
Proof.
  apply (waitgroup_counts_running_loops Double.ok_env StartedExample.started).
  exists Double.plain, [AStart 7]. vm_compute. reflexivity.
Defined.

(** X9: in a reachable world the process dies only in three ways: a call
    of [Start] exits with a fatal log; [Stop] panics at close(n.done), on a
    nil channel when no receiver was ever launched and on a closed one
    otherwise; or the loop, in the body of the fault case, dereferences the
    nil subscription of a fault the client reported without one. The
    message case of the loop, the two callbacks and the rest of [Stop] never
    end the process (the decoder being set). *)
Theorem process_dies_only_in_start_or_close
  (env : Env) (a : Action) (w w' : World) (msg : string) :
  reachable env w ->
  step env a w = Some w' ->
  crashed w' = Some msg ->
  (exists x w0, a = AStart x /\ Start env x w = Fatal msg w0) \/
  (a = AStopClose /\
   ((done_ (n w) = None /\ msg = "close of nil channel") \/
    (shutdown_closed w /\ msg = "close of closed channel"))) \/
  (exists g f, a = ABody g /\ receivers w !! g = Some (RGotErr (Some f)) /\
               ne_sub f = None /\ msg = nil_dereference).
Proof.
  intros Hr H Hc.
  pose proof (reachable_wf env w Hr) as Hwf.
  pose proof (reachable_sound env w Hr) as Hs.
  destruct a.
  - left. exists a.
    unfold step in H. destruct (crashed w) eqn:Hlive; [discriminate|].
    cbn [act] in H. unfold bind in H.
    destruct (mu (n w)) eqn:Hmu.
    { rewrite Start_locked in H by exact Hmu. discriminate. }
    pose proof (start_never_panics env a w Hmu) as Hnp.
    destruct (Start env a w) as [r w1|s w1|s w1|] eqn:HS; try contradiction.
    + exfalso. unfold ret in H. injection H as <-.
      apply Start_returns_live in HS. congruence.
    + injection H as <-. cbn in Hc. injection Hc as ->. eauto.
  - right. left. split; [reflexivity|].
    pose proof (snd_done_ref w Hs) as Hdr. clear Hr Hs Hwf.
    unfold shutdown_closed. destruct_world w. step_exec H.
    destruct lk; [discriminate|]. exec.
    repeat case_match; exec_in_all; simplify_eq; exec; simplify_eq; cbn; eauto.
    exfalso. specialize (Hdr _ eq_refl).
    match goal with Hk : _ !! _ = None |- _ => apply lookup_ge_None in Hk end.
    cbn in *. lia.
  - exfalso. apply step_StopJoin in H as (Hlive & _ & _ & es & _ & ->); [|exact Hwf].
    unfold joined in Hc. destruct_world w. exec.
    destruct cn as [c0|]; [destruct (default true (cs !! c0))|]; cbn in *; congruence.
  - exfalso. pose proof (wf_in w Hwf) as Hin. clear Hr Hs Hwf. destruct_world w. step_exec H.
    repeat case_match; exec_in_all; simplify_eq; exec; simplify_eq.
    use_lookups. cbn in *. congruence.
  - exfalso. pose proof (wf_errs w Hwf) as He. clear Hr Hs Hwf. destruct_world w. step_exec H.
    repeat case_match; exec_in_all; simplify_eq; exec; simplify_eq.
    use_lookups. unfold pristine in *. cbn in *. intuition congruence.
  - exfalso. clear Hr Hs Hwf. destruct_world w. step_exec H.
    repeat case_match; exec_in_all; simplify_eq; exec; simplify_eq.
  - exfalso. pose proof (snd_wg w Hs) as Hw. clear Hr Hs Hwf. destruct_world w. step_exec H.
    repeat case_match; exec_in_all; simplify_eq; exec; simplify_eq.
    all: match goal with Hk : _ !! _ = Some (RSelect _ _ _) |- _ =>
      pose proof (total_live_pos _ _ _ Hk eq_refl) end.
    all: lia.
  - exfalso. clear Hr Hs Hwf. destruct_world w. step_exec H.
    repeat case_match; exec_in_all; simplify_eq; exec; simplify_eq.
  - exfalso. clear Hr Hs Hwf. destruct_world w. step_exec H.
    repeat case_match; exec_in_all; simplify_eq; exec; simplify_eq.
  - pose proof (snd_recv w Hs) as Hrv.
    apply step_Body in H as (Hlive & x & pc & Ha & Hg & [[Hnil ->]|[_ ->]]); [| |exact Hwf].
    + pose proof (Forall_lookup_1 _ _ _ _ Hrv Hg) as [H1 H2].
      destruct Hnil as [->|[->|(f & -> & Hsub)]]; try contradiction.
      right. right. exists g, f. destruct_world w. cbn in Hc. injection Hc as <-. auto.
    + exfalso. destruct_world w. cbn in *. congruence.
Qed.

Lemma process_dies_only_in_start_or_close_witness :
  let w := boot Double.plain in
  (exists x w0, AStopClose = AStart x /\
                Start Double.ok_env x w = Fatal "close of nil channel" w0) \/
  (AStopClose = AStopClose /\
   ((done_ (n w) = None /\ "close of nil channel" = "close of nil channel") \/
    (shutdown_closed w /\ "close of nil channel" = "close of closed channel"))) \/
  (exists g f, AStopClose = ABody g /\ receivers w !! g = Some (RGotErr (Some f)) /\
               ne_sub f = None /\ "close of nil channel" = nil_dereference).
Proof.
  apply (process_dies_only_in_start_or_close Double.ok_env AStopClose (boot Double.plain)
           StopExample.died "close of nil channel").
  - exists Double.plain, []. reflexivity.
  - reflexivity.
  - reflexivity.
Defined.


(** ** The message queue *)

(** X10: in a reachable world n.in, once set, is a channel of capacity 1000
    that is open and holds at most 1000 envelopes. The subscription callback
    appends its envelope at the tail when fewer than 1000 are queued and
    waits otherwise: it never drops an envelope, never overwrites one and
    never panics. *)
Theorem delivery_queues_or_waits (env : Env) (m : Msg) (w : World) (i : nat) :
  reachable env w ->
  crashed w = None ->
  in_ (n w) = Some i ->
  exists ch,
    in_chans w !! i = Some ch /\
    ch_cap ch = 1000 /\ ch_closed ch = false /\ length (ch_buf ch) <= 1000 /\
    step env (ADeliver m) w
      = if decide (length (ch_buf ch) < 1000)
        then Some (set_in_chans
                     (<[i := mkChan 1000 (ch_buf ch ++ [m]) false]> (in_chans w)) w)
        else None.
Proof.
  intros Hr Hlive Hi.
  pose proof (reachable_wf env w Hr) as Hwf.
  pose proof (reachable_sound env w Hr) as Hs.
  pose proof (snd_in_ref w Hs i Hi) as Hlt.
  destruct (lookup_lt_is_Some_2 _ _ Hlt) as [ch Hch].
  pose proof (Forall_lookup_1 _ _ _ _ (snd_in w Hs) Hch) as [Hcap Hlen].
  pose proof (Forall_lookup_1 _ _ _ _ (wf_in w Hwf) Hch) as Hcl. cbn in Hcl.
  exists ch. repeat (split; [assumption|]).
  unfold step. rewrite Hlive. cbn [act]. unfold on_message, send_in, chan_push.
  rewrite Hi, Hch, Hcl, Hcap.
  destruct (decide (length (ch_buf ch) < 1000)); reflexivity.
Qed.

Lemma delivery_queues_or_waits_witness :
  exists ch,
    in_chans StartedExample.started !! 0 = Some ch /\
    ch_cap ch = 1000 /\ ch_closed ch = false /\ length (ch_buf ch) <= 1000 /\
    step Double.ok_env (ADeliver Double.m1) StartedExample.started
      = if decide (length (ch_buf ch) < 1000)
        then Some (set_in_chans
                     (<[0 := mkChan 1000 (ch_buf ch ++ [Double.m1]) false]>
                        (in_chans StartedExample.started))
                     StartedExample.started)
        else None.
Proof.
  apply (delivery_queues_or_waits Double.ok_env Double.m1 StartedExample.started 0).
  - exists Double.plain, [AStart 7]. vm_compute. reflexivity.
  - reflexivity.
  - reflexivity.
Defined.

(** ** The loop returns only after Stop *)

Section Unsignalled.

Variable env : Env.

Lemma unsignalled_step (a : Action) (w w' : World) :
  wf w -> sound w -> unsignalled w -> a <> AStopClose ->
  step env a w = Some w' -> unsignalled w'.
Proof.
  intros Hwf Hs [Hd Hr] Hne H. destruct a; try congruence.
  - apply step_Start in H as (_ & _ & Hsr).
    destruct Hsr as [msg _ _|opts _ _ _|opts err _ _ _ _|opts r k tail _ _ _ _ _].
    + split; assumption.
    + unfold launched. split; cbn; apply Forall_app; split; auto; repeat constructor.
    + split; assumption.
    + unfold after_loop, launched, subscribed, dialled.
      destruct r; split; cbn; auto; apply Forall_app; split; auto; repeat constructor.
  - apply step_StopJoin in H as (_ & _ & _ & es & _ & ->); [|exact Hwf].
    unfold joined. destruct (Conn (n w)) as [c0|]; [destruct (default true (conns w !! c0))|];
      split; assumption.
  - clear Hwf Hs. unfold unsignalled. destruct_world w. step_exec H.
    repeat case_match; exec_in_all; simplify_eq; exec; auto.
  - clear Hwf Hs. unfold unsignalled. destruct_world w. step_exec H.
    repeat case_match; exec_in_all; simplify_eq; exec; auto.
    split; [assumption|]. apply Forall_insert; [assumption|reflexivity].
  - clear Hwf Hs. unfold unsignalled. destruct_world w. step_exec H.
    repeat case_match; exec_in_all; simplify_eq; exec; auto.
    all: split; [assumption|]; apply Forall_insert; [assumption|reflexivity].
  - exfalso. pose proof (snd_done w Hs) as Hsd. clear Hwf Hs. destruct_world w. step_exec H.
    repeat case_match; exec_in_all; simplify_eq; exec.
    all: use_lookups; unfold signal_only in *; cbn in *; intuition congruence.
  - clear Hwf Hs. unfold unsignalled. destruct_world w. step_exec H.
    repeat case_match; exec_in_all; simplify_eq; exec; auto.
    all: split; [assumption|]; apply Forall_insert; [assumption|reflexivity].
  - clear Hwf Hs. unfold unsignalled. destruct_world w. step_exec H.
    repeat case_match; exec_in_all; simplify_eq; exec; auto.
    all: split; [assumption|]; apply Forall_insert; [assumption|reflexivity].
  - apply step_Body in H as (_ & x & pc & Ha & Hg & [[_ ->]|[_ ->]]); [| |exact Hwf].
    + split; assumption.
    + split; [assumption|]. cbn. apply Forall_insert; [assumption|reflexivity].
Qed.

Lemma unsignalled_run (sched : list Action) :
  forall w w', wf w -> sound w -> unsignalled w ->
    Forall (fun a => a <> AStopClose) sched ->
    run env sched w = Some w' -> unsignalled w'.
Proof.
  induction sched as [|a rest IH]; intros w w' Hwf Hs Hu Hn H; cbn in H.
  - injection H as <-. exact Hu.
  - destruct (step env a w) as [w1|] eqn:Hst; [|discriminate].
    inversion Hn as [|? ? Ha Hrest]; subst.
    eapply IH; [| | |exact Hrest|exact H];
      [eapply wf_step|eapply sound_step|eapply unsignalled_step]; eauto.
Qed.

End Unsignalled.

(** X11: a receiver goroutine returns only through the shutdown case: in a
    process where [Stop] is never called no receiver ever returns, whatever
    is delivered, whatever faults are reported and whatever [Start] does. *)
Theorem loop_returns_only_after_stop
  (env : Env) (c : natsConsumer) (sched : list Action) (w : World) :
  run env sched (boot c) = Some w ->
  Forall (fun a => a <> AStopClose) sched ->
  Forall (fun pc => exited pc = false) (receivers w).
Proof.
  intros H Hn.
  apply (unsignalled_run env sched (boot c) w (wf_boot c) (sound_boot c)); auto.
  split; constructor.
Qed.

Lemma loop_returns_only_after_stop_witness :
  Forall (fun pc => exited pc = false) (receivers OrderExample.after_two).
Proof.
  apply (loop_returns_only_after_stop Double.ok_env Double.plain
           OrderExample.two_envelopes OrderExample.after_two).
  - vm_compute. reflexivity.
  - repeat constructor; discriminate.
Defined.

(** ** Stop from the wait on, and clean *)

Section Clean.

Variable env : Env.

Lemma unsubscribe_all_count (a : AccId) (subs : list Subscription) :
  forall w, acc (n w) = Some a ->
    exists es,
      unsubscribe_all env subs w
        = Returns tt (set_sink (sink w ++ es)
                        (set_calls (calls w ++ map (fun s => CUnsubscribe (sub_id s)) subs) w))
      /\ Forall is_error_call es
      /\ length es
         = length (filter is_Some
                     (answers env (calls w) (map (fun s => CUnsubscribe (sub_id s)) subs))).
Proof.
  induction subs as [|s rest IH]; intros w Ha.
  - exists []. destruct_world w. cbn. rewrite !app_nil_r. auto.
  - cbn [unsubscribe_all map answers]. unfold Unsubscribe, broker_call. exec.
    destruct (broker_fails env (calls w) (CUnsubscribe (sub_id s))) as [err|] eqn:Hb; exec.
    + rewrite Ha.
      match goal with |- context [unsubscribe_all env rest ?w1] =>
        destruct (IH w1) as (es & -> & Hes & Hlen); [destruct_world w; exact Ha|] end.
      match goal with |- context [sink w ++ [?x]] => exists (x :: es) end.
      split; [|split; [constructor; [exact I|exact Hes]|]].
      * destruct_world w. exec. rewrite <- !app_assoc. reflexivity.
      * rewrite filter_cons_True by eauto. cbn [length]. f_equal.
        rewrite Hlen. destruct_world w. reflexivity.
    + match goal with |- context [unsubscribe_all env rest ?w1] =>
        destruct (IH w1) as (es & -> & Hes & Hlen); [destruct_world w; exact Ha|] end.
      exists es. split; [|split; [exact Hes|]].
      * destruct_world w. exec. rewrite <- !app_assoc. reflexivity.
      * rewrite filter_cons_False by (intros [? ?]; discriminate).
        rewrite Hlen. destruct_world w. reflexivity.
Qed.

End Clean.


(** X12: when [Stop] gets past n.wg.Wait() every receiver has returned.
    [clean] then calls Unsubscribe for every subscription in n.Subs, in
    order and without stopping at a failure, adds one AddError to the sink
    for each Unsubscribe that failed and nothing else, and closes the
    connection when it is open; afterwards no connection is open, so the
    next [Start] dials again, and the lock is free. n.Subs, n.Conn and the
    channel fields keep their values. *)
Theorem stop_unsubscribes_all_and_closes (env : Env) (w w' : World) :
  reachable env w ->
  step env AStopJoin w = Some w' ->
  Forall (fun pc => exited pc = true) (receivers w) /\
  calls w' = calls w ++ unsubscribes w ++ closes w /\
  (exists es,
      sink w' = sink w ++ es /\ Forall is_error_call es /\
      length es = length (filter is_Some (answers env (calls w) (unsubscribes w)))) /\
  (forall c, conns w' !! c <> Some false) /\
  needs_dial w' = true /\
  length (conns w') = length (conns w) /\
  mu (n w') = false /\ crashed w' = None /\
  Subs (n w') = Subs (n w) /\ Conn (n w') = Conn (n w) /\
  in_ (n w') = in_ (n w) /\ errs (n w') = errs (n w) /\ done_ (n w') = done_ (n w) /\
  receivers w' = receivers w.
Proof.
  intros Hr H.
  cut (Forall (fun pc => exited pc = true) (receivers w) /\
       calls w' = calls w ++ unsubscribes w ++ closes w /\
       (exists es,
           sink w' = sink w ++ es /\ Forall is_error_call es /\
           length es = length (filter is_Some (answers env (calls w) (unsubscribes w)))) /\
       (forall c, conns w' !! c <> Some false) /\
       length (conns w') = length (conns w) /\
       mu (n w') = false /\ crashed w' = None /\
       Subs (n w') = Subs (n w) /\ Conn (n w') = Conn (n w) /\
       in_ (n w') = in_ (n w) /\ errs (n w') = errs (n w) /\ done_ (n w') = done_ (n w) /\
       receivers w' = receivers w).
  { intros (H1 & H2 & H3 & H4 & H5). repeat (split; [assumption|]).
    split; [|exact H5].
    unfold needs_dial. destruct (Conn (n w')) as [c|]; [|reflexivity].
    specialize (H4 c). destruct (conns w' !! c) as [[|]|]; auto; congruence. }
  pose proof (reachable_wf env w Hr) as Hwf.
  pose proof (snd_wg w (reachable_sound env w Hr)) as Hw.
  pose proof (wf_conn w Hwf) as Hconn.
  pose proof (wf_lock w Hwf) as Hl. pose proof (wf_acc w Hwf) as Ha.
  clear Hr Hwf.
  unfold unsubscribes, closes. destruct_world w. step_exec H.
  destruct lk; [|discriminate]. exec. destruct wgc; [|discriminate]. exec.
  specialize (Hl eq_refl eq_refl). destruct (Ha Hl) as [a Hacc]. cbn in Hacc. subst ac.
  split; [apply total_live_zero; symmetry; exact Hw|].
  match type of H with context [unsubscribe_all env ?l ?w1] =>
    destruct (unsubscribe_all_count env a l w1 eq_refl) as (es & Heq & Hes & Hlen);
      rewrite Heq in H
  end.
  exec.
  destruct cn as [c0|]; exec.
  - destruct (cs !! c0) as [[|]|] eqn:Hc0; cbn in H; exec; simplify_eq; exec.
    + rewrite app_nil_r. repeat split; eauto.
      intros c Hc; specialize (Hconn c Hc); congruence.
    + rewrite <- app_assoc. repeat split; eauto.
      * intros c Hc. destruct (decide (c = c0)) as [->|Hne].
        -- rewrite list_lookup_insert_eq in Hc by (eapply lookup_lt_Some; eauto). discriminate.
        -- rewrite list_lookup_insert_ne in Hc by congruence.
           specialize (Hconn c Hc). congruence.
      * apply length_insert.
    + rewrite app_nil_r. repeat split; eauto.
      intros c Hc; specialize (Hconn c Hc); congruence.
  - simplify_eq. exec. rewrite app_nil_r. repeat split; eauto.
    intros c Hc. specialize (Hconn c Hc). discriminate.
Qed.

Lemma stop_unsubscribes_all_and_closes_witness :
  let w := StopExample.drained in
  let w' := StopExample.stopped in
  Forall (fun pc => exited pc = true) (receivers w) /\
  calls w' = calls w ++ unsubscribes w ++ closes w /\
  (exists es,
      sink w' = sink w ++ es /\ Forall is_error_call es /\
      length es
        = length (filter is_Some (answers Double.sticky_env (calls w) (unsubscribes w)))) /\
  (forall c, conns w' !! c <> Some false) /\
  needs_dial w' = true /\
  length (conns w') = length (conns w) /\
  mu (n w') = false /\ crashed w' = None /\
  Subs (n w') = Subs (n w) /\ Conn (n w') = Conn (n w) /\
  in_ (n w') = in_ (n w) /\ errs (n w') = errs (n w) /\ done_ (n w') = done_ (n w) /\
  receivers w' = receivers w.
Proof.
  apply (stop_unsubscribes_all_and_closes Double.sticky_env StopExample.drained
           StopExample.stopped).
  - exists Double.plain, StopExample.drained_sched. vm_compute. reflexivity.
  - vm_compute. reflexivity.
Defined.

(** ** What is never undone *)

Section Grow.

Variable env : Env.

Ltac grow_auto :=
  try solve
    [ reflexivity
    | unfold prefix; eexists; rewrite <- ?app_assoc; reflexivity
    | intros; assumption
    | intros; apply lookup_app_l_Some; assumption
    | intros ? Hk;
      match goal with
      | |- <[?c0 := _]> _ !! ?c = _ =>
          destruct (decide (c = c0)) as [->|];
          [ rewrite list_lookup_insert_eq by (eapply lookup_lt_Some; eauto); reflexivity
          | rewrite list_lookup_insert_ne by congruence; exact Hk ]
      end ].

Lemma grows_step (a : Action) (w w' : World) :
  wf w -> step env a w = Some w' -> grows w w'.
Proof.
  intros Hwf H. unfold grows. destruct a.
  - apply step_Start in H as (_ & _ & Hsr).
    destruct Hsr as [msg _ _|opts _ _ _|opts err _ _ _ _|opts r k tail _ _ _ _ _].
    + destruct_world w. exec. repeat split; grow_auto.
    + unfold launched. destruct_world w. exec. repeat split; grow_auto.
    + destruct_world w. exec. repeat split; grow_auto.
    + unfold after_loop, launched, subscribed, dialled.
      destruct r; destruct_world w; exec; repeat split; grow_auto.
  - clear Hwf. destruct_world w. step_exec H.
    repeat case_match; exec_in_all; simplify_eq; exec; repeat split; grow_auto.
  - apply step_StopJoin in H as (_ & _ & _ & es & _ & ->); [|exact Hwf].
    unfold joined. clear Hwf. destruct_world w. exec.
    destruct cn as [c0|]; [destruct (default true (cs !! c0))|];
      exec; repeat split; grow_auto.
  - clear Hwf. destruct_world w. step_exec H.
    repeat case_match; exec_in_all; simplify_eq; exec; repeat split; grow_auto.
  - clear Hwf. destruct_world w. step_exec H.
    repeat case_match; exec_in_all; simplify_eq; exec; repeat split; grow_auto.
  - clear Hwf. destruct_world w. step_exec H.
    repeat case_match; exec_in_all; simplify_eq; exec; repeat split; grow_auto.
  - clear Hwf. destruct_world w. step_exec H.
    repeat case_match; exec_in_all; simplify_eq; exec; repeat split; grow_auto.
  - clear Hwf. destruct_world w. step_exec H.
    repeat case_match; exec_in_all; simplify_eq; exec; repeat split; grow_auto.
  - clear Hwf. destruct_world w. step_exec H.
    repeat case_match; exec_in_all; simplify_eq; exec; repeat split; grow_auto.
  - apply step_Body in H as (_ & x & pc & Ha & Hg & [[_ ->]|[_ ->]]); [| |exact Hwf].
    + destruct_world w. exec. repeat split; grow_auto.
    + destruct_world w. exec. repeat split; grow_auto.
Qed.

Lemma grows_run (sched : list Action) :
  forall w w', wf w -> run env sched w = Some w' -> grows w w'.
Proof.
  induction sched as [|a rest IH]; intros w w' Hwf H; cbn in H.
  - injection H as <-. repeat split; auto.
  - destruct (step env a w) as [w1|] eqn:Hst; [|discriminate].
    destruct (grows_step a w w1 Hwf Hst) as (H1 & H2 & H3 & H4).
    destruct (IH w1 w' (wf_step env a w w1 Hwf Hst) H) as (G1 & G2 & G3 & G4).
    repeat split; try (etrans; eassumption). auto.
Qed.

End Grow.

(** X13: over any run from a reachable world the broker calls and the sink
    only get longer, a closed connection is never reopened, and n.Subs only
    gets longer: no code path removes a subscription from it, not even
    [Stop], so the subscriptions of a closed connection stay listed after a
    restart. *)
Theorem subscriptions_are_never_forgotten
  (env : Env) (sched : list Action) (w w' : World) :
  reachable env w ->
  run env sched w = Some w' ->
  calls w `prefix_of` calls w' /\
  sink w `prefix_of` sink w' /\
  Subs (n w) `prefix_of` Subs (n w') /\
  (forall c, conns w !! c = Some true -> conns w' !! c = Some true).
Proof.
  intros Hr H. exact (grows_run env sched w w' (reachable_wf env w Hr) H).
Qed.

Lemma subscriptions_are_never_forgotten_witness :
  let w := StopExample.stopped in
  let w' := RestartExample.restarted in
  calls w `prefix_of` calls w' /\
  sink w `prefix_of` sink w' /\
  Subs (n w) `prefix_of` Subs (n w') /\
  (forall c, conns w !! c = Some true -> conns w' !! c = Some true).
Proof.
  apply (subscriptions_are_never_forgotten Double.sticky_env [AStart 8]
           StopExample.stopped RestartExample.restarted).
  - exists Double.plain, (StopExample.drained_sched ++ [AStopJoin]).
    vm_compute. reflexivity.
  - vm_compute. reflexivity.
Defined.

(** ** Start and Stop exclude each other *)

Section LockByStop.

Variable env : Env.

Lemma lock_by_stop_boot (c : natsConsumer) : lock_by_stop (boot c).
Proof. intros _ H. discriminate. Qed.

Lemma shutdown_closed_insert (dc : list (Chan unit)) (fd : option nat) (d : nat)
      (c c' : Chan unit) :
  dc !! d = Some c -> ch_closed c' = ch_closed c ->
  (exists x, deref dc fd = Some x /\ ch_closed x = true) ->
  exists x, deref (<[d := c']> dc) fd = Some x /\ ch_closed x = true.
Proof.
  intros Hd Hc (x & Hx & Hcl). destruct fd as [k|]; [|discriminate]. cbn in *.
  destruct (decide (k = d)) as [->|Hne].
  - exists c'. rewrite list_lookup_insert_eq by (eapply lookup_lt_Some; eauto).
    split; [reflexivity|]. congruence.
  - exists x. rewrite list_lookup_insert_ne by congruence. auto.
Qed.

Lemma lock_by_stop_step (a : Action) (w w' : World) :
  wf w -> sound w -> lock_by_stop w -> step env a w = Some w' -> lock_by_stop w'.
Proof.
  intros Hwf Hs Hl H. unfold lock_by_stop, shutdown_closed in *. destruct a.
  - apply step_Start in H as (_ & Hmu & Hsr). intros Hlive Hheld. exfalso.
    destruct Hsr as [msg _ _|opts _ _ _|opts err _ _ _ _|opts r k tail _ _ _ _ _].
    + discriminate.
    + unfold launched in Hheld. destruct_world w. cbn in *. congruence.
    + destruct_world w. cbn in *. congruence.
    + unfold after_loop, launched, subscribed, dialled in Hheld.
      destruct r; destruct_world w; cbn in *; congruence.
  - pose proof (snd_done_ref w Hs) as Hdr. clear Hwf Hs Hl.
    destruct_world w. step_exec H. destruct lk; [discriminate|]. exec.
    repeat case_match; exec_in_all; simplify_eq; exec; try (intros; discriminate).
    intros _ _.
    match goal with |- context [<[_ := ?c]> _] => exists c end. split; [|reflexivity].
    cbn. apply list_lookup_insert_eq. eapply lookup_lt_Some; eauto.
  - apply step_StopJoin in H as (_ & _ & _ & es & _ & ->); [|exact Hwf].
    intros _ Hheld. exfalso. unfold joined in Hheld. destruct_world w. exec.
    destruct cn as [c0|]; [destruct (default true (cs !! c0))|]; cbn in *; congruence.
  - clear Hwf Hs. destruct_world w. step_exec H.
    repeat case_match; exec_in_all; simplify_eq; exec; auto; intros; discriminate.
  - clear Hwf Hs. destruct_world w. step_exec H.
    repeat case_match; exec_in_all; simplify_eq; exec; auto; intros; discriminate.
  - clear Hwf Hs. destruct_world w. step_exec H.
    repeat case_match; exec_in_all; simplify_eq; exec; auto; intros; discriminate.
  - clear Hwf Hs. destruct_world w. step_exec H.
    repeat case_match; exec_in_all; simplify_eq; exec; try (intros; discriminate).
    all: intros Hlive Hheld; specialize (Hl Hlive Hheld);
      eapply shutdown_closed_insert; eauto.
  - clear Hwf Hs. destruct_world w. step_exec H.
    repeat case_match; exec_in_all; simplify_eq; exec; auto; intros; discriminate.
  - clear Hwf Hs. destruct_world w. step_exec H.
    repeat case_match; exec_in_all; simplify_eq; exec; auto; intros; discriminate.
  - apply step_Body in H as (_ & x & pc & Ha & Hg & [[_ ->]|[_ ->]]); [| |exact Hwf].
    + intros; discriminate.
    + destruct_world w. exact Hl.
Qed.

Lemma lock_by_stop_run (sched : list Action) :
  forall w w', wf w -> sound w -> lock_by_stop w ->
    run env sched w = Some w' -> lock_by_stop w'.
Proof.
  induction sched as [|a rest IH]; intros w w' Hwf Hs Hl H; cbn in H.
  - injection H as <-. exact Hl.
  - destruct (step env a w) as [w1|] eqn:Hst; [|discriminate].
    eapply IH; [| | |exact H];
      [eapply wf_step|eapply sound_step|eapply lock_by_stop_step]; eauto.
Qed.

Lemma reachable_lock_by_stop (w : World) : reachable env w -> lock_by_stop w.
Proof.
  intros (c & sched & H).
  exact (lock_by_stop_run sched (boot c) w (wf_boot c) (sound_boot c)
           (lock_by_stop_boot c) H).
Qed.

(** Only the end of [Stop] and the end of [Start] release the lock. *)
Lemma lock_held_step (a : Action) (w w' : World) :
  wf w -> a <> AStopJoin -> mu (n w) = true ->
  step env a w = Some w' ->
  mu (n w') = true /\ start_succeeds env a w = false.
Proof.
  intros Hwf Hne Hmu H. destruct a; try congruence.
  - exfalso. unfold step in H. destruct (crashed w); [discriminate|].
    cbn [act] in H. unfold bind in H. rewrite Start_locked in H by exact Hmu.
    discriminate.
  - exfalso. destruct_world w. step_exec H. cbn in Hmu. subst. discriminate.
  - split; [|reflexivity]. clear Hwf. destruct_world w. step_exec H.
    repeat case_match; exec_in_all; simplify_eq; exec; first [reflexivity|assumption].
  - split; [|reflexivity]. clear Hwf. destruct_world w. step_exec H.
    repeat case_match; exec_in_all; simplify_eq; exec; first [reflexivity|assumption].
  - split; [|reflexivity]. clear Hwf. destruct_world w. step_exec H.
    repeat case_match; exec_in_all; simplify_eq; exec; first [reflexivity|assumption].
  - split; [|reflexivity]. clear Hwf. destruct_world w. step_exec H.
    repeat case_match; exec_in_all; simplify_eq; exec; first [reflexivity|assumption].
  - split; [|reflexivity]. clear Hwf. destruct_world w. step_exec H.
    repeat case_match; exec_in_all; simplify_eq; exec; first [reflexivity|assumption].
  - split; [|reflexivity]. clear Hwf. destruct_world w. step_exec H.
    repeat case_match; exec_in_all; simplify_eq; exec; first [reflexivity|assumption].
  - split; [|reflexivity].
    apply step_Body in H as (_ & x & pc & Ha & Hg & [[_ ->]|[_ ->]]); [| |exact Hwf].
    + destruct_world w. exact Hmu.
    + destruct_world w. exact Hmu.
Qed.

Lemma lock_held_run (sched : list Action) :
  forall w w', wf w -> Forall (fun a => a <> AStopJoin) sched ->
    mu (n w) = true -> shutdown_closed w ->
    run env sched w = Some w' ->
    mu (n w') = true /\ shutdown_closed w'.
Proof.
  induction sched as [|a rest IH]; intros w w' Hwf Hn Hmu Hq H; cbn in H.
  - injection H as <-. auto.
  - destruct (step env a w) as [w1|] eqn:Hst; [|discriminate].
    inversion Hn as [|? ? Ha Hrest]; subst.
    destruct (lock_held_step a w w1 Hwf Ha Hmu Hst) as [Hmu1 Hns].
    eapply (IH w1 w'); eauto using wf_step, shutdown_closed_step.
Qed.

(** [Stop] holds the lock from its first statement on. *)
Lemma StopClose_locks (w w' : World) :
  step env AStopClose w = Some w' -> mu (n w') = true.
Proof.
  intros H. destruct_world w. step_exec H. destruct lk; [discriminate|]. exec.
  repeat case_match; exec_in_all; simplify_eq; exec; reflexivity.
Qed.

End LockByStop.

(** X14: from the moment [Stop] has closed n.done until it gets past
    n.wg.Wait(), whatever the loop and the two callbacks do meanwhile, the
    lock stays held and the shutdown channel stays closed; a call of
    [Start] and another call of [Stop] wait for the lock: they neither run
    nor panic. *)
Theorem lock_held_only_while_stopping
  (env : Env) (w0 w1 w : World) (sched : list Action) :
  reachable env w0 ->
  step env AStopClose w0 = Some w1 ->
  crashed w1 = None ->
  Forall (fun a => a <> AStopJoin) sched ->
  run env sched w1 = Some w ->
  mu (n w) = true /\
  shutdown_closed w /\
  (forall a, step env (AStart a) w = None) /\
  step env AStopClose w = None.
Proof.
  intros Hr Hclose Hlive Hn Hrun.
  pose proof (reachable_wf env w0 Hr) as Hwf0.
  pose proof (wf_step env _ _ _ Hwf0 Hclose) as Hwf1.
  pose proof (StopClose_locks env w0 w1 Hclose) as Hmu1.
  assert (Hq1 : shutdown_closed w1).
  { apply (lock_by_stop_step env AStopClose w0 w1 Hwf0 (reachable_sound env w0 Hr)
             (reachable_lock_by_stop env w0 Hr) Hclose Hlive Hmu1). }
  destruct (lock_held_run env sched w1 w Hwf1 Hn Hmu1 Hq1 Hrun) as [Hmu Hq].
  split; [exact Hmu|]. split; [exact Hq|]. split.
  - intros a. unfold step. destruct (crashed w); [reflexivity|]. cbn [act]. unfold bind.
    rewrite Start_locked by exact Hmu. reflexivity.
  - unfold step. destruct (crashed w); [reflexivity|]. cbn [act].
    unfold Stop_close, bind, Lock. rewrite Hmu. reflexivity.
Qed.

Lemma lock_held_only_while_stopping_witness :
  let w := StopExample.still_stopping in
  mu (n w) = true /\
  shutdown_closed w /\
  (forall a, step Double.ok_env (AStart a) w = None) /\
  step Double.ok_env AStopClose w = None.
Proof.
  apply (lock_held_only_while_stopping Double.ok_env StartedExample.started
           StopExample.stopping StopExample.still_stopping StopExample.waiting_sched).
  - exists Double.plain, [AStart 7]. vm_compute. reflexivity.
  - vm_compute. reflexivity.
  - reflexivity.
  - repeat constructor; discriminate.
  - vm_compute. reflexivity.
Defined.

(** ** The registered defaults *)

(** X15: the instance registered by [init] asks for secure transport and
    names no files, so its [Start] loads the key pair from two empty file
    names before it contacts any server; when that fails the process exits
    with the fatal log of line 139, whatever the servers would answer. *)
Theorem default_instance_needs_key_pair (env : Env) (a : AccId) (err : error) :
  LoadX509KeyPair env "" "" = inr err ->
  exists w',
    Start env a init_world
      = Fatal ("error parsing X509 certificate/key pair: " +:+ err) w' /\
    calls w' = [] /\ conns w' = [] /\ receivers w' = [].
Proof.
  intros HL.
  pose proof (Start_spec env a init_world eq_refl) as Hspec. cbv zeta in Hspec.
  assert (Hb : build_opts env (n init_world)
               = inl ("error parsing X509 certificate/key pair: " +:+ err)).
  { unfold build_opts, build_tls. cbn. rewrite HL. reflexivity. }
  rewrite Hb in Hspec. rewrite Hspec. eexists. split; [reflexivity|]. auto.
Qed.

Lemma default_instance_needs_key_pair_witness :
  exists w',
    Start Double.ok_env 7 init_world
      = Fatal ("error parsing X509 certificate/key pair: " +:+ Double.no_such_file) w' /\
    calls w' = [] /\ conns w' = [] /\ receivers w' = [].
Proof.
  apply (default_instance_needs_key_pair Double.ok_env 7 Double.no_such_file).
  reflexivity.
Defined.

(** ** Start after Stop *)

Lemma subs_of_conn (c : ConnId) (q : string) (subjs : list string) :
  forall base, Forall (fun s => sub_conn s = c) (subs_of c q base subjs).
Proof.
  induction subjs as [|x l IH]; intros base; cbn; constructor; auto.
Qed.

Lemma subs_of_length (c : ConnId) (q : string) (subjs : list string) :
  forall base, length (subs_of c q base subjs) = length subjs.
Proof.
  induction subjs as [|x l IH]; intros base; cbn; auto.
Qed.

Section SubsKnown.

Variable env : Env.

Lemma subs_known_boot (c : natsConsumer) : subs_known (boot c).
Proof. constructor. Qed.

Lemma subs_known_grow (subs : list Subscription) (k k' : nat) :
  k <= k' ->
  Forall (fun s => sub_conn s < k) subs -> Forall (fun s => sub_conn s < k') subs.
Proof. intros Hk HF. eapply Forall_impl; [exact HF|]. intros s Hs. cbn beta in *. lia. Qed.

Lemma subs_known_step (a : Action) (w w' : World) :
  wf w -> subs_known w -> step env a w = Some w' -> subs_known w'.
Proof.
  intros Hwf Hk H. unfold subs_known in *. destruct a.
  - apply step_Start in H as (_ & _ & Hsr).
    destruct Hsr as [msg _ _|opts _ _ _|opts err _ _ _ _|opts r k tail _ _ _ _ _].
    + destruct_world w. exact Hk.
    + unfold launched. destruct_world w. exact Hk.
    + destruct_world w. exact Hk.
    + assert (Hnew : Forall (fun s => sub_conn s < length (conns w ++ [false]))
                       (Subs (n w)
                        ++ subs_of (length (conns w)) (QueueGroup (n w))
                             (length (calls w ++ [CConnect opts;
                                                  CSetErrorHandler (length (conns w))]))
                             (take k (Subjects (n w))))).
      { apply Forall_app. split.
        - eapply subs_known_grow; [|exact Hk]. rewrite length_app. lia.
        - eapply Forall_impl; [apply subs_of_conn|]. intros s ->.
          rewrite length_app. cbn. lia. }
      unfold after_loop, launched, subscribed, dialled.
      destruct r; destruct_world w; exact Hnew.
  - clear Hwf. destruct_world w. step_exec H.
    repeat case_match; exec_in_all; simplify_eq; exec; auto.
  - apply step_StopJoin in H as (_ & _ & _ & es & _ & ->); [|exact Hwf].
    unfold joined. clear Hwf. destruct_world w. exec.
    destruct cn as [c0|]; [destruct (default true (cs !! c0))|];
      exec; rewrite ?length_insert; auto.
  - clear Hwf. destruct_world w. step_exec H.
    repeat case_match; exec_in_all; simplify_eq; exec; auto.
  - clear Hwf. destruct_world w. step_exec H.
    repeat case_match; exec_in_all; simplify_eq; exec; auto.
  - clear Hwf. destruct_world w. step_exec H.
    repeat case_match; exec_in_all; simplify_eq; exec; auto.
  - clear Hwf. destruct_world w. step_exec H.
    repeat case_match; exec_in_all; simplify_eq; exec; auto.
  - clear Hwf. destruct_world w. step_exec H.
    repeat case_match; exec_in_all; simplify_eq; exec; auto.
  - clear Hwf. destruct_world w. step_exec H.
    repeat case_match; exec_in_all; simplify_eq; exec; auto.
  - apply step_Body in H as (_ & x & pc & Ha & Hg & [[_ ->]|[_ ->]]); [| |exact Hwf].
    + destruct_world w. exact Hk.
    + destruct_world w. exact Hk.
Qed.

Lemma subs_known_run (sched : list Action) :
  forall w w', wf w -> subs_known w -> run env sched w = Some w' -> subs_known w'.
Proof.
  induction sched as [|a rest IH]; intros w w' Hwf Hk H; cbn in H.
  - injection H as <-. exact Hk.
  - destruct (step env a w) as [w1|] eqn:Hst; [|discriminate].
    eapply IH; [| |exact H]; [eapply wf_step|eapply subs_known_step]; eauto.
Qed.

Lemma reachable_subs_known (w : World) : reachable env w -> subs_known w.
Proof.
  intros (c & sched & H).
  eapply subs_known_run; [apply wf_boot|apply subs_known_boot|exact H].
Qed.

(** After [Stop] has returned no connection is open and the lock is free. *)
Lemma joined_closed (es : list (AccId * SinkCall)) (w : World) :
  wf w ->
  (forall c, c < length (conns w) -> conns (joined es w) !! c = Some true) /\
  length (conns (joined es w)) = length (conns w) /\
  needs_dial (joined es w) = true /\
  mu (n (joined es w)) = false /\
  Subs (n (joined es w)) = Subs (n w) /\
  Subjects (n (joined es w)) = Subjects (n w) /\
  QueueGroup (n (joined es w)) = QueueGroup (n w) /\
  receivers (joined es w) = receivers w /\
  wg (n (joined es w)) = wg (n w).
Proof.
  intros Hwf. pose proof (wf_conn w Hwf) as Hconn. clear Hwf.
  assert (Hall : forall c0, (forall c, conns w !! c = Some false -> c = c0) ->
                 forall c, c < length (conns w) ->
                           <[c0 := true]> (conns w) !! c = Some true).
  { intros c0 Hc0 c Hc. destruct (decide (c = c0)) as [->|Hne].
    - apply list_lookup_insert_eq. exact Hc.
    - rewrite list_lookup_insert_ne by congruence.
      destruct (lookup_lt_is_Some_2 _ _ Hc) as [[|] Hb]; [exact Hb|].
      specialize (Hc0 c Hb). congruence. }
  unfold joined, needs_dial. destruct_world w. exec.
  destruct cn as [c0|].
  - destruct (cs !! c0) as [[|]|] eqn:Hc0; cbn [from_option id]; exec.
    + rewrite Hc0. repeat split; auto.
      intros c Hc. destruct (lookup_lt_is_Some_2 _ _ Hc) as [[|] Hb]; [exact Hb|].
      specialize (Hconn c Hb). congruence.
    + rewrite list_lookup_insert_eq by (eapply lookup_lt_Some; eauto).
      repeat split; auto using length_insert.
      apply Hall. intros c Hc. specialize (Hconn c Hc). congruence.
    + rewrite Hc0. repeat split; auto.
      intros c Hc. destruct (lookup_lt_is_Some_2 _ _ Hc) as [[|] Hb]; [exact Hb|].
      specialize (Hconn c Hb). congruence.
  - repeat split; auto.
    intros c Hc. destruct (lookup_lt_is_Some_2 _ _ Hc) as [[|] Hb]; [exact Hb|].
    specialize (Hconn c Hb). discriminate.
Qed.

End SubsKnown.

(** A [Start] that dials and returns nil, in full. *)
Lemma Start_dialled_spec (env : Env) (a : AccId) (w1 w2 : World) :
  mu (n w1) = false ->
  needs_dial w1 = true ->
  Start env a w1 = Returns None w2 ->
  Conn (n w2) = Some (length (conns w1)) /\
  conns w2 = conns w1 ++ [false] /\
  in_buf w2 = [] /\
  (exists new,
      Subs (n w2) = Subs (n w1) ++ new /\
      map sub_Subject new = Subjects (n w1) /\
      Forall (fun s => sub_conn s = length (conns w1)) new) /\
  receivers w2 = receivers w1 ++ [RTop] /\
  wg (n w2) = S (wg (n w1)) /\
  exists w3, Stop_close w2 = Returns tt w3 /\ shutdown_closed w3.
Proof.
  intros Hmu Hd HS.
  pose proof (Start_spec env a w1 Hmu) as Hspec. cbv zeta in Hspec.
  destruct (build_opts env (n w1)) as [msg|opts] eqn:Hb; [congruence|].
  rewrite Hd in Hspec.
  destruct (broker_fails env (calls w1) (CConnect opts)) as [e|]; [congruence|].
  destruct Hspec as (r & k & tail & Heq & Hend). rewrite Heq in HS.
  injection HS as -> <-. unfold loop_end in Hend. destruct Hend as (-> & -> & _).
  assert (Hsubj_map : forall c q base l, map sub_Subject (subs_of c q base l) = l).
  { clear. intros c q base l. revert base.
    induction l as [|x l IH]; intros base; cbn; [reflexivity|]. rewrite IH. reflexivity. }
  assert (Hmu2 : mu (n (subscribed (length (conns w1)) (Subjects (n w1))
                          (length (Subjects (n w1))) []
                          (dialled opts (set_n (with_acc (Some a)) w1)))) = false).
  { unfold subscribed, dialled. destruct_world w1. exact Hmu. }
  destruct (Stop_close_launched _ Hmu2) as (Hclose & _ & Hclosed).
  unfold after_loop.
  split; [|split; [|split; [|split; [|split; [|split]]]]].
  - unfold launched, subscribed, dialled. destruct_world w1. reflexivity.
  - unfold launched, subscribed, dialled. destruct_world w1. reflexivity.
  - unfold in_buf, deref, launched, subscribed, dialled. destruct_world w1. exec.
    rewrite lookup_snoc. reflexivity.
  - exists (subs_of (length (conns w1)) (QueueGroup (n w1))
              (length (calls w1 ++ [CConnect opts; CSetErrorHandler (length (conns w1))]))
              (Subjects (n w1))).
    split; [|split].
    + unfold launched, subscribed, dialled. destruct_world w1. exec.
      rewrite firstn_all. reflexivity.
    + apply Hsubj_map.
    + apply subs_of_conn.
  - unfold launched, subscribed, dialled. destruct_world w1. reflexivity.
  - unfold launched, subscribed, dialled. destruct_world w1. reflexivity.
  - eexists. split; [exact Hclose|exact Hclosed].
Qed.

(** X16: the plugin can be started again after [Stop] has returned, and the
    restart keeps the old subscriptions. A [Start] that returns nil then has
    dialled a new connection, made an empty message queue, subscribed every
    subject on the new connection and launched the only running receiver;
    n.Subs lists these subscriptions after the earlier ones, which all belong
    to closed connections; the next [Stop] closes the new shutdown channel
    without a panic. *)
Theorem restart_keeps_stale_subscriptions
  (env : Env) (a : AccId) (w w1 w2 : World) :
  reachable env w ->
  step env AStopJoin w = Some w1 ->
  Start env a w1 = Returns None w2 ->
  Conn (n w2) = Some (length (conns w)) /\
  conns w2 !! length (conns w) = Some false /\
  in_buf w2 = [] /\
  (exists new,
      Subs (n w2) = Subs (n w) ++ new /\
      map sub_Subject new = Subjects (n w) /\
      Forall (fun s => sub_conn s = length (conns w)) new) /\
  Forall (fun s => conns w2 !! sub_conn s = Some true) (Subs (n w)) /\
  receivers w2 = receivers w ++ [RTop] /\
  wg (n w2) = 1 /\
  exists w3, Stop_close w2 = Returns tt w3 /\ shutdown_closed w3.
Proof.
  intros Hr Hj HS.
  pose proof (reachable_wf env w Hr) as Hwf.
  pose proof (reachable_subs_known env w Hr) as Hk.
  apply step_StopJoin in Hj as (_ & _ & Hwg & es & _ & ->); [|exact Hwf].
  destruct (joined_closed es w Hwf)
    as (Hcl & Hlen & Hd & Hmu & Hsubs & Hsubj & Hq & Hrs & Hwg').
  destruct (Start_dialled_spec env a (joined es w) w2 Hmu Hd HS)
    as (H1 & H2 & H3 & (new & H4 & H5 & H6) & H7 & H8 & H9).
  rewrite Hlen in H1, H6. rewrite Hsubs in H4. rewrite Hsubj in H5.
  rewrite Hrs in H7. rewrite Hwg', Hwg in H8.
  split; [exact H1|]. split.
  { rewrite H2, <- Hlen. apply lookup_snoc_open. }
  split; [exact H3|]. split; [exists new; auto|].
  split; [|auto].
  eapply Forall_impl; [exact Hk|]. intros s Hs. cbn beta in *.
  rewrite H2. apply lookup_app_l_Some. apply Hcl. exact Hs.
Qed.

Lemma restart_keeps_stale_subscriptions_witness :
  let w := StopExample.drained in
  let w2 := RestartExample.restarted in
  Conn (n w2) = Some (length (conns w)) /\
  conns w2 !! length (conns w) = Some false /\
  in_buf w2 = [] /\
  (exists new,
      Subs (n w2) = Subs (n w) ++ new /\
      map sub_Subject new = Subjects (n w) /\
      Forall (fun s => sub_conn s = length (conns w)) new) /\
  Forall (fun s => conns w2 !! sub_conn s = Some true) (Subs (n w)) /\
  receivers w2 = receivers w ++ [RTop] /\
  wg (n w2) = 1 /\
  exists w3, Stop_close w2 = Returns tt w3 /\ shutdown_closed w3.
Proof.
  apply (restart_keeps_stale_subscriptions Double.sticky_env 8 StopExample.drained
           StopExample.stopped RestartExample.restarted).
  - exists Double.plain, StopExample.drained_sched. vm_compute. reflexivity.
  - vm_compute. reflexivity.
  - vm_compute. reflexivity.
Defined.
